(** * Untangle: the level generator and the tangle engine of GameScene.tsx

    A shallow embedding of [generateLevel], [doIntersect],
    [checkIntersections], [checkWinCondition], the mounting of a level and
    the pointer handlers of src/components/GameScene.tsx, with the data
    types of the repository's types file (Point, Rope, LevelData), and of
    the state handlers of the [App] component that hosts the scene.

    Numbers.  A JavaScript number is an IEEE 754 binary64 value; it is
    modelled by Rocq's primitive [float], whose operations are the same
    correctly rounded binary64 operations.  The arithmetic of the engine is
    written once over the interface [JsNumber] and instantiated at [float]
    (what the program runs) and at [Q] (exact arithmetic, used only to
    state what holds up to rounding).  Integer-valued quantities of the
    generator (level index, node count, loop counters, node indices) are
    modelled in [Z]: the level index is an integer (the application passes
    1..100), and integer arithmetic is exact in binary64 below 2^53.  The
    fractional quantities (density, positions, draws) are binary64.

    Host functions.  [Math.random] is a stream of draws [nat -> float];
    [Math.cos] and [Math.sin] are implementation-approximated in
    ECMAScript and are parameters of the generator. *)

From Stdlib Require Import ZArith QArith Qabs Lia Lqa Qfield Floats.
From stdpp Require Import base strings pretty list gmap.

Set Warnings "-inexact-float,-clear-no-such-hyp".
Local Open Scope Z_scope.

(* ------------------------------------------------------------------ *)
(** * Numbers *)

(** The operations the engine uses on numbers. [n_0_001] and [n_0_05] are
    the literals [0.001] and [0.05] of [doIntersect]. *)
Class JsNumber (T : Type) := {
  n_add : T -> T -> T;
  n_sub : T -> T -> T;
  n_mul : T -> T -> T;
  n_div : T -> T -> T;
  n_abs : T -> T;
  n_ltb : T -> T -> bool;
  n_min : T -> T -> T;
  n_max : T -> T -> T;
  n_of_Z : Z -> T;
  n_0_001 : T;
  n_0_05 : T
}.

Declare Scope num_scope.
Delimit Scope num_scope with num.
Infix "+" := n_add : num_scope.
Infix "-" := n_sub : num_scope.
Infix "*" := n_mul : num_scope.
Infix "/" := n_div : num_scope.
Infix "<?" := n_ltb : num_scope.

(** The binary64 value of an integer (round to nearest even). *)
Definition of_Z (z : Z) : float :=
  SF2Prim (binary_normalize prec emax z 0 false).

(** [Math.min] and [Math.max] on two numbers: NaN if either is NaN, and
    [-0] is smaller than [+0]. *)
Definition Math_min (a b : float) : float :=
  if (is_nan a || is_nan b)%bool then nan
  else if (a <? b)%float then a
  else if (b <? a)%float then b
  else if get_sign a then a else b.

Definition Math_max (a b : float) : float :=
  if (is_nan a || is_nan b)%bool then nan
  else if (a <? b)%float then b
  else if (b <? a)%float then a
  else if get_sign a then b else a.

(** [Math.floor] of a finite number, as an integer (rounding towards
    minus infinity). The generator applies it to finite values only; NaN
    and the infinities, which [Math.floor] returns unchanged, are sent to
    0 here. *)
Definition Math_floor (v : float) : Z :=
  match Prim2SF v with
  | S754_finite s m e =>
      let n := if s then Zneg m else Zpos m in
      if 0 <=? e then n * 2 ^ e else n / 2 ^ (- e)
  | _ => 0
  end.

#[export] Instance binary64 : JsNumber float := {
  n_add := PrimFloat.add;
  n_sub := PrimFloat.sub;
  n_mul := PrimFloat.mul;
  n_div := PrimFloat.div;
  n_abs := PrimFloat.abs;
  n_ltb := PrimFloat.ltb;
  n_min := Math_min;
  n_max := Math_max;
  n_of_Z := of_Z;
  n_0_001 := 0.001%float;
  n_0_05 := 0.05%float
}.

Definition Qltb (a b : Q) : bool := negb (Qle_bool b a).

(** Exact rational arithmetic: the same operations without rounding. *)
#[export] Instance exactQ : JsNumber Q := {
  n_add := Qplus;
  n_sub := Qminus;
  n_mul := Qmult;
  n_div := Qdiv;
  n_abs := Qabs;
  n_ltb := Qltb;
  n_min := fun a b => if Qltb b a then b else a;
  n_max := fun a b => if Qltb a b then b else a;
  n_of_Z := inject_Z;
  n_0_001 := (1 # 1000)%Q;
  n_0_05 := (5 # 100)%Q
}.

(* ------------------------------------------------------------------ *)
(** * Data model (the types file and the scene objects) *)

Module Vector3.
Record t (T : Type) := mk { x : T; y : T; z : T }.
Arguments mk {T}.
Arguments x {T}.
Arguments y {T}.
Arguments z {T}.
End Vector3.

Module Point.
Record t (T : Type) := mk {
  id : string; x : T; y : T; z : T; color : string }.
Arguments mk {T}.
Arguments id {T}.
Arguments x {T}.
Arguments y {T}.
Arguments z {T}.
Arguments color {T}.
End Point.

Module Rope.
Record t := mk { id : string; p1 : string; p2 : string; color : string }.
End Rope.

Module LevelData.
Record t (T : Type) := mk { points : list (Point.t T); ropes : list Rope.t }.
Arguments mk {T}.
Arguments points {T}.
Arguments ropes {T}.
End LevelData.

(** A pin of the scene: [THREE.Group] with its position. The scale is only
    ever (1,1,1) or (1.4,1.4,1.4); [grabbed] records the second. *)
Module Pin.
Record t (T : Type) := mk { position : Vector3.t T; grabbed : bool }.
Arguments mk {T}.
Arguments position {T}.
Arguments grabbed {T}.
End Pin.

(** An entry of [state.ropes]: the endpoints and the material, whose colour
    is 0xFF3D71 (tangled) or 0x00FFBB (clear); the mesh is rendering only. *)
Module RopeMesh.
Record t := mk { p1 : string; p2 : string; tangled : bool }.
End RopeMesh.

(** A JavaScript [Map] with string keys, in insertion order. *)
Section JsMap.
Context {V : Type}.

Fixpoint map_get (m : list (string * V)) (k : string) : option V :=
  match m with
  | [] => None
  | (k', v) :: m' => if String.eqb k' k then Some v else map_get m' k
  end.

(** [set] replaces the value of a present key where it stands and
    appends a new key at the end. *)
Fixpoint map_set (m : list (string * V)) (k : string) (v : V)
  : list (string * V) :=
  match m with
  | [] => [(k, v)]
  | (k', v') :: m' =>
      if String.eqb k' k then (k, v) :: m' else (k', v') :: map_set m' k v
  end.

Definition map_keys (m : list (string * V)) : list string := m.*1.
End JsMap.

(* ------------------------------------------------------------------ *)
(** * The tangle engine *)

(** The mutable [state.current] of the component, restricted to what the
    engine reads and writes. [moves] and [completions] count the calls of
    the host callbacks [onMove] and [onComplete] (the latter is scheduled
    with [setTimeout]). *)
Record State (T : Type) := mkState {
  selectedPointId : option string;
  dragIntersection : Vector3.t T;
  dragOffset : Vector3.t T;
  pins : gmap string (Pin.t T);
  ropes : list (string * RopeMesh.t);
  levelData : option (LevelData.t T);
  isComplete : bool;
  initialized : bool;
  moves : nat;
  completions : nat
}.
Arguments mkState {T}.
Arguments selectedPointId {T}.
Arguments dragIntersection {T}.
Arguments dragOffset {T}.
Arguments pins {T}.
Arguments ropes {T}.
Arguments levelData {T}.
Arguments isComplete {T}.
Arguments initialized {T}.
Arguments moves {T}.
Arguments completions {T}.

(** Pointer events as the input layer delivers them: the pin hit by the
    ray cast (if any) and the point where the ray meets the drag plane (if
    it does). *)
Inductive PointerEvent (T : Type) :=
  | PointerDown (hit : option string) (planeHit : option (Vector3.t T))
  | PointerMove (planeHit : option (Vector3.t T))
  | PointerUp.
Arguments PointerDown {T}.
Arguments PointerMove {T}.
Arguments PointerUp {T}.

Section Engine.
Context {T : Type} `{JsNumber T}.
Local Open Scope num_scope.

Definition set_ropes (s : State T) (r : list (string * RopeMesh.t)) : State T :=
  mkState (selectedPointId s) (dragIntersection s) (dragOffset s) (pins s) r
    (levelData s) (isComplete s) (initialized s) (moves s) (completions s).

Definition set_pins (s : State T) (p : gmap string (Pin.t T)) : State T :=
  mkState (selectedPointId s) (dragIntersection s) (dragOffset s) p (ropes s)
    (levelData s) (isComplete s) (initialized s) (moves s) (completions s).

(** ** doIntersect *)

Definition det (a b c d : Vector3.t T) : T :=
  (Vector3.x b - Vector3.x a) * (Vector3.y d - Vector3.y c)
  - (Vector3.y b - Vector3.y a) * (Vector3.x d - Vector3.x c).

Definition lambda (a b c d : Vector3.t T) : T :=
  ((Vector3.y d - Vector3.y c) * (Vector3.x d - Vector3.x a)
   + (Vector3.x c - Vector3.x d) * (Vector3.y d - Vector3.y a)) / det a b c d.

Definition gamma (a b c d : Vector3.t T) : T :=
  ((Vector3.y a - Vector3.y b) * (Vector3.x d - Vector3.x a)
   + (Vector3.x b - Vector3.x a) * (Vector3.y d - Vector3.y a)) / det a b c d.

Definition doIntersect (a b c d : Vector3.t T) : bool :=
  if n_abs (det a b c d) <? n_0_001 then false
  else
    let eps := n_0_05 in
    ((eps <? lambda a b c d) && (lambda a b c d <? n_of_Z 1 - eps))
    && ((eps <? gamma a b c d) && (gamma a b c d <? n_of_Z 1 - eps)).

(** ** checkIntersections *)

(** [r1.p1 === r2.p1 || r1.p1 === r2.p2 || r1.p2 === r2.p1 || r1.p2 === r2.p2] *)
Definition sharesEndpoint (r1 r2 : RopeMesh.t) : bool :=
  String.eqb (RopeMesh.p1 r1) (RopeMesh.p1 r2)
  || String.eqb (RopeMesh.p1 r1) (RopeMesh.p2 r2)
  || String.eqb (RopeMesh.p2 r1) (RopeMesh.p1 r2)
  || String.eqb (RopeMesh.p2 r1) (RopeMesh.p2 r2).

(** The body of the inner loop up to the call of [doIntersect]: [None]
    when one of the three [continue] statements is taken, otherwise the
    result of the crossing test of the two ropes. *)
Definition crossingTest (s : State T) (k1 k2 : string) : option bool :=
  match map_get (ropes s) k1, map_get (ropes s) k2 with
  | Some r1, Some r2 =>
      if sharesEndpoint r1 r2 then None
      else
        match pins s !! RopeMesh.p1 r1, pins s !! RopeMesh.p2 r1,
              pins s !! RopeMesh.p1 r2, pins s !! RopeMesh.p2 r2 with
        | Some pin1, Some pin2, Some pin3, Some pin4 =>
            Some (doIntersect (Pin.position pin1) (Pin.position pin2)
                              (Pin.position pin3) (Pin.position pin4))
        | _, _, _, _ => None
        end
  | _, _ => None
  end.

Definition pairStep (s : State T) (k1 k2 : string) (tangledIds : gset string)
  : gset string :=
  match crossingTest s k1 k2 with
  | Some true => {[ k2 ]} ∪ ({[ k1 ]} ∪ tangledIds)
  | _ => tangledIds
  end.

(** [for (j = i + 1; j < ropeKeys.length; j++)] for a fixed [i]. *)
Definition innerLoop (s : State T) (k1 : string) (rest : list string)
    (tangledIds : gset string) : gset string :=
  foldl (fun acc k2 => pairStep s k1 k2 acc) tangledIds rest.

(** [for (i = 0; i < ropeKeys.length; i++)]. *)
Fixpoint outerLoop (s : State T) (ropeKeys : list string)
    (tangledIds : gset string) : gset string :=
  match ropeKeys with
  | [] => tangledIds
  | k1 :: rest => outerLoop s rest (innerLoop s k1 rest tangledIds)
  end.

(** The set [tangledIds] at the end of the double loop. *)
Definition tangledIds (s : State T) : gset string :=
  outerLoop s (map_keys (ropes s)) ∅.

(** [updateRopeMesh(id, _, _, isTangled)]: the material is recoloured;
    the entry is rewritten with the endpoints of the level's rope of that
    id when there is one. *)
Definition updateRopeMesh (s : State T) (id : string) (isTangled : bool) : State T :=
  let rData :=
    match levelData s with
    | Some ld => find (fun r => String.eqb (Rope.id r) id) (LevelData.ropes ld)
    | None => None
    end in
  match rData, map_get (ropes s) id with
  | Some r, _ =>
      set_ropes s (map_set (ropes s) id (RopeMesh.mk (Rope.p1 r) (Rope.p2 r) isTangled))
  | None, Some rd =>
      set_ropes s (map_set (ropes s) id
                     (RopeMesh.mk (RopeMesh.p1 rd) (RopeMesh.p2 rd) isTangled))
  | None, None => s
  end.

(** [ropeKeys.forEach(id => ...)]: one step. *)
Definition recolourStep (tangled : gset string) (s : State T) (id : string) : State T :=
  match map_get (ropes s) id with
  | None => s
  | Some r =>
      match pins s !! RopeMesh.p1 r, pins s !! RopeMesh.p2 r with
      | Some _, Some _ => updateRopeMesh s id (bool_decide (id ∈ tangled))
      | _, _ => s
      end
  end.

(** [checkIntersections()]: the state with the ropes recoloured, and
    [tangledIds.size === 0]. *)
Definition checkIntersections (s : State T) : State T * bool :=
  let tangled := tangledIds s in
  (foldl (recolourStep tangled) s (map_keys (ropes s)),
   bool_decide (size tangled = 0%nat)).

(** The condition of the [if] in [checkWinCondition]:
    [s.ropes.size > 0 && isSolved]. *)
Definition solved (s : State T) : bool :=
  let '(s', isSolved) := checkIntersections s in
  (0 <? length (ropes s'))%nat && isSolved.

Definition checkWinCondition (s : State T) : State T :=
  if negb (initialized s) || isComplete s then s
  else
    let '(s', isSolved) := checkIntersections s in
    if (0 <? length (ropes s'))%nat && isSolved then
      mkState (selectedPointId s') (dragIntersection s') (dragOffset s') (pins s')
        (ropes s') (levelData s') true (initialized s') (moves s')
        (S (completions s'))
    else s'.

(** ** Pointer handlers *)

(** The test [if (s.selectedPointId)]: [null] and the empty string are
    falsy. *)
Definition selected (s : State T) : option string :=
  match selectedPointId s with
  | Some EmptyString => None
  | other => other
  end.

Definition vsub (a b : Vector3.t T) : Vector3.t T :=
  Vector3.mk (Vector3.x a - Vector3.x b) (Vector3.y a - Vector3.y b)
             (Vector3.z a - Vector3.z b).

(** [THREE.MathUtils.clamp(value, min, max)] is
    [Math.max(min, Math.min(max, value))]. *)
Definition clamp (value lo hi : T) : T := n_max lo (n_min hi value).

Definition setGrabbed (p : gmap string (Pin.t T)) (id : string) (g : bool)
  : gmap string (Pin.t T) :=
  match p !! id with
  | Some pin => <[ id := Pin.mk (Pin.position pin) g ]> p
  | None => p
  end.

(** [hit] is the id of the pin the ray cast found; the ray is cast against
    the pins of [s.pins] only, so the pin exists (the origin stands for a
    missing one). *)
Definition onPointerDown (s : State T) (hit : option string)
    (planeHit : option (Vector3.t T)) : State T :=
  if isComplete s then s
  else
    match hit with
    | None => s
    | Some id =>
        let targetPos :=
          match pins s !! id with
          | Some pin => Pin.position pin
          | None => Vector3.mk (n_of_Z 0) (n_of_Z 0) (n_of_Z 0)
          end in
        let di := match planeHit with Some q => q | None => dragIntersection s end in
        let off := match planeHit with
                   | Some q => vsub q targetPos
                   | None => dragOffset s
                   end in
        mkState (Some id) di off (setGrabbed (pins s) id true) (ropes s)
          (levelData s) (isComplete s) (initialized s) (moves s) (completions s)
    end.

Definition onPointerMove (s : State T) (planeHit : option (Vector3.t T)) : State T :=
  match selected s with
  | None => s
  | Some sel =>
      if isComplete s then s
      else
        match planeHit with
        | None => s
        | Some q =>
            let s1 := mkState (selectedPointId s) q (dragOffset s) (pins s) (ropes s)
                        (levelData s) (isComplete s) (initialized s) (moves s)
                        (completions s) in
            match pins s !! sel with
            | None => s1
            | Some pin =>
                let nextPos := vsub q (dragOffset s) in
                let nextPos :=
                  Vector3.mk (clamp (Vector3.x nextPos) (n_of_Z (-9)) (n_of_Z 9))
                             (clamp (Vector3.y nextPos) (n_of_Z (-14)) (n_of_Z 14))
                             (Vector3.z nextPos) in
                fst (checkIntersections
                       (set_pins s1 (<[ sel := Pin.mk nextPos (Pin.grabbed pin) ]> (pins s))))
            end
        end
  end.

Definition onPointerUp (s : State T) : State T :=
  match selected s with
  | None => s
  | Some sel =>
      checkWinCondition
        (mkState None (dragIntersection s) (dragOffset s)
           (setGrabbed (pins s) sel false) (ropes s) (levelData s)
           (isComplete s) (initialized s) (S (moves s)) (completions s))
  end.

Definition handle (s : State T) (e : PointerEvent T) : State T :=
  match e with
  | PointerDown hit planeHit => onPointerDown s hit planeHit
  | PointerMove planeHit => onPointerMove s planeHit
  | PointerUp => onPointerUp s
  end.

(** ** Mounting a level (the body of the effect, without rendering) *)

Definition addPin (p : gmap string (Pin.t T)) (pt : Point.t T) : gmap string (Pin.t T) :=
  <[ Point.id pt := Pin.mk (Vector3.mk (Point.x pt) (Point.y pt) (Point.z pt)) false ]> p.

Definition addRopeMesh (p : gmap string (Pin.t T)) (m : list (string * RopeMesh.t))
    (r : Rope.t) : list (string * RopeMesh.t) :=
  match p !! Rope.p1 r, p !! Rope.p2 r with
  | Some _, Some _ => map_set m (Rope.id r) (RopeMesh.mk (Rope.p1 r) (Rope.p2 r) true)
  | _, _ => m
  end.

Definition initScene (ld : LevelData.t T) : State T :=
  let zero := Vector3.mk (n_of_Z 0) (n_of_Z 0) (n_of_Z 0) in
  let p := foldl addPin ∅ (LevelData.points ld) in
  let m := foldl (addRopeMesh p) [] (LevelData.ropes ld) in
  fst (checkIntersections
         (mkState None zero zero p m (Some ld) false true 0%nat 0%nat)).
End Engine.

(* ------------------------------------------------------------------ *)
(** * The level generator *)

Definition COLORS : list string :=
  ["#FF3D71"; "#3366FF"; "#00D68F"; "#FFAA00"; "#D948FF"; "#00E096"; "#FF5722"; "#00BCD4"].

(** [const pointCount = Math.min(5 + Math.floor(lvl / 10), 15)] *)
Definition pointCount (lvl : Z) : Z := Z.min (5 + lvl / 10) 15.

(** [const connectionDensity = 1.2 + (lvl / 100) * 0.8] *)
Definition connectionDensity (lvl : Z) : float :=
  (1.2 + (of_Z lvl / 100) * 0.8)%float.

(** [const scrambleCount = 20 + lvl * 2] *)
Definition scrambleCount (lvl : Z) : Z := 20 + lvl * 2.

(** [const extraRopes = Math.floor(pointCount * connectionDensity) - pointCount] *)
Definition extraRopes (lvl : Z) : Z :=
  Math_floor (of_Z (pointCount lvl) * connectionDensity lvl)%float - pointCount lvl.

Definition radius : float := 4.5%float.
Definition Math_PI : float := 3.141592653589793%float.

(** The template literals [`p${i}`] and [`r${n}`]. *)
Definition pointId (i : Z) : string := "p" +:+ pretty i.
Definition ropeId (n : nat) : string := "r" +:+ pretty n.

(** [[i, j].sort((a, b) => a - b).join('-')] *)
Definition ropeKey (i j : Z) : string :=
  pretty (Z.min i j) +:+ "-" +:+ pretty (Z.max i j).

(** [addRope(i, j)] on the pair of [connections] and [ropes]. *)
Definition addRope (i j : Z) (acc : gset string * list Rope.t)
  : gset string * list Rope.t :=
  let '(connections, ropes) := acc in
  let key := ropeKey i j in
  if negb (i =? j) && negb (bool_decide (key ∈ connections)) then
    ({[ key ]} ∪ connections,
     ropes ++ [Rope.mk (ropeId (length ropes)) (pointId i) (pointId j) "#ffffff"])
  else acc.

(** [Math.floor(Math.random() * pointCount)] for the draw [r]. *)
Definition randomIndex (n : Z) (r : float) : Z := Math_floor (r * of_Z n)%float.

(** [2 + Math.floor(Math.random() * (pointCount / 3))] for the draw [r]. *)
Definition chordOffset (n : Z) (r : float) : Z :=
  2 + Math_floor (r * (of_Z n / 3))%float.

(** [points[i]] for a number [i] that is an integer: [undefined] outside
    the array. *)
Definition at_index {A : Type} (l : list A) (i : Z) : option A :=
  if i <? 0 then None else l !! Z.to_nat i.

Definition setXY (p : Point.t float) (px py : float) : Point.t float :=
  Point.mk (Point.id p) px py (Point.z p) (Point.color p).

(** One iteration of the scramble loop; [None] is the [TypeError] of
    reading [.x] of [undefined]. *)
Definition swapPositions (points : list (Point.t float)) (idxA idxB : Z)
  : option (list (Point.t float)) :=
  match at_index points idxA, at_index points idxB with
  | Some pa, Some pb =>
      let tempX := Point.x pa in
      let tempY := Point.y pa in
      let points1 := <[ Z.to_nat idxA := setXY pa (Point.x pb) (Point.y pb) ]> points in
      match at_index points1 idxB with
      | Some pb1 => Some (<[ Z.to_nat idxB := setXY pb1 tempX tempY ]> points1)
      | None => None
      end
  | _, _ => None
  end.

Section Generator.
(** The host's [Math.cos], [Math.sin], and the draws of [Math.random]
    in the order they are made. *)
Variables Math_cos Math_sin : float -> float.
Variable Math_random : nat -> float.

(** The body of the loop that creates the pins. *)
Definition makePoint (n i : Z) : Point.t float :=
  let angle := (of_Z i / of_Z n * Math_PI * 2)%float in
  Point.mk (pointId i)
    (Math_cos angle * radius)%float
    (Math_sin angle * radius)%float
    0%float
    (nth (Z.to_nat (Z.rem i 8)) COLORS "").

(** The mandatory ring. *)
Definition ringRopes (n : Z) : gset string * list Rope.t :=
  foldl (fun acc i => addRope i (Z.rem (i + 1) n) acc) (∅, []) (seqZ 0 n).

(** The loop of extra chords: [count] iterations from draw [k] on. *)
Fixpoint extraLoop (n : Z) (count k : nat) (acc : gset string * list Rope.t)
  : nat * (gset string * list Rope.t) :=
  match count with
  | O => (k, acc)
  | S count' =>
      let i := randomIndex n (Math_random k) in
      let offset := chordOffset n (Math_random (S k)) in
      extraLoop n count' (S (S k)) (addRope i (Z.rem (i + offset) n) acc)
  end.

(** The scramble loop. *)
Fixpoint scrambleLoop (n : Z) (count k : nat) (points : list (Point.t float))
  : option (nat * list (Point.t float)) :=
  match count with
  | O => Some (k, points)
  | S count' =>
      let idxA := randomIndex n (Math_random k) in
      let idxB := randomIndex n (Math_random (S k)) in
      match swapPositions points idxA idxB with
      | Some points' => scrambleLoop n count' (S (S k)) points'
      | None => None
      end
  end.

(** [points.forEach(p => { p.x += ...; p.y += ... })] from draw [k] on. *)
Fixpoint jitter (k : nat) (points : list (Point.t float)) : list (Point.t float) :=
  match points with
  | [] => []
  | p :: rest =>
      setXY p (Point.x p + (Math_random k - 0.5) * 2)%float
              (Point.y p + (Math_random (S k) - 0.5) * 2)%float
      :: jitter (S (S k)) rest
  end.

(** [generateLevel(lvl)]; [None] when the call throws. *)
Definition generateLevel (lvl : Z) : option (LevelData.t float) :=
  let n := pointCount lvl in
  let points := makePoint n <$> seqZ 0 n in
  let '(k1, (_, ropes)) :=
    extraLoop n (Z.to_nat (extraRopes lvl)) 0%nat (ringRopes n) in
  match scrambleLoop n (Z.to_nat (scrambleCount lvl)) k1 points with
  | Some (k2, points') => Some (LevelData.mk (jitter k2 points') ropes)
  | None => None
  end.
End Generator.

(** Stand-ins for the host's cosine and sine where a concrete run is
    needed (truncated series); no result below depends on their values. *)
Definition cosSeries (a : float) : float := (1 - a * a / 2 + a * a * a * a / 24)%float.
Definition sinSeries (a : float) : float := (a - a * a * a / 6 + a * a * a * a * a / 120)%float.

(** A draw of [Math.random()] lies in [0, 1). *)
Definition in_unit (r : float) : bool := (0 <=? r)%float && (r <? 1)%float.

(** [scale_ok c K]: the number [c] is a normal binary64 value with
    [1 <= c <= K]. *)
Definition scale_ok (c : float) (K : Z) : bool :=
  match Prim2SF c with
  | S754_finite false mc ec =>
      (Zpos (digits2_pos mc) =? 53) && (-52 <=? ec) && (ec <=? 0)
      && (Zpos mc <=? K * 2 ^ (- ec))
  | _ => false
  end.


(* ------------------------------------------------------------------ *)
(** * The application shell (App)

    The state of [App] is the five [useState] cells, the item
    [untangle-progress-mobile-v1] of [localStorage], the mounted scene and
    the timeouts that are pending. The level numbers are integers (exact
    in binary64 below 2^53) or NaN, which only [parseInt] of a stored
    item that is no number yields. The stored item is kept as the number
    [parseInt] reads from it; [next.toString()] is read back as [next].

    Closures. The handlers of the buttons are those of the current render.
    The scene is different: its effect has the dependency [level] only,
    so [checkWinCondition] calls, through its timeout, the [onComplete] of
    the render in which the effect last ran, and that
    [handleLevelComplete] reads the [currentLevel] and the [unlockedLevel]
    of that render, whatever has happened since. A timeout is not cleared
    when the scene is unmounted. [LevelButton i] is the button of level
    [i + 1]. *)

Module App.

Inductive Num := Int (z : Z) | NaN.

(** [a > b], [a < b], [a + 1] and [Math.min(a, b)]. *)
Definition gt (a b : Num) : bool :=
  match a, b with Int x, Int y => y <? x | _, _ => false end.
Definition lt (a b : Num) : bool :=
  match a, b with Int x, Int y => x <? y | _, _ => false end.
Definition succ (a : Num) : Num :=
  match a with Int x => Int (x + 1) | NaN => NaN end.
Definition min (a b : Num) : Num :=
  match a, b with Int x, Int y => Int (Z.min x y) | _, _ => NaN end.

(** [Object.is], with which the dependency [level] of the scene's effect
    is compared from one render to the next. *)
Definition same (a b : Num) : bool :=
  match a, b with
  | Int x, Int y => x =? y
  | NaN, NaN => true
  | _, _ => false
  end.

(** What a [handleLevelComplete] reads of the render that created it. *)
Record Closure := mkClosure { closedLevel : Num; closedUnlocked : Num }.

(** The mounted [GameScene]: the [onComplete] of the render in which its
    effect last ran, and [state.current.isComplete]. *)
Record Scene := mkScene { onComplete : Closure; sceneComplete : bool }.

Record t := mk {
  currentLevel : Num;
  unlockedLevel : Num;
  isWon : bool;
  moves : nat;
  showMenu : bool;
  storage : option Num;
  scene : option Scene;
  timers : list Closure
}.

(** The initial render followed by the effect that loads the progress;
    [saved] is [None] when the item is absent or empty. The menu is open,
    so no scene is mounted. *)
Definition mount (saved : option Num) : t :=
  mk (Int 1) (match saved with Some v => v | None => Int 1 end) false 0 true saved
     None [].

(** [handleLevelComplete] of the render [cl], called in the state [st]. *)
Definition handleLevelComplete (cl : Closure) (st : t) : t :=
  let next := succ (closedLevel cl) in
  if gt next (closedUnlocked cl) then
    mk (currentLevel st) next true (moves st) (showMenu st) (Some next)
       (scene st) (timers st)
  else
    mk (currentLevel st) (unlockedLevel st) true (moves st) (showMenu st) (storage st)
       (scene st) (timers st).

Definition startLevel (lvl : Num) (st : t) : t :=
  mk lvl (unlockedLevel st) false 0 false (storage st) (scene st) (timers st).

Definition openMenu (st : t) : t :=
  mk (currentLevel st) (unlockedLevel st) (isWon st) (moves st) true (storage st)
     (scene st) (timers st).

Definition nextLevel (st : t) : t :=
  if lt (currentLevel st) (Int 100) then startLevel (succ (currentLevel st)) st
  else openMenu st.

(** [onMove={() => setMoves(m => m + 1)}] *)
Definition onMove (st : t) : t :=
  mk (currentLevel st) (unlockedLevel st) (isWon st) (S (moves st)) (showMenu st)
     (storage st) (scene st) (timers st).

(** [const isLocked = lvl > unlockedLevel] *)
Definition isLocked (st : t) (lvl : Z) : bool := gt (Int lvl) (unlockedLevel st).

(** The render that follows a change of the cells: [GameScene] is
    rendered only while the menu is closed; a scene that stays mounted
    runs its effect again only if [level] has changed, and a scene that
    is mounted or runs its effect again starts incomplete with the
    [onComplete] of this render. *)
Definition commit (st : t) : t :=
  let fresh := mkScene (mkClosure (currentLevel st) (unlockedLevel st)) false in
  mk (currentLevel st) (unlockedLevel st) (isWon st) (moves st) (showMenu st)
     (storage st)
     (if showMenu st then None
      else match scene st with
           | Some sc =>
               if same (closedLevel (onComplete sc)) (currentLevel st) then Some sc
               else Some fresh
           | None => Some fresh
           end)
     (timers st).

(** A pointer release with a pin selected in the mounted scene
    ([onPointerUp]): [onMove()], then [checkWinCondition()], which, when
    it finds the level solved ([wins]), sets [isComplete] and starts the
    timeout that will call the scene's [onComplete]. *)
Definition sceneRelease (wins : bool) (st : t) : t :=
  match scene st with
  | None => st
  | Some sc =>
      let st1 := onMove st in
      if wins then
        mk (currentLevel st1) (unlockedLevel st1) (isWon st1) (moves st1)
           (showMenu st1) (storage st1) (Some (mkScene (onComplete sc) true))
           (timers st1 ++ [onComplete sc])
      else st1
  end.

(** The oldest pending timeout fires (all have the delay 1500 ms, so they
    fire in the order in which they were started). *)
Definition timerFires (st : t) : t :=
  match timers st with
  | [] => st
  | cl :: rest =>
      commit (handleLevelComplete cl
                (mk (currentLevel st) (unlockedLevel st) (isWon st) (moves st)
                    (showMenu st) (storage st) (scene st) rest))
  end.

(** What can happen: a click on a button of the page, a release in the
    scene, a timeout. *)
Inductive Event :=
  | HudMenu
  | LevelButton (i : nat)
  | PlayNow
  | NextLevel
  | ModalMenu
  | SceneRelease (wins : bool)
  | TimerFires.

(** The button of the event is rendered and not disabled; a release
    finds a pin selected only in a mounted scene that is not complete
    ([onPointerDown] selects nothing in a complete one); a timeout is
    pending. *)
Definition enabled (st : t) (e : Event) : bool :=
  match e with
  | HudMenu => negb (showMenu st)
  | LevelButton i => showMenu st && (i <? 100)%nat && negb (isLocked st (Z.of_nat i + 1))
  | PlayNow => showMenu st
  | NextLevel => isWon st
  | ModalMenu => isWon st
  | SceneRelease _ =>
      match scene st with Some sc => negb (sceneComplete sc) | None => false end
  | TimerFires => match timers st with [] => false | _ :: _ => true end
  end.

Definition step (st : t) (e : Event) : t :=
  match e with
  | HudMenu => commit (openMenu st)
  | LevelButton i => commit (startLevel (Int (Z.of_nat i + 1)) st)
  | PlayNow => commit (startLevel (min (unlockedLevel st) (Int 100)) st)
  | NextLevel => commit (nextLevel st)
  | ModalMenu => commit (openMenu st)
  | SceneRelease wins => sceneRelease wins st
  | TimerFires => timerFires st
  end.

(** A session: events that are not enabled when they arrive do nothing
    (there is no such button to press, no pin to release, no timeout). *)
Definition run (st : t) (events : list Event) : t :=
  foldl (fun st e => if enabled st e then step st e else st) st events.

End App.

(* ------------------------------------------------------------------ *)
(** * Predicates and data used in the statements *)

(** [t] lies strictly inside the open interval (0.05, 0.95). *)
Definition inOpenInterval (t : float) : bool :=
  (0.05 <? t)%float && (t <? 0.95)%float.

(** The unordered pair of point ids an edge connects. *)
Definition edgeOf (r : Rope.t) : gset string := {[ Rope.p1 r; Rope.p2 r ]}.

(** How [addRope(i, j)] is called by the generator: for the ring
    ([j = (i + 1) % n]) or for a chord ([j = (i + o) % n]) whose offset
    [o] satisfies [2 <= o < 2 + n/3]. *)
Definition ringOrChord (n i j : Z) : Prop :=
  exists o, j = Z.rem (i + o) n /\ (o = 1 \/ (2 <= o /\ 3 * (o - 2) < n)).

(** A rope of a level of [n] nodes whose key is recorded in [connections]. *)
Definition ropeOk (n : Z) (connections : gset string) (r : Rope.t) : Prop :=
  exists i j, 0 <= i < n /\ 0 <= j < n /\ i <> j
              /\ Rope.p1 r = pointId i /\ Rope.p2 r = pointId j
              /\ ropeKey i j ∈ connections /\ ringOrChord n i j.

(** The invariant of the two rope loops. *)
Definition ropesInv (n : Z) (acc : gset string * list Rope.t) : Prop :=
  Forall (ropeOk n acc.1) acc.2 /\ NoDup (edgeOf <$> acc.2).

Section ScenePredicates.
Context {T : Type}.

(** What recolouring the ropes leaves alone. *)
Definition sameScene (s s' : State T) : Prop :=
  map_keys (ropes s') = map_keys (ropes s) /\ pins s' = pins s
  /\ isComplete s' = isComplete s /\ initialized s' = initialized s
  /\ levelData s' = levelData s /\ selectedPointId s' = selectedPointId s.

(** [s'] is complete, with the pin positions and the ropes of [s]. *)
Definition frozen (s s' : State T) : Prop :=
  isComplete s' = true
  /\ Pin.position <$> pins s' = Pin.position <$> pins s
  /\ ropes s' = ropes s.
End ScenePredicates.

(** Two segments whose crossing parameter is within rounding distance of
    the lower tolerance bound: (0,0)-(1,0) and the vertical segment at
    x = 0.05000000000000002 from y = -1 to y = 1. *)
Definition segA : Vector3.t float := Vector3.mk 0%float 0%float 0%float.
Definition segB : Vector3.t float := Vector3.mk 1%float 0%float 0%float.
Definition segC : Vector3.t float :=
  Vector3.mk 0.05000000000000002%float (-1)%float 0%float.
Definition segD : Vector3.t float :=
  Vector3.mk 0.05000000000000002%float 1%float 0%float.

(** A constant stream of draws. *)
Definition constantDraws (r : float) : nat -> float := fun _ => r.

(** A completed level of two pins joined by one rope, with pin [p1] still
    selected, and a drag of that pin. *)
Definition completedState : State float :=
  mkState (Some "p1") segA segA
    (<[ "p0" := Pin.mk segA false ]> (<[ "p1" := Pin.mk segB true ]> ∅))
    [("r0", RopeMesh.mk "p0" "p1" false)]
    None true true 1%nat 1%nat.

Definition dragEvents : list (PointerEvent float) :=
  [PointerDown (Some "p0") (Some segA); PointerMove (Some segD); PointerUp;
   PointerMove (Some segC)].

(** Four pins on a square joined by the two diagonals; the third pin is
    placed at ([px], [py]). *)
Definition squareLevel (px py : float) : LevelData.t float :=
  LevelData.mk
    [Point.mk "p0" 0%float 0%float 0%float "#FF3D71";
     Point.mk "p1" 10%float 0%float 0%float "#3366FF";
     Point.mk "p2" px py 0%float "#00D68F";
     Point.mk "p3" 0%float 10%float 0%float "#FFAA00"]
    [Rope.mk "r0" "p0" "p2" "#ffffff"; Rope.mk "r1" "p1" "p3" "#ffffff"].

(** ** Sessions of a mounted level *)

(** The state after a level is mounted and the events [events] have been
    delivered in order. *)
Definition play {T : Type} `{JsNumber T} (ld : LevelData.t T)
    (events : list (PointerEvent T)) : State T :=
  foldl handle (initScene ld) events.

Definition isPointerUp {T : Type} (e : PointerEvent T) : bool :=
  match e with PointerUp => true | _ => false end.

(** What holds of every state of a session: the level is initialized, a
    complete level has no pin selected, and [onComplete] has been
    scheduled once if the level is complete and not at all otherwise. *)
Definition sessionInv {T : Type} (s : State T) : Prop :=
  initialized s = true
  /\ (isComplete s = true -> selectedPointId s = None)
  /\ completions s = (if isComplete s then 1 else 0)%nat.

(** The entries of [state.ropes] carry the endpoints of the level's rope
    of the same id. *)
Definition consistent {T : Type} (s : State T) : Prop :=
  forall ld id r rd,
    levelData s = Some ld -> map_get (ropes s) id = Some r ->
    find (fun x => String.eqb (Rope.id x) id) (LevelData.ropes ld) = Some rd ->
    Rope.p1 rd = RopeMesh.p1 r /\ Rope.p2 rd = RopeMesh.p2 r.

(** The endpoints of an entry of [state.ropes]. *)
Definition ends (r : RopeMesh.t) : string * string := (RopeMesh.p1 r, RopeMesh.p2 r).

(** [s'] has the pins and the level of [s], and ropes with the same keys
    and endpoints. *)
Definition sameEnds {T : Type} (s s' : State T) : Prop :=
  pins s' = pins s /\ levelData s' = levelData s
  /\ map_keys (ropes s') = map_keys (ropes s)
  /\ forall id, ends <$> map_get (ropes s') id = ends <$> map_get (ropes s) id.

(** Every rope whose two pins exist has the colour of its tangled flag. *)
Definition coloursCurrent {T : Type} `{JsNumber T} (s : State T) : Prop :=
  forall id r,
    map_get (ropes s) id = Some r ->
    is_Some (pins s !! RopeMesh.p1 r) -> is_Some (pins s !! RopeMesh.p2 r) ->
    RopeMesh.tangled r = bool_decide (id ∈ tangledIds s).

(** [s'] has the ropes, the level and the pin positions of [s]. *)
Definition samePlace {T : Type} (s s' : State T) : Prop :=
  ropes s' = ropes s /\ levelData s' = levelData s
  /\ Pin.position <$> pins s' = Pin.position <$> pins s.

Definition sceneInv {T : Type} `{JsNumber T} (s : State T) : Prop :=
  NoDup (map_keys (ropes s)) /\ consistent s /\ coloursCurrent s.

(** The pin created for a point, and the entry created for a rope. *)
Definition pinOf {T : Type} (pt : Point.t T) : Pin.t T :=
  Pin.mk (Vector3.mk (Point.x pt) (Point.y pt) (Point.z pt)) false.
Definition meshOf (r : Rope.t) : string * RopeMesh.t :=
  (Rope.id r, RopeMesh.mk (Rope.p1 r) (Rope.p2 r) true).

(** ** The order of binary64 values *)

(** The position of a binary64 value in the order of [<]: the infinities,
    the finite values by sign, exponent and mantissa, and the two zeros
    together; NaN has none. *)
Definition orderKey (x : spec_float) : option (Z * Z * Z) :=
  match x with
  | S754_nan => None
  | S754_infinity true => Some (-2, 0, 0)
  | S754_finite true m e => Some (-1, - e, - Zpos m)
  | S754_zero _ => Some (0, 0, 0)
  | S754_finite false m e => Some (1, e, Zpos m)
  | S754_infinity false => Some (2, 0, 0)
  end.

Definition keyLt (a b : Z * Z * Z) : Prop :=
  a.1.1 < b.1.1
  \/ (a.1.1 = b.1.1 /\ (a.1.2 < b.1.2 \/ (a.1.2 = b.1.2 /\ a.2 < b.2))).

(** A binary64 value that is a zero (of either sign) or NaN. *)
Definition zeroOrNaN (f : float) : Prop :=
  Prim2SF f = S754_nan \/ exists s, Prim2SF f = S754_zero s.

(** ** Segments in exact arithmetic *)

(** The point [p + t (q - p)] of the line through [p] and [q] (x and y). *)
Definition along (p q : Vector3.t Q) (t : Q) : Q * Q :=
  ((Vector3.x p + t * (Vector3.x q - Vector3.x p))%Q,
   (Vector3.y p + t * (Vector3.y q - Vector3.y p))%Q).

Definition inTolerance (t : Q) : Prop := (5 # 100 < t)%Q /\ (t < 95 # 100)%Q.

(** ** Generated levels *)

(** The ropes of the mandatory ring of [n] nodes, as the first loop pushes
    them. *)
Definition ringList (n : Z) : list Rope.t :=
  (fun i => Rope.mk (ropeId (Z.to_nat i)) (pointId i) (pointId (Z.rem (i + 1) n))
              "#ffffff") <$> seqZ 0 n.

(** The ids of the ropes are [r0], [r1], ... in the order of the array,
    and every rope has the colour [#ffffff]. *)
Definition idsInv (ropes : list Rope.t) : Prop :=
  Rope.id <$> ropes = ropeId <$> seq 0 (length ropes)
  /\ Forall (fun r => Rope.color r = "#ffffff") ropes.

(** The position of a point, and what the scramble and the noise leave
    alone. *)
Definition posOf (p : Point.t float) : float * float := (Point.x p, Point.y p).
Definition attrOf (p : Point.t float) : string * float * string :=
  (Point.id p, Point.z p, Point.color p).

(** The checks of the difficulty curve at one level index. *)
Definition chordAttemptsOk (lvl : Z) : bool :=
  (1 <=? extraRopes lvl) && (extraRopes lvl <=? pointCount lvl)
  && (extraRopes lvl <=? extraRopes (lvl + 1)).

(** ** The application *)

(** The stored progress is absent, or an integer that is at least 1 (the
    application itself only stores [currentLevel + 1]). *)
Definition savedOk (saved : option App.Num) : Prop :=
  match saved with
  | None => True
  | Some (App.Int v) => 1 <= v
  | Some App.NaN => False
  end.

(** The closure [cl] was made in a render with a level from 1 to 100 and
    an unlocked level of at least [lo]. *)
Definition closureOk (lo : Z) (cl : App.Closure) : Prop :=
  exists c u, App.closedLevel cl = App.Int c /\ App.closedUnlocked cl = App.Int u
              /\ 1 <= c <= 100 /\ lo <= u.

(** What holds of every state of a session that loaded the unlocked level
    [lo]. *)
Definition appInv (lo : Z) (st : App.t) : Prop :=
  exists c u,
    App.currentLevel st = App.Int c /\ App.unlockedLevel st = App.Int u
    /\ 1 <= c <= 100 /\ 1 <= u /\ lo <= u
    /\ App.unlockedLevel st = default (App.Int 1) (App.storage st)
    /\ match App.scene st with
       | Some sc => App.showMenu st = false
                    /\ App.closedLevel (App.onComplete sc) = App.Int c
                    /\ closureOk lo (App.onComplete sc)
       | None => App.showMenu st = true
       end
    /\ Forall (closureOk lo) (App.timers st).

(** The unlocked level that [mount] loads. *)
Definition loaded (saved : option App.Num) : Z :=
  match saved with Some (App.Int v) => v | _ => 1 end.

(** ** Concrete sessions *)

(** A drag of the third pin of the square, grabbed at (10, 10) and moved
    to (-5, -5), where the diagonals no longer cross. *)
Definition untangleDrag : list (PointerEvent float) :=
  [PointerDown (Some "p2") (Some (Vector3.mk 10 10 0)%float);
   PointerMove (Some (Vector3.mk (-5) (-5) 0)%float)].

(** A point of the drag plane far outside the board. *)
Definition farAway : Vector3.t float := Vector3.mk 100%float (-100)%float 3%float.

(** A session of the application that starts with level 5 unlocked:
    level 1 is played and won; before its timeout fires, level 5 is
    started from the menu; the timeout then opens the win dialog over
    level 5, and NEXT LEVEL starts level 6. *)
Definition staleWin : list App.Event :=
  [App.LevelButton 0; App.SceneRelease true; App.HudMenu; App.PlayNow;
   App.TimerFires; App.NextLevel].

(** The session goes on: level 6 is won, level 5 is started from the
    menu and won as well before the timeout of level 6 fires; then the
    two timeouts fire. *)
Definition staleUnlock : list App.Event :=
  staleWin ++ [App.SceneRelease true; App.HudMenu; App.LevelButton 4;
               App.SceneRelease true; App.TimerFires].

(** A drag of the third pin of the square, grabbed where it stands at
    (-5, -5) and moved to (8, 8), where the diagonals cross. *)
Definition tangleDrag : list (PointerEvent float) :=
  [PointerDown (Some "p2") (Some (Vector3.mk (-5) (-5) 0)%float);
   PointerMove (Some (Vector3.mk 8 8 0)%float)].

(** The level [generateLevel] returns for the index -100 and draws of 0.5:
    no point, and one rope between ids that no point has. *)
Definition danglingLevel : LevelData.t float :=
  LevelData.mk [] [Rope.mk "r0" "p-3" "p-2" "#ffffff"].

(** Two pins are pressed one after the other (two fingers) before the
    first release. *)
Definition twoGrabs (a b : string) (q1 q2 : option (Vector3.t float))
  : list (PointerEvent float) :=
  [PointerDown (Some a) q1; PointerDown (Some b) q2; PointerUp].

(** A press on the pin [a] at the plane point [q], followed by a move of
    the pointer to [q']. *)
Definition dragTo (a : string) (q q' : Vector3.t Q) : list (PointerEvent Q) :=
  [PointerDown (Some a) (Some q); PointerMove (Some q')].

(** A state in exact arithmetic: one pin at (1, 2, 0) and no rope. *)
Definition onePinQ : State Q :=
  mkState None (Vector3.mk 0 0 0)%Q (Vector3.mk 0 0 0)%Q
    (<[ "p0" := Pin.mk (Vector3.mk 1 2 0)%Q false ]> ∅) [] None false true 0%nat 0%nat.

(* ------------------------------------------------------------------ *)
(** * Binary64 rounding: a draw in [0, 1) scaled by a constant

    The generator turns a draw [r] of [Math.random()] into an index with
    [Math.floor(r * c)]. The product is rounded, so that the index stays
    below [c] needs an argument: it is derived here from the specification
    of the binary64 product ([mul_spec], [SFmul]). *)
Lemma digits2_pos_bounds (p : positive) :
  2 ^ (Zpos (digits2_pos p) - 1) <= Zpos p < 2 ^ Zpos (digits2_pos p).
Proof.
  induction p as [p IH | p IH |]; cbn [digits2_pos].
  - rewrite Pos2Z.inj_succ.
    replace (Z.succ (Zpos (digits2_pos p)) - 1) with (Z.succ (Zpos (digits2_pos p) - 1)) by lia.
    rewrite !Z.pow_succ_r by lia. lia.
  - rewrite Pos2Z.inj_succ.
    replace (Z.succ (Zpos (digits2_pos p)) - 1) with (Z.succ (Zpos (digits2_pos p) - 1)) by lia.
    rewrite !Z.pow_succ_r by lia. lia.
  - cbn. lia.
Qed.

Lemma iter_pos_nat {A} (f : A -> A) (p : positive) (x : A) :
  SpecFloat.iter_pos f p x = Nat.iter (Pos.to_nat p) f x.
Proof.
  revert x. induction p as [p IH | p IH |]; intros x; cbn [SpecFloat.iter_pos].
  - rewrite !IH, Pos2Nat.inj_xI.
    replace (S (2 * Pos.to_nat p)) with (Pos.to_nat p + (Pos.to_nat p + 1))%nat by lia.
    rewrite !Nat.iter_add. reflexivity.
  - rewrite !IH, Pos2Nat.inj_xO.
    replace (2 * Pos.to_nat p)%nat with (Pos.to_nat p + Pos.to_nat p)%nat by lia.
    rewrite Nat.iter_add. reflexivity.
  - reflexivity.
Qed.

Lemma shr_1_m (mrs : shr_record) :
  0 <= shr_m mrs ->
  shr_m (shr_1 mrs) = shr_m mrs / 2 /\ shr_r (shr_1 mrs) = Z.odd (shr_m mrs).
Proof.
  destruct mrs as [m r s]; cbn [shr_m]. intros Hm.
  destruct m as [| [p | p |] | p]; cbn [shr_1 shr_m shr_r]; try lia; split; try reflexivity.
  - rewrite Pos2Z.inj_xI. apply Z.div_unique with 1; lia.
  - rewrite Pos2Z.inj_xO. apply Z.div_unique with 0; lia.
Qed.

Lemma shr_iter (m : Z) (k : nat) :
  0 <= m ->
  let mrs := Nat.iter k shr_1 (Build_shr_record m false false) in
  shr_m mrs = m / 2 ^ Z.of_nat k /\
  (shr_r mrs = true -> 2 ^ Z.of_nat k <= 2 * (m mod 2 ^ Z.of_nat k)).
Proof.
  intros Hm. induction k as [| k IH].
  - cbn. rewrite Z.div_1_r. split; [reflexivity | discriminate].
  - cbn zeta in *. rewrite Nat.iter_succ. destruct IH as [IHm IHr].
    set (mrs := Nat.iter k shr_1 _) in *.
    assert (Hq : 0 <= shr_m mrs) by (rewrite IHm; apply Z.div_pos; lia).
    destruct (shr_1_m mrs Hq) as [E1 E2].
    rewrite Nat2Z.inj_succ, Z.pow_succ_r by lia.
    split.
    + rewrite E1, IHm, Z.div_div by lia. f_equal. lia.
    + rewrite E2, IHm. intros Hodd.
      pose proof (Z.pow_pos_nonneg 2 (Z.of_nat k) ltac:(lia) ltac:(lia)) as Hp.
      rewrite Z.mul_comm, Z.rem_mul_r by lia.
      pose proof (Z.mod_pos_bound m (2 ^ Z.of_nat k) Hp).
      rewrite Zmod_odd, Hodd. lia.
Qed.

Lemma shr_spec (m e n : Z) :
  0 <= m ->
  let '(mrs, e') := shr (Build_shr_record m false false) e n in
  let m1 := round_nearest_even (shr_m mrs) (loc_of_shr_record mrs) in
  e' = e + Z.max n 0 /\ shr_m mrs = m / 2 ^ Z.max n 0 /\
  shr_m mrs <= m1 /\ m1 * 2 ^ Z.max n 0 <= m + 2 ^ Z.max n 0 / 2.
Proof.
  intros Hm. destruct n as [| p | p]; cbn [shr].
  1,3: cbn [shr_m loc_of_shr_record round_nearest_even];
       (replace (Z.max _ 0) with 0 by lia);
       change (2 ^ 0) with 1; change (1 / 2) with 0; rewrite Z.div_1_r; lia.
  rewrite iter_pos_nat.
  destruct (shr_iter m (Pos.to_nat p) Hm) as [Eq Er].
  rewrite positive_nat_Z in Eq, Er.
  replace (Z.max (Zpos p) 0) with (Zpos p) by lia.
  set (mrs := Nat.iter _ _ _) in *.
  pose proof (Z.pow_pos_nonneg 2 (Zpos p) ltac:(lia) ltac:(lia)) as Hp.
  pose proof (Z.mod_pos_bound m (2 ^ Zpos p) Hp) as Hmod.
  pose proof (Z.div_mod m (2 ^ Zpos p) ltac:(lia)) as Hdm.
  assert (Hhalf : 2 * (2 ^ Zpos p / 2) = 2 ^ Zpos p).
  { replace (Zpos p) with (Z.succ (Zpos p - 1)) by lia.
    rewrite Z.pow_succ_r by lia.
    replace (2 * 2 ^ (Zpos p - 1) / 2) with (2 ^ (Zpos p - 1)); [lia |].
    symmetry. rewrite Z.mul_comm. apply Z.div_mul. lia. }
  split; [reflexivity | split; [exact Eq |]].
  destruct mrs as [q r s]; cbn [shr_m shr_r] in *. subst q.
  set (q := m / 2 ^ Zpos p) in *.
  assert (Hb : q <= round_nearest_even q (loc_of_shr_record (Build_shr_record q r s))
               <= q + (if r then 1 else 0)).
  { destruct r, s; cbn; try lia; destruct (Z.even q); lia. }
  set (m1 := round_nearest_even _ _) in *.
  destruct Hb as [Hge Hle]. split; [exact Hge |].
  apply (Z.mul_le_mono_nonneg_r _ _ (2 ^ Zpos p)) in Hle; [| lia].
  destruct r; [specialize (Er eq_refl) |]; lia.
Qed.

Lemma pow2_lt_inv (a b : Z) : 0 <= b -> 2 ^ a < 2 ^ b -> a < b.
Proof.
  intros Hb H. destruct (Z_lt_le_dec a b) as [|Hle]; [assumption | exfalso].
  pose proof (Z.pow_le_mono_r 2 b a ltac:(lia) Hle). lia.
Qed.

Lemma pow2_pos (a : Z) : 0 <= a -> 0 < 2 ^ a.
Proof. intros. apply Z.pow_pos_nonneg; lia. Qed.

Lemma fexp64_eq (e : Z) : fexp prec emax e = Z.max (e - 53) (-1074).
Proof. reflexivity. Qed.

Lemma Zdigits2_bounds (m : Z) :
  0 < m -> 1 <= Zdigits2 m /\ 2 ^ (Zdigits2 m - 1) <= m < 2 ^ Zdigits2 m.
Proof.
  destruct m as [| p | p]; try lia. intros _. cbn [Zdigits2].
  split; [lia | apply digits2_pos_bounds].
Qed.

Lemma round_mul_lt (mr mc : positive) (er ec : Z) :
  -1074 <= er -> Zpos mr < 2 ^ (- er) -> Zpos (digits2_pos mr) <= 53 ->
  Zpos (digits2_pos mc) = 53 -> -52 <= ec <= 971 ->
  match binary_round_aux prec emax false (Zpos (mr * mc)) (er + ec) loc_Exact with
  | S754_zero _ => True
  | S754_finite false m e =>
      er + ec <= e /\ Zpos m * 2 ^ (e - (er + ec)) < Zpos mc * 2 ^ (- er)
  | _ => False
  end.
Proof.
  intros Her Hlt Hdr Hdc Hec.
  pose proof (digits2_pos_bounds mr) as Br.
  pose proof (digits2_pos_bounds mc) as Bc. rewrite Hdc in Bc.
  change (2 ^ (53 - 1)) with 4503599627370496 in Bc.
  change (2 ^ 53) with 9007199254740992 in Bc.
  set (dr := Zpos (digits2_pos mr)) in *.
  assert (Hdr1 : 1 <= dr) by (subst dr; lia).
  assert (Her0 : er < 0).
  { destruct (Z_lt_le_dec er 0) as [|Hge]; [assumption | exfalso].
    destruct (Z.eq_dec er 0) as [-> | Hne]; [cbn in Hlt; lia |].
    rewrite Z.pow_neg_r in Hlt by lia. lia. }
  assert (Hdre : dr <= - er).
  { assert (dr - 1 < - er); [| lia]. apply pow2_lt_inv; lia. }
  set (m := Zpos (mr * mc)).
  assert (Em : m = Zpos mr * Zpos mc) by (subst m; apply Pos2Z.inj_mul).
  assert (Hm : 0 < m) by (subst m; lia).
  destruct (Zdigits2_bounds m Hm) as [Hd1 Bd].
  set (d := Zdigits2 m) in *.
  set (ex := er + ec) in *.
  assert (Hdub : d <= dr + 53).
  { assert (d - 1 < dr + 53); [| lia]. apply pow2_lt_inv; [lia |].
    rewrite Z.pow_add_r by lia. change (2 ^ 53) with 9007199254740992. nia. }
  assert (Hdlb : dr + 52 <= d).
  { assert (dr - 1 + 52 < d); [| lia]. apply pow2_lt_inv; [lia |].
    rewrite Z.pow_add_r by lia. change (2 ^ 52) with 4503599627370496. nia. }
  unfold binary_round_aux, shr_fexp. cbn [shr_record_of_loc].
  fold m ex d. rewrite fexp64_eq.
  set (n := Z.max (d + ex - 53) (-1074) - ex).
  pose proof (shr_spec m ex n ltac:(lia)) as S1.
  destruct (shr (Build_shr_record m false false) ex n) as [mrs' e'].
  cbn zeta in S1. destruct S1 as (Ee' & Eq & Hge1 & Hle1).
  set (m1 := round_nearest_even (shr_m mrs') (loc_of_shr_record mrs')) in *.
  set (N := Z.max n 0) in *.
  assert (HN0 : 0 <= N) by (subst N; lia).
  assert (HN53 : N <= 53) by (subst N n ex; lia).
  pose proof (pow2_pos N HN0) as HpN.
  assert (Hq0 : 0 <= shr_m mrs') by (rewrite Eq; apply Z.div_pos; lia).
  (* the rounding error is below one unit of the constant's mantissa *)
  assert (Hhalf : 2 ^ N / 2 < Zpos mc).
  { destruct (Z_le_gt_dec N 52) as [Hs | Hs].
    - pose proof (Z.pow_le_mono_r 2 N 52 ltac:(lia) Hs) as Hp.
      change (2 ^ 52) with 4503599627370496 in Hp.
      pose proof (Z.div_lt (2 ^ N) 2 HpN ltac:(lia)). lia.
    - assert (EN : N = 53) by lia.
      assert (d = 106) by (subst N n ex; lia).
      rewrite EN. change (2 ^ 53 / 2) with 4503599627370496.
      assert (Zpos mc <> 4503599627370496); [| lia].
      intros Emc. destruct Bd as [Bd _]. replace (d - 1) with 105 in Bd by lia.
      assert (dr = 53) by lia.
      assert (Zpos mr < 2 ^ 53) by (replace 53 with dr by lia; apply Br).
      change (2 ^ 53) with 9007199254740992 in *.
      change (2 ^ 105) with 40564819207303340847894502572032 in Bd. nia. }
  assert (Hval : m1 * 2 ^ N < Zpos mc * 2 ^ (- er)).
  { assert (Zpos mr + 1 <= 2 ^ (- er)) as Hs by lia.
    apply (Z.mul_le_mono_nonneg_l _ _ (Zpos mc)) in Hs; lia. }
  assert (He'c : e' <= ec).
  { subst e' N n ex. lia. }
  assert (He'min : -1074 <= e') by (subst e' N n; lia).
  pose proof (shr_spec m1 e' (Z.max (Zdigits2 m1 + e' - 53) (-1074) - e') ltac:(lia)) as S2.
  rewrite fexp64_eq.
  set (n2 := Z.max (Zdigits2 m1 + e' - 53) (-1074) - e') in *.
  destruct (shr (Build_shr_record m1 false false) e' n2) as [mrs'' e''].
  cbn zeta in S2. destruct S2 as (Ee'' & Eq2 & _ & _).
  set (N2 := Z.max n2 0) in *.
  assert (HN20 : 0 <= N2) by (subst N2; lia).
  pose proof (pow2_pos N2 HN20) as HpN2.
  assert (Hm1 : 0 <= m1) by lia.
  pose proof (Z.mul_div_le m1 (2 ^ N2) HpN2) as Hfloor.
  rewrite <- Eq2 in Hfloor.
  assert (Hq2 : 0 <= shr_m mrs'') by (rewrite Eq2; apply Z.div_pos; lia).
  destruct (shr_m mrs'') as [| m'' | m''] eqn:Em''; [exact I | | lia].
  assert (Hvalfin : Zpos m'' * 2 ^ (e'' - ex) < Zpos mc * 2 ^ (- er)).
  { replace (e'' - ex) with (N2 + N) by lia.
    rewrite Z.pow_add_r by lia.
    assert (Zpos m'' * 2 ^ N2 * 2 ^ N <= m1 * 2 ^ N); [| lia].
    apply Z.mul_le_mono_nonneg_r; lia. }
  assert (He''c : e'' <= ec).
  { destruct (Z.eq_dec N2 0) as [E0 | Hne]; [lia |].
    assert (Hm1pos : 0 < m1).
    { destruct (Z.eq_dec m1 0) as [E0 |]; [| lia].
      rewrite E0 in Eq2. rewrite Z.div_0_l in Eq2 by lia. lia. }
    destruct (Zdigits2_bounds m1 Hm1pos) as [_ [B1 _]].
    assert (Hd1' : Zdigits2 m1 = 53 + N2) by (subst N2 n2; lia).
    rewrite Hd1' in B1.
    assert (2 ^ (52 + N2 + N) < 2 ^ (53 - er)); [| 
      assert (52 + N2 + N < 53 - er) by (apply pow2_lt_inv; [lia | assumption]); lia].
    replace (53 + N2 - 1) with (52 + N2) in B1 by lia.
    rewrite (Z.pow_add_r 2 (52 + N2) N) by lia.
    replace (53 - er) with (53 + - er) by lia.
    rewrite (Z.pow_add_r 2 53 (- er)) by lia.
    change (2 ^ 53) with 9007199254740992.
    pose proof (pow2_pos (- er) ltac:(lia)).
    apply (Z.mul_le_mono_nonneg_r _ _ (2 ^ N)) in B1; [| lia]. nia. }
  replace (e'' <=? emax - prec) with true
    by (symmetry; apply Z.leb_le; change (emax - prec) with 971; lia).
  split; [lia | exact Hvalfin].
Qed.

Lemma Prim2SF_zero : Prim2SF 0 = S754_zero false.
Proof. vm_compute. reflexivity. Qed.

Lemma Prim2SF_one : Prim2SF 1 = S754_finite false 4503599627370496 (-52).
Proof. vm_compute. reflexivity. Qed.

Lemma SFltb_finite_pos (m1 m2 : positive) (e1 e2 : Z) :
  SFltb (S754_finite false m1 e1) (S754_finite false m2 e2) = true ->
  e1 < e2 \/ (e1 = e2 /\ Zpos m1 < Zpos m2).
Proof.
  unfold SFltb, SFcompare. intros H1.
  destruct (Z.compare_spec e1 e2) as [E | Hlt | Hgt]; try discriminate.
  - right. split; [exact E |].
    rewrite Pos.compare_cont_spec in H1. unfold Pos.switch_Eq in H1.
    destruct (Pos.compare_spec m1 m2) as [| Hlt |]; try discriminate.
    apply Pos2Z.pos_lt_pos. exact Hlt.
  - left. exact Hlt.
Qed.

Lemma below_one_finite (m : positive) (e : Z) :
  bounded prec emax m e = true ->
  SFltb (S754_finite false m e) (S754_finite false 4503599627370496 (-52)) = true ->
  -1074 <= e /\ Zpos m < 2 ^ (- e) /\ Zpos (digits2_pos m) <= 53.
Proof.
  unfold bounded, canonical_mantissa.
  rewrite Bool.andb_true_iff, Z.eqb_eq, Z.leb_le, fexp64_eq.
  intros [Hc _] H1.
  pose proof (digits2_pos_bounds m) as Bm.
  assert (Hd : Zpos (digits2_pos m) <= 53) by lia.
  assert (He : -1074 <= e) by lia.
  split; [exact He | split; [| exact Hd]].
  destruct (SFltb_finite_pos _ _ _ _ H1) as [Hlt | [-> Hlt]].
  - destruct Bm as [_ Bm].
    eapply Z.lt_le_trans; [exact Bm |]. apply Z.pow_le_mono_r; lia.
  - replace (2 ^ (- -52)) with 4503599627370496 by (vm_compute; reflexivity).
    exact Hlt.
Qed.

Lemma in_unit_spec (r : float) :
  in_unit r = true ->
  (exists s, Prim2SF r = S754_zero s) \/
  (exists m e, Prim2SF r = S754_finite false m e /\
     -1074 <= e /\ Zpos m < 2 ^ (- e) /\ Zpos (digits2_pos m) <= 53).
Proof.
  unfold in_unit. rewrite Bool.andb_true_iff, leb_spec, ltb_spec.
  rewrite Prim2SF_zero, Prim2SF_one.
  pose proof (Prim2SF_valid r) as Hv.
  destruct (Prim2SF r) as [s | s | | s m e]; intros [H0 H1].
  - left. exists s. reflexivity.
  - destruct s; discriminate.
  - discriminate.
  - right. destruct s; [discriminate |]. exists m, e. split; [reflexivity |].
    apply below_one_finite; assumption.
Qed.

Lemma random_scale_bound (r c : float) (K : Z) :
  in_unit r = true -> scale_ok c K = true ->
  0 <= Math_floor (r * c) < K.
Proof.
  intros Hr Hc. unfold scale_ok in Hc. unfold Math_floor.
  rewrite mul_spec. unfold SF64mul.
  destruct (Prim2SF c) as [| | | [|] mc ec]; try discriminate.
  rewrite !Bool.andb_true_iff, Z.eqb_eq, !Z.leb_le in Hc.
  destruct Hc as [[[Hdc Hec1] Hec2] HK].
  pose proof (pow2_pos (- ec) ltac:(lia)) as Hpc.
  assert (HK0 : 0 < K) by nia.
  destruct (in_unit_spec r Hr) as [[s ->] | (m & e & -> & He & Hm & Hd)].
  - cbn. lia.
  - cbn [SFmul xorb].
    pose proof (round_mul_lt m mc e ec He Hm Hd Hdc ltac:(lia)) as Hround.
    destruct (binary_round_aux prec emax false (Zpos (m * mc)) (e + ec) loc_Exact)
      as [s | s | | [|] m' e']; try contradiction; [lia |].
    destruct Hround as [Hee Hval].
    assert (He0 : e < 0).
    { destruct (Z_lt_le_dec e 0) as [|Hge]; [assumption | exfalso].
      destruct (Z.eq_dec e 0) as [-> | Hne]; [cbn in Hm; lia |].
      rewrite Z.pow_neg_r in Hm by lia. lia. }
    pose proof (pow2_pos (- e) ltac:(lia)) as Hpe.
    assert (Hval' : Zpos m' * 2 ^ (e' - (e + ec)) < K * 2 ^ (- (e + ec))).
    { replace (- (e + ec)) with (- ec + - e) by lia.
      rewrite Z.pow_add_r by lia.
      apply (Z.mul_le_mono_nonneg_r _ _ (2 ^ (- e))) in HK; lia. }
    destruct (Z.leb_spec 0 e') as [Hpos | Hneg].
    + pose proof (pow2_pos e' Hpos) as Hpe'.
      split; [lia |].
      replace (e' - (e + ec)) with (e' + - (e + ec)) in Hval' by lia.
      rewrite Z.pow_add_r in Hval' by lia.
      pose proof (pow2_pos (- (e + ec)) ltac:(lia)). nia.
    + pose proof (pow2_pos (- e') ltac:(lia)) as Hpe'.
      split; [apply Z.div_pos; lia |].
      apply Z.div_lt_upper_bound; [lia |].
      replace (- (e + ec)) with (- e' + (e' - (e + ec))) in Hval' by lia.
      rewrite Z.pow_add_r in Hval' by lia.
      pose proof (pow2_pos (e' - (e + ec)) ltac:(lia)). nia.
Qed.


(* ------------------------------------------------------------------ *)
(** * The intersection test *)

Lemma one_minus_eps : (of_Z 1 - 0.05)%float = 0.95%float.
Proof. vm_compute. reflexivity. Qed.

Lemma doIntersect_unfold (a b c d : Vector3.t float) :
  doIntersect a b c d =
    if (abs (det a b c d) <? 0.001)%float then false
    else inOpenInterval (lambda a b c d) && inOpenInterval (gamma a b c d).
Proof.
  unfold doIntersect, inOpenInterval.
  cbn [n_ltb n_abs n_0_001 n_0_05 n_sub n_of_Z binary64].
  rewrite one_minus_eps. reflexivity.
Qed.

(** In exact arithmetic and with a determinant that is not zero, [lambda]
    and [gamma] are the one solution of a + l (b - a) = d + g (c - d). *)
Lemma crossing_parameters_unique (a b c d : Vector3.t Q) (l g : Q) :
  ~ (det a b c d == 0)%Q ->
  (((along a b l).1 == (along d c g).1)%Q /\ ((along a b l).2 == (along d c g).2)%Q)
  <-> ((l == lambda a b c d)%Q /\ (g == gamma a b c d)%Q).
Proof.
  destruct a as [ax ay az], b as [bx b_y bz], c as [cx cy cz], d as [dx dy dz].
  unfold lambda, gamma, det, along.
  cbn [n_sub n_add n_mul n_div exactQ Vector3.x Vector3.y Vector3.z fst snd].
  set (D := ((bx - ax) * (dy - cy) - (b_y - ay) * (dx - cx))%Q).
  set (NL := ((dy - cy) * (dx - ax) + (cx - dx) * (dy - ay))%Q).
  set (NG := ((ay - b_y) * (dx - ax) + (bx - ax) * (dy - ay))%Q).
  intros HD. split.
  - intros [Ex Ey]. split.
    + assert (E : (l * D == NL)%Q).
      { assert (E1 : (l * (bx - ax) == (dx - ax) - g * (dx - cx))%Q) by lra.
        assert (E2 : (l * (b_y - ay) == (dy - ay) - g * (dy - cy))%Q) by lra.
        transitivity ((l * (bx - ax)) * (dy - cy) - (l * (b_y - ay)) * (dx - cx))%Q;
          [subst D; ring |].
        rewrite E1, E2. subst NL. ring. }
      rewrite <- E. field. exact HD.
    + assert (E : (g * D == NG)%Q).
      { assert (E1 : (g * (dx - cx) == (dx - ax) - l * (bx - ax))%Q) by lra.
        assert (E2 : (g * (dy - cy) == (dy - ay) - l * (b_y - ay))%Q) by lra.
        transitivity ((bx - ax) * (g * (dy - cy)) - (b_y - ay) * (g * (dx - cx)))%Q;
          [subst D; ring |].
        rewrite E1, E2. subst NG. ring. }
      rewrite <- E. field. exact HD.
  - intros [-> ->]. split; subst NL NG D; field; exact HD.
Qed.

(** C2. In binary64, with
      det    = (b.x-a.x)(d.y-c.y) - (b.y-a.y)(d.x-c.x),
      lambda = ((d.y-c.y)(d.x-a.x) + (c.x-d.x)(d.y-a.y)) / det,
      gamma  = ((a.y-b.y)(d.x-a.x) + (b.x-a.x)(d.y-a.y)) / det,
    [doIntersect] reports no intersection whenever |det| < 0.001;
    otherwise it reports a crossing exactly when lambda and gamma both lie
    strictly inside (0.05, 0.95) (the bound [1 - eps] of the code is the
    number 0.95). The function is total: a near-zero determinant, and a
    determinant that is NaN, give [false], never an error. The two
    parameters are the solved ones: in exact arithmetic and for a
    determinant that is not zero, they are the one solution of
    a + lambda (b - a) = d + gamma (c - d) (x and y). *)
Theorem doIntersect_thresholds (a b c d : Vector3.t float) :
  let det' :=
    ((Vector3.x b - Vector3.x a) * (Vector3.y d - Vector3.y c)
     - (Vector3.y b - Vector3.y a) * (Vector3.x d - Vector3.x c))%float in
  let lambda' :=
    (((Vector3.y d - Vector3.y c) * (Vector3.x d - Vector3.x a)
      + (Vector3.x c - Vector3.x d) * (Vector3.y d - Vector3.y a)) / det')%float in
  let gamma' :=
    (((Vector3.y a - Vector3.y b) * (Vector3.x d - Vector3.x a)
      + (Vector3.x b - Vector3.x a) * (Vector3.y d - Vector3.y a)) / det')%float in
  (det a b c d = det' /\ lambda a b c d = lambda' /\ gamma a b c d = gamma')
  /\ ((abs det' <? 0.001)%float = true -> doIntersect a b c d = false)
  /\ ((abs det' <? 0.001)%float = false ->
      (doIntersect a b c d = true <->
       ((0.05 <? lambda')%float = true /\ (lambda' <? 0.95)%float = true)
       /\ ((0.05 <? gamma')%float = true /\ (gamma' <? 0.95)%float = true)))
  /\ (forall (p q r s : Vector3.t Q) (l g : Q),
        ~ (det p q r s == 0)%Q ->
        (((along p q l).1 == (along s r g).1)%Q
         /\ ((along p q l).2 == (along s r g).2)%Q)
        <-> ((l == lambda p q r s)%Q /\ (g == gamma p q r s)%Q)).
Proof.
  cbn zeta. split; [repeat split |].
  rewrite doIntersect_unfold. unfold lambda, gamma, det.
  cbn [n_sub n_add n_mul n_div binary64].
  split; [| split].
  - intros ->. reflexivity.
  - intros ->. unfold inOpenInterval. rewrite !andb_true_iff. reflexivity.
  - intros p q r s l g. apply crossing_parameters_unique.
Qed.

(** C10, as stated, fails in binary64: for the segments (0,0)-(1,0) and
    (0.05000000000000002,-1)-(0.05000000000000002,1) the crossing
    parameter along the first segment is 0.05000000000000002 > 0.05, while
    in the swapped call it is computed as 1 - 0.05000000000000002, which
    rounds to 0.95 and is not below 0.95. *)
Lemma doIntersect_not_symmetric_binary64 :
  doIntersect segA segB segC segD = true /\ doIntersect segC segD segA segB = false.
Proof. split; vm_compute; reflexivity. Qed.

Lemma Qltb_lt (a b : Q) : Qltb a b = true <-> (a < b)%Q.
Proof.
  unfold Qltb. rewrite negb_true_iff, <- not_true_iff_false, Qle_bool_iff.
  split; [apply Qnot_le_lt | apply Qlt_not_le].
Qed.

Lemma Qltb_compat (a a' b b' : Q) :
  (a == a')%Q -> (b == b')%Q -> Qltb a b = Qltb a' b'.
Proof.
  intros Ea Eb. apply eq_true_iff_eq. rewrite !Qltb_lt, Ea, Eb. reflexivity.
Qed.

(** C10 (amended). Evaluated in exact rational arithmetic, the test is
    symmetric in its two segments: the determinant changes sign, and the
    parameters of the swapped call are [1 - gamma] and [1 - lambda]. *)
Theorem doIntersect_symmetric_exact (a b c d : Vector3.t Q) :
  doIntersect a b c d = doIntersect c d a b.
Proof.
  destruct a as [ax ay az], b as [bx b_y bz], c as [cx cy cz], d as [dx dy dz].
  unfold doIntersect, lambda, gamma, det.
  cbn [n_ltb n_abs n_0_001 n_0_05 n_sub n_add n_mul n_div n_of_Z exactQ
       Vector3.x Vector3.y Vector3.z].
  set (D := ((bx - ax) * (dy - cy) - (b_y - ay) * (dx - cx))%Q).
  set (D' := ((dx - cx) * (b_y - ay) - (dy - cy) * (bx - ax))%Q).
  assert (ED : (D' == - D)%Q) by (subst D D'; ring).
  rewrite (Qltb_compat (Qabs D') (Qabs D) (1 # 1000) (1 # 1000))
    by (rewrite ?ED, ?Qabs_opp; reflexivity).
  destruct (Qltb (Qabs D) (1 # 1000)) eqn:Hguard; [reflexivity |].
  assert (HD : ~ (D == 0)%Q).
  { intros E0.
    rewrite (Qltb_compat (Qabs D) 0 (1 # 1000) (1 # 1000)) in Hguard;
      [discriminate | rewrite E0; reflexivity | reflexivity]. }
  assert (HD' : ~ (D' == 0)%Q) by (rewrite ED; lra).
  set (L := (((dy - cy) * (dx - ax) + (cx - dx) * (dy - ay)) / D)%Q).
  set (G := (((ay - b_y) * (dx - ax) + (bx - ax) * (dy - ay)) / D)%Q).
  set (L' := (((b_y - ay) * (bx - cx) + (ax - bx) * (b_y - cy)) / D')%Q).
  set (G' := (((cy - dy) * (bx - cx) + (dx - cx) * (b_y - cy)) / D')%Q).
  assert (EL : (L' == 1 - G)%Q) by (subst L' G D D'; field; split; assumption).
  assert (EG : (G' == 1 - L)%Q) by (subst G' L D D'; field; split; assumption).
  apply eq_true_iff_eq. rewrite !andb_true_iff, !Qltb_lt.
  change (inject_Z 1) with 1%Q. rewrite EL, EG. lra.
Qed.

(* ------------------------------------------------------------------ *)
(** * The double loop of checkIntersections *)

Lemma map_set_keys {V : Type} (m : list (string * V)) (k : string) (v v' : V) :
  map_get m k = Some v -> map_keys (map_set m k v') = map_keys m.
Proof.
  unfold map_keys. induction m as [| [k0 v0] m IH]; cbn [map_get map_set].
  - discriminate.
  - destruct (String.eqb k0 k) eqn:E.
    + apply String.eqb_eq in E. subst k0. reflexivity.
    + intros Hg. cbn [fmap list_fmap fst]. f_equal. apply IH, Hg.
Qed.

Section EngineFacts.
Context {T : Type} {num : JsNumber T}.

Lemma pairStep_elem (s : State T) (k1 k2 k : string) (acc : gset string) :
  k ∈ pairStep s k1 k2 acc <->
  k ∈ acc \/ (crossingTest s k1 k2 = Some true /\ (k = k1 \/ k = k2)).
Proof.
  unfold pairStep. destruct (crossingTest s k1 k2) as [[|]|].
  - rewrite !elem_of_union, !elem_of_singleton. intuition congruence.
  - intuition congruence.
  - intuition congruence.
Qed.

Lemma innerLoop_elem (s : State T) (k1 k : string) (rest : list string)
    (acc : gset string) :
  k ∈ innerLoop s k1 rest acc <->
  k ∈ acc \/ exists (j : nat) (k2 : string),
               rest !! j = Some k2 /\ crossingTest s k1 k2 = Some true
               /\ (k = k1 \/ k = k2).
Proof.
  unfold innerLoop. revert acc.
  induction rest as [| k2 rest IH]; intros acc; cbn [foldl].
  - split; [auto | intros [? | (j & ? & Hj & _)]; [assumption | discriminate Hj]].
  - rewrite IH, pairStep_elem. split.
    + intros [[? | [Ht Hk]] | (j & k2' & Hj & Ht & Hk)].
      * left; assumption.
      * right. exists 0%nat, k2. auto.
      * right. exists (S j), k2'. auto.
    + intros [? | (j & k2' & Hj & Ht & Hk)]; [auto |].
      destruct j as [| j]; cbn in Hj.
      * injection Hj as <-. auto.
      * right. exists j, k2'. auto.
Qed.

Lemma outerLoop_elem (s : State T) (k : string) (keys : list string)
    (acc : gset string) :
  k ∈ outerLoop s keys acc <->
  k ∈ acc \/ exists (i j : nat) (k1 k2 : string),
               (i < j)%nat /\ keys !! i = Some k1 /\ keys !! j = Some k2
               /\ crossingTest s k1 k2 = Some true /\ (k = k1 \/ k = k2).
Proof.
  revert acc. induction keys as [| k1 rest IH]; intros acc; cbn [outerLoop].
  - split; [auto | intros [? | (i & j & ? & ? & _ & Hi & _)];
                     [assumption | discriminate Hi]].
  - rewrite IH, innerLoop_elem. split.
    + intros [[? | (j & k2 & Hj & Ht & Hk)]
             | (i & j & a & b & Hij & Hi & Hj & Ht & Hk)].
      * left; assumption.
      * right. exists 0%nat, (S j), k1, k2. repeat split; auto with lia.
      * right. exists (S i), (S j), a, b. repeat split; auto with lia.
    + intros [? | (i & j & a & b & Hij & Hi & Hj & Ht & Hk)]; [auto |].
      destruct j as [| j]; [lia |]. cbn in Hj.
      destruct i as [| i]; cbn in Hi.
      * injection Hi as <-. left. right. exists j, b. auto.
      * right. exists i, j, a, b. repeat split; auto with lia.
Qed.

(** An id is in [tangledIds] exactly when the loop reached the two
    [add] statements for a pair it belongs to. *)
Lemma tangledIds_elem (s : State T) (k : string) :
  k ∈ tangledIds s <->
  exists (i j : nat) (k1 k2 : string),
    (i < j)%nat /\ map_keys (ropes s) !! i = Some k1
    /\ map_keys (ropes s) !! j = Some k2
    /\ crossingTest s k1 k2 = Some true /\ (k = k1 \/ k = k2).
Proof.
  unfold tangledIds. rewrite outerLoop_elem. split.
  - intros [Hk | Hk]; [set_solver | exact Hk].
  - intros Hk. right. exact Hk.
Qed.

Lemma crossingTest_Some (s : State T) (k1 k2 : string) (b : bool) :
  crossingTest s k1 k2 = Some b ->
  exists r1 r2 pin1 pin2 pin3 pin4,
    map_get (ropes s) k1 = Some r1 /\ map_get (ropes s) k2 = Some r2
    /\ sharesEndpoint r1 r2 = false
    /\ pins s !! RopeMesh.p1 r1 = Some pin1 /\ pins s !! RopeMesh.p2 r1 = Some pin2
    /\ pins s !! RopeMesh.p1 r2 = Some pin3 /\ pins s !! RopeMesh.p2 r2 = Some pin4
    /\ b = doIntersect (Pin.position pin1) (Pin.position pin2)
                       (Pin.position pin3) (Pin.position pin4).
Proof.
  unfold crossingTest.
  destruct (map_get (ropes s) k1) as [r1 |]; [| discriminate].
  destruct (map_get (ropes s) k2) as [r2 |]; [| discriminate].
  destruct (sharesEndpoint r1 r2) eqn:Hshare; [discriminate |].
  destruct (pins s !! RopeMesh.p1 r1) as [pin1 |] eqn:E1; [| discriminate].
  destruct (pins s !! RopeMesh.p2 r1) as [pin2 |] eqn:E2; [| discriminate].
  destruct (pins s !! RopeMesh.p1 r2) as [pin3 |] eqn:E3; [| discriminate].
  destruct (pins s !! RopeMesh.p2 r2) as [pin4 |] eqn:E4; [| discriminate].
  intros [= <-]. exists r1, r2, pin1, pin2, pin3, pin4. repeat split; auto.
Qed.

Lemma crossingTest_adjacent (s : State T) (k1 k2 : string) (r1 r2 : RopeMesh.t) :
  map_get (ropes s) k1 = Some r1 -> map_get (ropes s) k2 = Some r2 ->
  sharesEndpoint r1 r2 = true -> crossingTest s k1 k2 = None.
Proof. intros E1 E2 Hs. unfold crossingTest. rewrite E1, E2, Hs. reflexivity. Qed.

Lemma sharesEndpoint_sym (r1 r2 : RopeMesh.t) :
  sharesEndpoint r1 r2 = sharesEndpoint r2 r1.
Proof.
  unfold sharesEndpoint.
  rewrite (String.eqb_sym (RopeMesh.p1 r2) (RopeMesh.p1 r1)),
    (String.eqb_sym (RopeMesh.p1 r2) (RopeMesh.p2 r1)),
    (String.eqb_sym (RopeMesh.p2 r2) (RopeMesh.p1 r1)),
    (String.eqb_sym (RopeMesh.p2 r2) (RopeMesh.p2 r1)).
  destruct (String.eqb (RopeMesh.p1 r1) (RopeMesh.p1 r2)),
    (String.eqb (RopeMesh.p1 r1) (RopeMesh.p2 r2)),
    (String.eqb (RopeMesh.p2 r1) (RopeMesh.p1 r2)),
    (String.eqb (RopeMesh.p2 r1) (RopeMesh.p2 r2)); reflexivity.
Qed.

Lemma doIntersect_xy (a b c d a' b' c' d' : Vector3.t T) :
  Vector3.x a = Vector3.x a' -> Vector3.y a = Vector3.y a' ->
  Vector3.x b = Vector3.x b' -> Vector3.y b = Vector3.y b' ->
  Vector3.x c = Vector3.x c' -> Vector3.y c = Vector3.y c' ->
  Vector3.x d = Vector3.x d' -> Vector3.y d = Vector3.y d' ->
  doIntersect a b c d = doIntersect a' b' c' d'.
Proof.
  intros Hax Hay Hbx Hby Hcx Hcy Hdx Hdy. unfold doIntersect, lambda, gamma, det.
  rewrite Hax, Hay, Hbx, Hby, Hcx, Hcy, Hdx, Hdy. reflexivity.
Qed.

(** C3. Whatever the positions of the pins: (1) for two ropes that share
    an endpoint id the loop body takes [continue] before the crossing
    test, and leaves [tangledIds] as it is; (2) a pair that is tested
    shares no endpoint, and the test is [doIntersect] on the four pin
    positions; (3) every id in [tangledIds] got there with a partner that
    shares no endpoint with it; (4) [doIntersect] reads only the x and y
    coordinates. *)
Theorem adjacent_ropes_never_tangled (s : State T) :
  (forall k1 k2 r1 r2,
      map_get (ropes s) k1 = Some r1 -> map_get (ropes s) k2 = Some r2 ->
      sharesEndpoint r1 r2 = true ->
      crossingTest s k1 k2 = None /\ forall acc, pairStep s k1 k2 acc = acc)
  /\ (forall k1 k2 b,
         crossingTest s k1 k2 = Some b ->
         exists r1 r2 pin1 pin2 pin3 pin4,
           map_get (ropes s) k1 = Some r1 /\ map_get (ropes s) k2 = Some r2
           /\ sharesEndpoint r1 r2 = false
           /\ pins s !! RopeMesh.p1 r1 = Some pin1
           /\ pins s !! RopeMesh.p2 r1 = Some pin2
           /\ pins s !! RopeMesh.p1 r2 = Some pin3
           /\ pins s !! RopeMesh.p2 r2 = Some pin4
           /\ b = doIntersect (Pin.position pin1) (Pin.position pin2)
                              (Pin.position pin3) (Pin.position pin4))
  /\ (forall k, k ∈ tangledIds s ->
         exists k' r r',
           map_get (ropes s) k = Some r /\ map_get (ropes s) k' = Some r'
           /\ sharesEndpoint r r' = false
           /\ (crossingTest s k k' = Some true \/ crossingTest s k' k = Some true))
  /\ (forall a b c d a' b' c' d' : Vector3.t T,
         Vector3.x a = Vector3.x a' -> Vector3.y a = Vector3.y a' ->
         Vector3.x b = Vector3.x b' -> Vector3.y b = Vector3.y b' ->
         Vector3.x c = Vector3.x c' -> Vector3.y c = Vector3.y c' ->
         Vector3.x d = Vector3.x d' -> Vector3.y d = Vector3.y d' ->
         doIntersect a b c d = doIntersect a' b' c' d').
Proof.
  split; [| split; [| split]].
  - intros k1 k2 r1 r2 E1 E2 Hs.
    pose proof (crossingTest_adjacent s k1 k2 r1 r2 E1 E2 Hs) as Hn.
    split; [exact Hn |]. intros acc. unfold pairStep. rewrite Hn. reflexivity.
  - apply crossingTest_Some.
  - intros k Hk. apply tangledIds_elem in Hk.
    destruct Hk as (i & j & k1 & k2 & _ & _ & _ & Ht & Hk).
    destruct (crossingTest_Some s k1 k2 true Ht)
      as (r1 & r2 & _ & _ & _ & _ & E1 & E2 & Hs & _).
    destruct Hk as [-> | ->].
    + exists k2, r1, r2. auto.
    + exists k1, r2, r1. rewrite sharesEndpoint_sym. auto.
  - apply doIntersect_xy.
Qed.

(** ** The win condition *)

Lemma sameScene_refl (s : State T) : sameScene s s.
Proof. repeat split. Qed.

Lemma updateRopeMesh_same (s : State T) (id : string) (r : RopeMesh.t) (b : bool) :
  map_get (ropes s) id = Some r -> sameScene s (updateRopeMesh s id b).
Proof.
  intros Hg. unfold updateRopeMesh. rewrite Hg.
  destruct (match levelData s with Some ld => _ | None => None end);
    repeat split; cbn [ropes set_ropes]; eapply map_set_keys, Hg.
Qed.

Lemma recolourStep_same (tangled : gset string) (s : State T) (id : string) :
  sameScene s (recolourStep tangled s id).
Proof.
  unfold recolourStep.
  destruct (map_get (ropes s) id) as [r |] eqn:Hg; [| apply sameScene_refl].
  destruct (pins s !! RopeMesh.p1 r); [| apply sameScene_refl].
  destruct (pins s !! RopeMesh.p2 r); [| apply sameScene_refl].
  eapply updateRopeMesh_same, Hg.
Qed.

Lemma recolour_same (tangled : gset string) (ids : list string) (s : State T) :
  sameScene s (foldl (recolourStep tangled) s ids).
Proof.
  revert s. induction ids as [| id ids IH]; intros s; cbn [foldl].
  - apply sameScene_refl.
  - specialize (IH (recolourStep tangled s id)).
    pose proof (recolourStep_same tangled s id) as Hs.
    unfold sameScene in *. intuition congruence.
Qed.

Lemma checkIntersections_same (s : State T) :
  sameScene s (fst (checkIntersections s)).
Proof. apply recolour_same. Qed.

Lemma tangledIds_subset_keys (s : State T) (id : string) :
  id ∈ tangledIds s -> id ∈ map_keys (ropes s).
Proof.
  rewrite tangledIds_elem.
  intros (i & j & k1 & k2 & _ & Hi & Hj & _ & [-> | ->]);
    eapply list_elem_of_lookup_2; eassumption.
Qed.

Lemma solved_unfold (s : State T) :
  solved s
  = (0 <? length (ropes s))%nat && bool_decide (size (tangledIds s) = 0%nat).
Proof.
  unfold solved.
  pose proof (checkIntersections_same s) as (Hk & _).
  destruct (checkIntersections s) as [s' b] eqn:E.
  assert (b = bool_decide (size (tangledIds s) = 0%nat)) as ->
    by (unfold checkIntersections in E; congruence).
  cbn [fst] in Hk. f_equal.
  unfold map_keys in Hk.
  rewrite <- (length_fmap fst (ropes s')), Hk, length_fmap. reflexivity.
Qed.

(** C1. The condition [s.ropes.size > 0 && isSolved] of
    [checkWinCondition] holds if and only if the level has at least one
    rope and no rope id is in [tangledIds]; with no rope it is false; and
    it is what decides [isComplete] when the level is initialized and not
    yet complete. *)
Theorem solved_iff_edges_no_tangle (s : State T) :
  (solved s = true <->
     ropes s <> [] /\ forall id, id ∈ map_keys (ropes s) -> id ∉ tangledIds s)
  /\ (ropes s = [] -> solved s = false)
  /\ (initialized s = true -> isComplete s = false ->
      isComplete (checkWinCondition s) = solved s).
Proof.
  split; [| split].
  - rewrite solved_unfold, andb_true_iff, Nat.ltb_lt, bool_decide_eq_true,
      size_empty_iff, elem_of_equiv_empty.
    split.
    + intros [Hlen Hno]. split.
      * intros E. rewrite E in Hlen. cbn in Hlen. lia.
      * intros id _. apply Hno.
    + intros [Hne Hno]. split.
      * destruct (ropes s); [congruence | cbn; lia].
      * intros id Hin. apply (Hno id); [| exact Hin].
        apply tangledIds_subset_keys, Hin.
  - intros E. rewrite solved_unfold, E. reflexivity.
  - intros Hi Hc. unfold checkWinCondition, solved. rewrite Hi, Hc. cbn [negb orb].
    pose proof (checkIntersections_same s) as (_ & _ & Hc' & _).
    destruct (checkIntersections s) as [s' b]. cbn [fst] in Hc'.
    destruct ((0 <? length (ropes s'))%nat && b); [reflexivity | congruence].
Qed.

(** ** After completion *)

Lemma setGrabbed_positions (p : gmap string (Pin.t T)) (id : string) (g : bool) :
  Pin.position <$> setGrabbed p id g = Pin.position <$> p.
Proof.
  unfold setGrabbed. destruct (p !! id) as [pin |] eqn:E; [| reflexivity].
  rewrite fmap_insert. apply insert_id. rewrite lookup_fmap, E. reflexivity.
Qed.

Lemma handle_frozen (s : State T) (e : PointerEvent T) :
  isComplete s = true -> frozen s (handle s e).
Proof.
  intros Hc. destruct e as [hit planeHit | planeHit |]; cbn [handle].
  - unfold onPointerDown. rewrite Hc. repeat split; assumption.
  - unfold onPointerMove. rewrite Hc.
    destruct (selected s); repeat split; assumption.
  - unfold onPointerUp.
    destruct (selected s) as [sel |]; [| repeat split; assumption].
    unfold checkWinCondition. cbn [isComplete initialized]. rewrite Hc, orb_true_r.
    repeat split; cbn [isComplete pins ropes].
    apply setGrabbed_positions.
Qed.

(** C9 (amended). Once [isComplete] is set (by [checkWinCondition], the
    first time [solved] holds at a pointer release), every later pointer event
    leaves it set, moves no pin and changes no rope: pointer-down and
    pointer-move return at their guard, and pointer-up can only reset the
    scale of the selected pin. *)
Theorem solved_state_is_terminal (s : State T) (events : list (PointerEvent T)) :
  isComplete s = true ->
  let s' := foldl handle s events in
  isComplete s' = true
  /\ (forall id, Pin.position <$> (pins s' !! id) = Pin.position <$> (pins s !! id))
  /\ ropes s' = ropes s.
Proof.
  intros Hc. cbn zeta.
  assert (Hf : frozen s (foldl handle s events)).
  { revert s Hc. induction events as [| e events IH]; intros s Hc; cbn [foldl].
    - repeat split; assumption.
    - destruct (handle_frozen s e Hc) as (Hc1 & Hp1 & Hr1).
      destruct (IH (handle s e) Hc1) as (Hc2 & Hp2 & Hr2).
      repeat split; congruence. }
  destruct Hf as (Hc' & Hp & Hr). split; [exact Hc' | split; [| exact Hr]].
  intros id. rewrite <- !lookup_fmap, Hp. reflexivity.
Qed.
End EngineFacts.

Lemma solved_state_is_terminal_witness :
  let s' := foldl handle completedState dragEvents in
  isComplete s' = true
  /\ (forall id, Pin.position <$> (pins s' !! id)
                 = Pin.position <$> (pins completedState !! id))
  /\ ropes s' = ropes completedState.
Proof. exact (solved_state_is_terminal completedState dragEvents eq_refl). Defined.

(** C9, as stated, fails: an evaluation with solved = true does not end
    the level, only [checkWinCondition] at a pointer release does. The
    square with its third pin at (-5, -5) is mounted untangled: the
    condition [solved] holds, yet [isComplete] stays false, since the
    result of the evaluation at mount is discarded. The pin is then
    grabbed and moved to (8, 8): the move is applied, the diagonals
    cross (lambda = 100/160, gamma = 80/160) and the level is unsolved
    again. *)
Lemma solved_evaluation_is_not_terminal :
  let s := initScene (squareLevel (-5) (-5)) in
  let s' := foldl handle s tangleDrag in
  (solved s = true /\ isComplete s = false)
  /\ Pin.position <$> (pins s !! "p2") = Some (Vector3.mk (-5) (-5) 0)%float
  /\ Pin.position <$> (pins s' !! "p2") = Some (Vector3.mk 8 8 0)%float
  /\ (solved s' = false /\ isComplete s' = false).
Proof. vm_compute. repeat split; reflexivity. Qed.

(* ------------------------------------------------------------------ *)
(** * The generator: indices and offsets *)

Lemma pointCount_bounds (lvl : Z) : 0 <= lvl -> 5 <= pointCount lvl <= 15.
Proof. unfold pointCount. intros Hl. pose proof (Z.div_pos lvl 10 Hl ltac:(lia)). lia. Qed.

Lemma pointCount_scramble (lvl : Z) :
  0 < scrambleCount lvl -> 4 <= pointCount lvl <= 15.
Proof.
  unfold pointCount, scrambleCount. intros Hl.
  assert (-1 <= lvl / 10) by (apply Z.div_le_lower_bound; lia). lia.
Qed.

Lemma small_cases (n : Z) :
  4 <= n <= 15 ->
  n = 4 \/ n = 5 \/ n = 6 \/ n = 7 \/ n = 8 \/ n = 9 \/ n = 10 \/ n = 11 \/ n = 12
  \/ n = 13 \/ n = 14 \/ n = 15.
Proof. lia. Qed.

Lemma scale_ok_count (n : Z) : 4 <= n <= 15 -> scale_ok (of_Z n) n = true.
Proof.
  intros Hn. destruct (small_cases n Hn) as [-> | [-> | [-> | [-> | [-> | [-> | [-> | [-> | [-> | [-> | [-> | ->]]]]]]]]]]];
    vm_compute; reflexivity.
Qed.

Lemma scale_ok_third (n : Z) :
  5 <= n <= 15 -> scale_ok (of_Z n / 3)%float ((n + 2) / 3) = true.
Proof.
  intros Hn. destruct (small_cases n ltac:(lia)) as [-> | [-> | [-> | [-> | [-> | [-> | [-> | [-> | [-> | [-> | [-> | ->]]]]]]]]]]];
    try lia; vm_compute; reflexivity.
Qed.

Lemma randomIndex_range (n : Z) (r : float) :
  4 <= n <= 15 -> in_unit r = true -> 0 <= randomIndex n r < n.
Proof.
  intros Hn Hr. unfold randomIndex.
  apply random_scale_bound; [exact Hr | apply scale_ok_count, Hn].
Qed.

Lemma chordOffset_range (n : Z) (r : float) :
  5 <= n <= 15 -> in_unit r = true ->
  2 <= chordOffset n r /\ 3 * (chordOffset n r - 2) < n.
Proof.
  intros Hn Hr. unfold chordOffset.
  pose proof (random_scale_bound r (of_Z n / 3)%float ((n + 2) / 3) Hr
                (scale_ok_third n Hn)) as Hb.
  split; [lia |].
  assert (3 * ((n + 2) / 3) <= n + 2) by (apply Z.mul_div_le; lia). lia.
Qed.

(** ** Ropes *)

Lemma pointId_inj (i j : Z) : pointId i = pointId j -> i = j.
Proof. unfold pointId. intros E. injection E as E. apply (inj pretty), E. Qed.

Lemma ropeKey_comm (i j : Z) : ropeKey i j = ropeKey j i.
Proof. unfold ropeKey. rewrite Z.min_comm, Z.max_comm. reflexivity. Qed.

Lemma ropeOk_mono (n : Z) (c c' : gset string) (r : Rope.t) :
  c ⊆ c' -> ropeOk n c r -> ropeOk n c' r.
Proof.
  intros Hsub (i & j & Hi & Hj & Hne & E1 & E2 & Hk & Hs).
  exists i, j. repeat split; try assumption; try lia. apply Hsub, Hk.
Qed.

Lemma edgeOf_eq_key (n : Z) (c : gset string) (r : Rope.t) (i j : Z) :
  ropeOk n c r -> edgeOf r = {[ pointId i; pointId j ]} -> ropeKey i j ∈ c.
Proof.
  intros (i' & j' & _ & _ & _ & E1 & E2 & Hk & _) E.
  unfold edgeOf in E. rewrite E1, E2 in E.
  assert (Hi : pointId i ∈ ({[ pointId i'; pointId j' ]} : gset string))
    by (rewrite E; set_solver).
  assert (Hj : pointId j ∈ ({[ pointId i'; pointId j' ]} : gset string))
    by (rewrite E; set_solver).
  assert (Hi' : pointId i' ∈ ({[ pointId i; pointId j ]} : gset string))
    by (rewrite <- E; set_solver).
  assert (Hj' : pointId j' ∈ ({[ pointId i; pointId j ]} : gset string))
    by (rewrite <- E; set_solver).
  rewrite elem_of_union, !elem_of_singleton in Hi, Hj, Hi', Hj'.
  assert ((i = i' /\ j = j') \/ (i = j' /\ j = i')) as [[-> ->] | [-> ->]].
  { destruct Hi as [Hi | Hi], Hj as [Hj | Hj], Hi' as [Hi' | Hi'], Hj' as [Hj' | Hj'];
      apply pointId_inj in Hi, Hj, Hi', Hj'; subst; auto. }
  - exact Hk.
  - rewrite ropeKey_comm. exact Hk.
Qed.

Lemma addRope_inv (n i j : Z) (acc : gset string * list Rope.t) :
  ropesInv n acc -> 0 <= i < n -> 0 <= j < n -> ringOrChord n i j ->
  ropesInv n (addRope i j acc).
Proof.
  destruct acc as [c ropes]. intros [Hall Hnd] Hi Hj Hs. unfold addRope.
  destruct (i =? j) eqn:Eij; cbn [negb andb]; [split; assumption |].
  apply Z.eqb_neq in Eij.
  destruct (bool_decide (ropeKey i j ∈ c)) eqn:Ek; cbn [negb]; [split; assumption |].
  apply bool_decide_eq_false in Ek.
  split; cbn [fst snd].
  - apply Forall_app. split.
    + eapply Forall_impl; [exact Hall |]. intros r. apply ropeOk_mono. set_solver.
    + apply Forall_singleton. exists i, j. repeat split; try assumption; try lia.
      set_solver.
  - rewrite fmap_app. apply NoDup_app. split; [exact Hnd | split].
    + intros e He Hin. cbn in Hin. apply list_elem_of_singleton in Hin. subst e.
      apply list_elem_of_fmap in He. destruct He as (r & Er & Hr).
      rewrite Forall_forall in Hall. specialize (Hall r Hr).
      apply Ek. eapply edgeOf_eq_key; [exact Hall |]. rewrite <- Er. reflexivity.
    + cbn. apply NoDup_singleton.
Qed.


Lemma ringRopes_inv (n : Z) : 0 < n -> ropesInv n (ringRopes n).
Proof.
  intros Hn. unfold ringRopes.
  assert (Hgen : forall (l : list Z) acc,
             Forall (fun i => 0 <= i < n) l -> ropesInv n acc ->
             ropesInv n (foldl (fun acc i => addRope i (Z.rem (i + 1) n) acc) acc l)).
  { induction l as [| i l IH]; intros acc Hl Hacc; cbn [foldl]; [exact Hacc |].
    apply Forall_cons in Hl. destruct Hl as [Hi Hl].
    apply IH; [exact Hl |].
    apply addRope_inv; [exact Hacc | exact Hi | apply Z.rem_bound_pos; lia |].
    exists 1. split; [reflexivity | left; reflexivity]. }
  apply Hgen.
  - apply Forall_forall. intros i Hi. apply elem_of_seqZ in Hi. lia.
  - split; cbn; [apply Forall_nil_2 | apply NoDup_nil_2].
Qed.


Section GeneratorFacts.
Variables Math_cos Math_sin : float -> float.
Variable Math_random : nat -> float.
Hypothesis draws : forall k, in_unit (Math_random k) = true.

Lemma extraLoop_inv (n : Z) (count k : nat) (acc : gset string * list Rope.t) :
  5 <= n <= 15 -> ropesInv n acc ->
  ropesInv n (extraLoop Math_random n count k acc).2.
Proof.
  intros Hn. revert k acc. induction count as [| count IH]; intros k acc Hacc;
    cbn [extraLoop snd]; [exact Hacc |].
  apply IH.
  pose proof (randomIndex_range n (Math_random k) ltac:(lia) (draws k)) as Hi.
  pose proof (chordOffset_range n (Math_random (S k)) Hn (draws (S k))) as [Ho1 Ho2].
  apply addRope_inv; [exact Hacc | exact Hi | apply Z.rem_bound_pos; lia |].
  eexists. split; [reflexivity | right; split; assumption].
Qed.

End GeneratorFacts.

(** ** Points *)

Lemma at_index_Some {A : Type} (l : list A) (i : Z) :
  0 <= i < Z.of_nat (length l) -> exists a, at_index l i = Some a /\ l !! Z.to_nat i = Some a.
Proof.
  intros Hi. unfold at_index.
  destruct (Z.ltb_spec i 0) as [Hneg | _]; [lia |].
  destruct (lookup_lt_is_Some_2 l (Z.to_nat i) ltac:(lia)) as [a Ha].
  exists a. split; assumption.
Qed.

Lemma setXY_id (p : Point.t float) (px py : float) : Point.id (setXY p px py) = Point.id p.
Proof. reflexivity. Qed.

Lemma insert_setXY_ids (l : list (Point.t float)) (i : nat) (p : Point.t float)
    (px py : float) :
  l !! i = Some p -> Point.id <$> <[ i := setXY p px py ]> l = Point.id <$> l.
Proof.
  intros E. rewrite list_fmap_insert. apply list_insert_id.
  rewrite list_lookup_fmap, E. reflexivity.
Qed.

Lemma swapPositions_ok (points : list (Point.t float)) (idxA idxB : Z) :
  0 <= idxA < Z.of_nat (length points) -> 0 <= idxB < Z.of_nat (length points) ->
  exists points', swapPositions points idxA idxB = Some points'
                  /\ Point.id <$> points' = Point.id <$> points.
Proof.
  intros Ha Hb. unfold swapPositions.
  destruct (at_index_Some points idxA Ha) as (pa & -> & Ea).
  destruct (at_index_Some points idxB Hb) as (pb & -> & Eb).
  set (points1 := <[ Z.to_nat idxA := setXY pa (Point.x pb) (Point.y pb) ]> points).
  assert (Hids1 : Point.id <$> points1 = Point.id <$> points)
    by (apply insert_setXY_ids, Ea).
  assert (Hlen1 : length points1 = length points) by (apply length_insert).
  destruct (at_index_Some points1 idxB ltac:(lia)) as (pb1 & -> & Eb1).
  eexists. split; [reflexivity |].
  rewrite (insert_setXY_ids points1 _ pb1 _ _ Eb1). exact Hids1.
Qed.

Lemma jitter_ids (rnd : nat -> float) (k : nat) (points : list (Point.t float)) :
  Point.id <$> jitter rnd k points = Point.id <$> points.
Proof.
  revert k. induction points as [| p rest IH]; intros k; cbn [jitter]; [reflexivity |].
  rewrite !fmap_cons, IH. reflexivity.
Qed.

Lemma makePoint_ids (cs sn : float -> float) (n : Z) (l : list Z) :
  Point.id <$> (makePoint cs sn n <$> l) = pointId <$> l.
Proof. rewrite <- list_fmap_compose. reflexivity. Qed.

Lemma pointIds_NoDup (n : Z) : NoDup (pointId <$> seqZ 0 n).
Proof.
  apply NoDup_fmap_2; [| apply NoDup_seqZ]. intros i j. apply pointId_inj.
Qed.

Section GeneratorResults.
Variables Math_cos Math_sin : float -> float.
Variable Math_random : nat -> float.
Hypothesis draws : forall k, in_unit (Math_random k) = true.

Lemma scrambleLoop_ok (n : Z) (count k : nat) (points : list (Point.t float)) :
  (count = 0%nat \/ 4 <= n <= 15) -> length points = Z.to_nat n ->
  exists k' points', scrambleLoop Math_random n count k points = Some (k', points')
                     /\ Point.id <$> points' = Point.id <$> points.
Proof.
  revert k points. induction count as [| count IH]; intros k points Hn Hlen;
    cbn [scrambleLoop].
  - exists k, points. split; reflexivity.
  - destruct Hn as [Hn | Hn]; [discriminate |].
    pose proof (randomIndex_range n (Math_random k) Hn (draws k)) as Ha.
    pose proof (randomIndex_range n (Math_random (S k)) Hn (draws (S k))) as Hb.
    destruct (swapPositions_ok points (randomIndex n (Math_random k))
                (randomIndex n (Math_random (S k))) ltac:(lia) ltac:(lia))
      as (points1 & -> & Hids).
    destruct (IH (S (S k)) points1 (or_intror Hn)) as (k' & points' & E & Hids').
    { rewrite <- Hlen, <- (length_fmap Point.id points1), Hids, length_fmap. reflexivity. }
    exists k', points'. split; [exact E | congruence].
Qed.

(** The generator returns, and what it returns. *)
Lemma generateLevel_returns (lvl : Z) :
  exists d, generateLevel Math_cos Math_sin Math_random lvl = Some d
            /\ Point.id <$> LevelData.points d = pointId <$> seqZ 0 (pointCount lvl)
            /\ LevelData.ropes d
               = (extraLoop Math_random (pointCount lvl) (Z.to_nat (extraRopes lvl)) 0
                    (ringRopes (pointCount lvl))).2.2.
Proof.
  unfold generateLevel.
  set (n := pointCount lvl).
  destruct (extraLoop Math_random n (Z.to_nat (extraRopes lvl)) 0 (ringRopes n))
    as [k1 [c ropes]] eqn:Eextra.
  destruct (scrambleLoop_ok n (Z.to_nat (scrambleCount lvl)) k1
              (makePoint Math_cos Math_sin n <$> seqZ 0 n))
    as (k2 & points' & -> & Hids).
  - destruct (Z_le_gt_dec (scrambleCount lvl) 0) as [Hle | Hgt].
    + left. lia.
    + right. apply pointCount_scramble. lia.
  - rewrite length_fmap, length_seqZ. reflexivity.
  - eexists. split; [reflexivity |]. cbn [LevelData.points LevelData.ropes].
    rewrite jitter_ids, Hids, makePoint_ids. split; reflexivity.
Qed.
End GeneratorResults.

(* ------------------------------------------------------------------ *)
(** * The generated level *)

Lemma swapPositions_length (points points' : list (Point.t float)) (idxA idxB : Z) :
  swapPositions points idxA idxB = Some points' -> length points' = length points.
Proof.
  unfold swapPositions.
  destruct (at_index points idxA) as [pa |]; [| discriminate].
  destruct (at_index points idxB) as [pb |]; [| discriminate].
  destruct (at_index _ idxB) as [pb1 |]; [| discriminate].
  intros [= <-]. rewrite !length_insert. reflexivity.
Qed.

Lemma scrambleLoop_length (rnd : nat -> float) (n : Z) (count k k' : nat)
    (points points' : list (Point.t float)) :
  scrambleLoop rnd n count k points = Some (k', points') ->
  length points' = length points.
Proof.
  revert k points. induction count as [| count IH]; intros k points; cbn [scrambleLoop].
  - intros [= _ <-]. reflexivity.
  - destruct (swapPositions points _ _) as [points1 |] eqn:E; [| discriminate].
    intros Hs. rewrite (IH _ _ Hs). eapply swapPositions_length, E.
Qed.

Lemma jitter_length (rnd : nat -> float) (k : nat) (points : list (Point.t float)) :
  length (jitter rnd k points) = length points.
Proof.
  rewrite <- (length_fmap Point.id), jitter_ids, length_fmap. reflexivity.
Qed.

(** Whenever the generator returns, the level has [pointCount] nodes. *)
Lemma generateLevel_length (cs sn : float -> float) (rnd : nat -> float) (lvl : Z)
    (d : LevelData.t float) :
  generateLevel cs sn rnd lvl = Some d ->
  length (LevelData.points d) = Z.to_nat (pointCount lvl).
Proof.
  unfold generateLevel.
  destruct (extraLoop rnd _ _ _ _) as [k1 [c ropes]].
  destruct (scrambleLoop rnd _ _ k1 _) as [[k2 points'] |] eqn:E; [| discriminate].
  intros [= <-]. cbn [LevelData.points].
  rewrite jitter_length, (scrambleLoop_length _ _ _ _ _ _ _ E), length_fmap, length_seqZ.
  reflexivity.
Qed.

Lemma generateLevel_ropesInv (rnd : nat -> float) (lvl : Z) :
  (forall k, in_unit (rnd k) = true) -> 0 <= lvl ->
  ropesInv (pointCount lvl)
    (extraLoop rnd (pointCount lvl) (Z.to_nat (extraRopes lvl)) 0
       (ringRopes (pointCount lvl))).2.
Proof.
  intros draws Hl. pose proof (pointCount_bounds lvl Hl) as Hn.
  apply extraLoop_inv; [exact draws | exact Hn | apply ringRopes_inv; lia].
Qed.

(** C5. For every level index >= 1 and every stream of draws in [0, 1),
    [generateLevel] returns a level whose number of points is
    min(5 + floor(lvl / 10), 15). *)
Theorem generateLevel_node_count (Math_cos Math_sin : float -> float)
    (Math_random : nat -> float) (lvl : Z) :
  1 <= lvl -> (forall k, in_unit (Math_random k) = true) ->
  exists d, generateLevel Math_cos Math_sin Math_random lvl = Some d
            /\ Z.of_nat (length (LevelData.points d)) = Z.min (5 + lvl / 10) 15.
Proof.
  intros Hl draws.
  destruct (generateLevel_returns Math_cos Math_sin Math_random draws lvl)
    as (d & E & _ & _).
  exists d. split; [exact E |].
  rewrite (generateLevel_length _ _ _ _ _ E).
  pose proof (pointCount_bounds lvl ltac:(lia)) as Hn.
  fold (pointCount lvl). lia.
Qed.

Lemma generateLevel_node_count_witness :
  exists d, generateLevel cosSeries sinSeries (constantDraws 0.5) 37 = Some d
            /\ Z.of_nat (length (LevelData.points d)) = Z.min (5 + 37 / 10) 15.
Proof.
  apply (generateLevel_node_count cosSeries sinSeries (constantDraws 0.5) 37);
    [lia | intros k; reflexivity].
Defined.

(** C6. For level indices lvl1 < lvl2 the node count and the scramble
    count of the higher index are never smaller; and whenever the
    generator returns for both, the level of the higher index has at least
    as many points. *)
Theorem difficulty_monotone (lvl1 lvl2 : Z) :
  lvl1 < lvl2 ->
  pointCount lvl1 <= pointCount lvl2
  /\ scrambleCount lvl1 <= scrambleCount lvl2
  /\ (Z.to_nat (scrambleCount lvl1) <= Z.to_nat (scrambleCount lvl2))%nat
  /\ (forall cs sn rnd1 rnd2 d1 d2,
         generateLevel cs sn rnd1 lvl1 = Some d1 ->
         generateLevel cs sn rnd2 lvl2 = Some d2 ->
         (length (LevelData.points d1) <= length (LevelData.points d2))%nat).
Proof.
  intros Hlt.
  assert (Hdiv : lvl1 / 10 <= lvl2 / 10) by (apply Z.div_le_mono; lia).
  assert (Hp : pointCount lvl1 <= pointCount lvl2) by (unfold pointCount; lia).
  repeat split; [exact Hp | unfold scrambleCount; lia | unfold scrambleCount; lia |].
  intros cs sn rnd1 rnd2 d1 d2 E1 E2.
  rewrite (generateLevel_length _ _ _ _ _ E1), (generateLevel_length _ _ _ _ _ E2). lia.
Qed.

Lemma difficulty_monotone_witness :
  pointCount 9 <= pointCount 10
  /\ scrambleCount 9 <= scrambleCount 10
  /\ (Z.to_nat (scrambleCount 9) <= Z.to_nat (scrambleCount 10))%nat
  /\ (forall cs sn rnd1 rnd2 d1 d2,
         generateLevel cs sn rnd1 9 = Some d1 ->
         generateLevel cs sn rnd2 10 = Some d2 ->
         (length (LevelData.points d1) <= length (LevelData.points d2))%nat).
Proof. apply (difficulty_monotone 9 10). lia. Defined.

(** C8, as stated, fails: the generator has no check of its argument. For
    the level indices 0 and -7 it returns a level, of 5 and of 4 points. *)
Lemma generateLevel_accepts_nonpositive :
  (exists d, generateLevel cosSeries sinSeries (constantDraws 0.5) 0 = Some d
             /\ length (LevelData.points d) = 5%nat)
  /\ (exists d, generateLevel cosSeries sinSeries (constantDraws 0.5) (-7) = Some d
                /\ length (LevelData.points d) = 4%nat).
Proof.
  split; (eexists; split; [vm_compute; reflexivity | reflexivity]).
Qed.

(** C8 (amended). [generateLevel] validates nothing: for every integer
    level index, positive or not, and every stream of draws in [0, 1), it
    returns a level (it never throws), whose number of points is
    max(0, min(5 + floor(lvl / 10), 15)). *)
Theorem generateLevel_never_rejects (Math_cos Math_sin : float -> float)
    (Math_random : nat -> float) (lvl : Z) :
  (forall k, in_unit (Math_random k) = true) ->
  exists d, generateLevel Math_cos Math_sin Math_random lvl = Some d
            /\ Z.of_nat (length (LevelData.points d))
               = Z.max 0 (Z.min (5 + lvl / 10) 15).
Proof.
  intros draws.
  destruct (generateLevel_returns Math_cos Math_sin Math_random draws lvl)
    as (d & E & _ & _).
  exists d. split; [exact E |].
  rewrite (generateLevel_length _ _ _ _ _ E). fold (pointCount lvl). lia.
Qed.

Lemma generateLevel_never_rejects_witness :
  exists d, generateLevel cosSeries sinSeries (constantDraws 0.25) (-23) = Some d
            /\ Z.of_nat (length (LevelData.points d))
               = Z.max 0 (Z.min (5 + (-23) / 10) 15).
Proof.
  apply (generateLevel_never_rejects cosSeries sinSeries (constantDraws 0.25) (-23)).
  intros k. reflexivity.
Defined.

(** An example outside the domain of the generator (level indices >= 1;
    the application passes 1..100): for the level index -100 and draws of
    0.5 the generator returns no point and one rope, between the ids p-3
    and p-2, which no point has. *)
Lemma negative_index_dangling_rope :
  generateLevel cosSeries sinSeries (constantDraws 0.5) (-100)
  = Some (LevelData.mk [] [Rope.mk "r0" "p-3" "p-2" "#ffffff"]).
Proof. vm_compute. reflexivity. Qed.

(** C4. For every level index >= 0 (so for every index >= 1 of the
    generator's domain) and every stream of draws in [0, 1), the
    generated level has pairwise distinct point ids, every
    rope joins two distinct ids of points of the level, and no unordered
    pair of point ids is joined by more than one rope (a rope is added
    only if the key of its sorted index pair is not yet in
    [connections]). *)
Theorem generateLevel_structure (Math_cos Math_sin : float -> float)
    (Math_random : nat -> float) (lvl : Z) :
  0 <= lvl -> (forall k, in_unit (Math_random k) = true) ->
  exists d, generateLevel Math_cos Math_sin Math_random lvl = Some d
    /\ NoDup (Point.id <$> LevelData.points d)
    /\ (forall r, r ∈ LevelData.ropes d ->
          Rope.p1 r <> Rope.p2 r
          /\ Rope.p1 r ∈ (Point.id <$> LevelData.points d)
          /\ Rope.p2 r ∈ (Point.id <$> LevelData.points d))
    /\ NoDup (edgeOf <$> LevelData.ropes d).
Proof.
  intros Hl draws.
  destruct (generateLevel_returns Math_cos Math_sin Math_random draws lvl)
    as (d & E & Hids & Hropes).
  pose proof (generateLevel_ropesInv Math_random lvl draws Hl) as [Hall Hnd].
  rewrite <- Hropes in Hall, Hnd.
  exists d. split; [exact E |]. rewrite Hids.
  split; [apply pointIds_NoDup | split; [| exact Hnd]].
  intros r Hr. rewrite Forall_forall in Hall.
  destruct (Hall r Hr) as (i & j & Hi & Hj & Hne & -> & -> & _).
  split; [intros Eid; apply Hne, pointId_inj, Eid |].
  split; apply list_elem_of_fmap_2, elem_of_seqZ; lia.
Qed.

Lemma generateLevel_structure_witness :
  exists d, generateLevel cosSeries sinSeries (constantDraws 0.75) 100 = Some d
    /\ NoDup (Point.id <$> LevelData.points d)
    /\ (forall r, r ∈ LevelData.ropes d ->
          Rope.p1 r <> Rope.p2 r
          /\ Rope.p1 r ∈ (Point.id <$> LevelData.points d)
          /\ Rope.p2 r ∈ (Point.id <$> LevelData.points d))
    /\ NoDup (edgeOf <$> LevelData.ropes d).
Proof.
  apply (generateLevel_structure cosSeries sinSeries (constantDraws 0.75) 100);
    [lia | intros k; reflexivity].
Defined.





(* ------------------------------------------------------------------ *)
(** * Further properties *)

Lemma two_ropes_tangled {T : Type} {num : JsNumber T} (s : State T)
    (k1 k2 : string) (b : bool) :
  map_keys (ropes s) = [k1; k2] -> crossingTest s k1 k2 = Some b ->
  tangledIds s = (if b then {[ k1; k2 ]} else ∅)
  /\ solved s = negb b.
Proof.
  intros Hkeys Ht.
  assert (E : tangledIds s = (if b then {[ k1; k2 ]} else ∅)).
  { unfold tangledIds. rewrite Hkeys. cbn [outerLoop innerLoop foldl].
    unfold pairStep. rewrite Ht. destruct b; set_solver. }
  split; [exact E |]. rewrite solved_unfold, E.
  assert (length (ropes s) = 2%nat) as ->
    by (rewrite <- (length_fmap fst (ropes s)); fold (map_keys (ropes s));
        rewrite Hkeys; reflexivity).
  destruct b; cbn [negb Nat.ltb Nat.leb andb].
  - apply bool_decide_eq_false. rewrite size_empty_iff. set_solver.
  - apply bool_decide_eq_true. apply size_empty.
Qed.

(** An example. The two diagonals of a square cross: both ropes are tangled and the
    level is not solved. Moving the third pin from (10, 10) to (20, 20)
    keeps the ropes crossing at (5, 5), so the level stays unsolved; with
    the third pin at (-10, -10) nothing is tangled and the level is
    solved. *)
Example square_diagonals :
  (tangledIds (initScene (squareLevel 10 10)) = {[ "r0"; "r1" ]}
   /\ solved (initScene (squareLevel 10 10)) = false)
  /\ (tangledIds (initScene (squareLevel 20 20)) = {[ "r0"; "r1" ]}
      /\ solved (initScene (squareLevel 20 20)) = false)
  /\ (tangledIds (initScene (squareLevel (-10) (-10))) = ∅
      /\ solved (initScene (squareLevel (-10) (-10))) = true).
Proof.
  split; [| split].
  - apply (two_ropes_tangled _ "r0" "r1" true); vm_compute; reflexivity.
  - apply (two_ropes_tangled _ "r0" "r1" true); vm_compute; reflexivity.
  - apply (two_ropes_tangled _ "r0" "r1" false); vm_compute; reflexivity.
Qed.

(** X2. In binary64, [Math.floor(Math.random() * pointCount)] is an index of the
    array of [pointCount] points, for every draw in [0, 1) and every node
    count from 4 to 15. *)
Theorem random_index_hits_array (points : list (Point.t float)) (n : Z) (r : float) :
  length points = Z.to_nat n -> 4 <= n <= 15 -> in_unit r = true ->
  is_Some (at_index points (randomIndex n r)).
Proof.
  intros Hlen Hn Hr.
  destruct (at_index_Some points (randomIndex n r)) as (p & E & _).
  - pose proof (randomIndex_range n r Hn Hr). lia.
  - rewrite E. eexists. reflexivity.
Qed.

Lemma random_index_hits_array_witness :
  is_Some (at_index (LevelData.points (squareLevel 10 10))
             (randomIndex 4 0.9999999999999999)).
Proof.
  apply (random_index_hits_array _ 4 0.9999999999999999);
    [reflexivity | lia | reflexivity].
Defined.

Lemma map_get_set_same {V : Type} (m : list (string * V)) (k : string) (v : V) :
  map_get (map_set m k v) k = Some v.
Proof.
  induction m as [| [k0 v0] m IH]; cbn [map_set map_get].
  - rewrite String.eqb_refl. reflexivity.
  - destruct (String.eqb k0 k) eqn:E; cbn [map_get].
    + rewrite String.eqb_refl. reflexivity.
    + rewrite E. exact IH.
Qed.

Lemma map_get_set_other {V : Type} (m : list (string * V)) (k k' : string) (v : V) :
  k <> k' -> map_get (map_set m k v) k' = map_get m k'.
Proof.
  intros Hne. induction m as [| [k0 v0] m IH]; cbn [map_set map_get].
  - destruct (String.eqb_spec k k'); [contradiction | reflexivity].
  - destruct (String.eqb_spec k0 k) as [-> | Hk]; cbn [map_get].
    + destruct (String.eqb_spec k k'); [contradiction | reflexivity].
    + rewrite IH. reflexivity.
Qed.

Section Flags.
Context {T : Type} {num : JsNumber T}.

Lemma updateRopeMesh_flag (s : State T) (id : string) (r : RopeMesh.t) (b : bool) :
  map_get (ropes s) id = Some r ->
  exists r', map_get (ropes (updateRopeMesh s id b)) id = Some r'
             /\ RopeMesh.tangled r' = b.
Proof.
  intros Hg. unfold updateRopeMesh. rewrite Hg.
  destruct (match levelData s with Some ld => _ | None => None end);
    cbn [ropes set_ropes]; rewrite map_get_set_same; eexists; split; reflexivity.
Qed.

Lemma updateRopeMesh_other (s : State T) (id id' : string) (b : bool) :
  id <> id' -> map_get (ropes (updateRopeMesh s id b)) id' = map_get (ropes s) id'.
Proof.
  intros Hne. unfold updateRopeMesh.
  destruct (match levelData s with Some ld => _ | None => None end);
    [| destruct (map_get (ropes s) id)];
    cbn [ropes set_ropes]; try reflexivity; apply map_get_set_other, Hne.
Qed.

Lemma recolourStep_other (tangled : gset string) (s : State T) (id id' : string) :
  id <> id' -> map_get (ropes (recolourStep tangled s id)) id' = map_get (ropes s) id'.
Proof.
  intros Hne. unfold recolourStep.
  destruct (map_get (ropes s) id) as [r |]; [| reflexivity].
  destruct (pins s !! RopeMesh.p1 r); [| reflexivity].
  destruct (pins s !! RopeMesh.p2 r); [| reflexivity].
  apply updateRopeMesh_other, Hne.
Qed.

Lemma recolour_other (tangled : gset string) (ids : list string) (s : State T)
    (id' : string) :
  id' ∉ ids ->
  map_get (ropes (foldl (recolourStep tangled) s ids)) id' = map_get (ropes s) id'.
Proof.
  revert s. induction ids as [| id ids IH]; intros s Hn; cbn [foldl]; [reflexivity |].
  apply not_elem_of_cons in Hn. destruct Hn as [Hne Hn].
  rewrite IH by exact Hn. apply recolourStep_other. congruence.
Qed.

Lemma recolour_flag (tangled : gset string) (ids : list string) (s : State T)
    (id : string) (r : RopeMesh.t) :
  NoDup ids -> id ∈ ids -> map_get (ropes s) id = Some r ->
  is_Some (pins s !! RopeMesh.p1 r) -> is_Some (pins s !! RopeMesh.p2 r) ->
  exists r', map_get (ropes (foldl (recolourStep tangled) s ids)) id = Some r'
             /\ RopeMesh.tangled r' = bool_decide (id ∈ tangled).
Proof.
  revert s. induction ids as [| id0 ids IH]; intros s Hnd Hin Hg [pa Ha] [pb Hb];
    [apply elem_of_nil in Hin; contradiction |].
  apply NoDup_cons in Hnd. destruct Hnd as [Hfresh Hnd]. cbn [foldl].
  destruct (decide (id0 = id)) as [-> | Hne].
  - rewrite recolour_other by exact Hfresh.
    unfold recolourStep. rewrite Hg, Ha, Hb. apply updateRopeMesh_flag with r, Hg.
  - apply elem_of_cons in Hin. destruct Hin as [-> | Hin]; [contradiction |].
    apply (IH _ Hnd Hin).
    + rewrite recolourStep_other by exact Hne. exact Hg.
    + destruct (recolourStep_same tangled s id0) as (_ & -> & _). eauto.
    + destruct (recolourStep_same tangled s id0) as (_ & -> & _). eauto.
Qed.

(** X4. After [checkIntersections], the material of every rope whose two pins
    exist has the tangled colour exactly when the rope's id is in
    [tangledIds] (the keys of a [Map] are pairwise distinct). *)
Theorem rope_colour_is_tangled_flag (s : State T) (id : string) (r : RopeMesh.t) :
  NoDup (map_keys (ropes s)) -> map_get (ropes s) id = Some r ->
  is_Some (pins s !! RopeMesh.p1 r) -> is_Some (pins s !! RopeMesh.p2 r) ->
  exists r', map_get (ropes (fst (checkIntersections s))) id = Some r'
             /\ RopeMesh.tangled r' = bool_decide (id ∈ tangledIds s).
Proof.
  intros Hnd Hg Ha Hb. unfold checkIntersections. cbn [fst].
  apply recolour_flag with r; try assumption.
  clear - Hg. unfold map_keys. induction (ropes s) as [| [k0 v0] m IH]; [discriminate |].
  cbn [map_get] in Hg. cbn. destruct (String.eqb_spec k0 id) as [-> | Hne].
  - apply elem_of_cons. left. reflexivity.
  - apply elem_of_cons. right. apply IH, Hg.
Qed.


(** X5. Pointer-down and pointer-move never change [isComplete]: a drag that
    passes through an untangled arrangement does not complete the level;
    only [checkWinCondition], at a pointer release, does. *)
Theorem pointer_move_never_completes (s : State T)
    (hit : option string) (q : option (Vector3.t T)) :
  isComplete (onPointerMove s q) = isComplete s
  /\ isComplete (onPointerDown s hit q) = isComplete s.
Proof.
  split.
  - unfold onPointerMove. destruct (selected s) as [sel |]; [| reflexivity].
    destruct (isComplete s) eqn:Hc; [exact Hc |].
    destruct q as [q |]; [| exact Hc].
    destruct (pins s !! sel) as [pin |]; [| reflexivity].
    match goal with
    | |- context [checkIntersections ?s0] =>
        destruct (checkIntersections_same s0) as (_ & _ & -> & _)
    end.
    reflexivity.
  - unfold onPointerDown. destruct (isComplete s) eqn:Hc; [exact Hc |].
    destruct hit; [reflexivity | exact Hc].
Qed.
End Flags.

Lemma rope_colour_is_tangled_flag_witness :
  exists r',
    map_get (ropes (fst (checkIntersections (initScene (squareLevel 10 10))))) "r0"
    = Some r'
    /\ RopeMesh.tangled r'
       = bool_decide ("r0" ∈ tangledIds (initScene (squareLevel 10 10))).
Proof.
  apply (rope_colour_is_tangled_flag (initScene (squareLevel 10 10)) "r0"
           (RopeMesh.mk "p0" "p2" true)).
  - apply (bool_decide_unpack _). vm_compute. exact I.
  - vm_compute. reflexivity.
  - eexists. vm_compute. reflexivity.
  - eexists. vm_compute. reflexivity.
Defined.

(* ------------------------------------------------------------------ *)
(** * Sessions: what pointer events preserve *)

Section Sessions.
Context {T : Type} {num : JsNumber T}.

Lemma set_ropes_id (s : State T) : set_ropes s (ropes s) = s.
Proof. destruct s. reflexivity. Qed.

Lemma updateRopeMesh_ropes_only (s : State T) (id : string) (b : bool) :
  updateRopeMesh s id b = set_ropes s (ropes (updateRopeMesh s id b)).
Proof.
  unfold updateRopeMesh.
  destruct (match levelData s with Some ld => _ | None => None end);
    [| destruct (map_get (ropes s) id)]; cbn [ropes set_ropes];
    try reflexivity. symmetry. apply set_ropes_id.
Qed.

Lemma recolourStep_ropes_only (tangled : gset string) (s : State T) (id : string) :
  recolourStep tangled s id = set_ropes s (ropes (recolourStep tangled s id)).
Proof.
  unfold recolourStep.
  destruct (map_get (ropes s) id) as [r |]; [| symmetry; apply set_ropes_id].
  destruct (pins s !! RopeMesh.p1 r); [| symmetry; apply set_ropes_id].
  destruct (pins s !! RopeMesh.p2 r); [| symmetry; apply set_ropes_id].
  apply updateRopeMesh_ropes_only.
Qed.

Lemma recolour_ropes_only (tangled : gset string) (ids : list string) (s : State T) :
  foldl (recolourStep tangled) s ids
  = set_ropes s (ropes (foldl (recolourStep tangled) s ids)).
Proof.
  revert s. induction ids as [| id ids IH]; intros s; cbn [foldl].
  - symmetry. apply set_ropes_id.
  - rewrite IH at 1. rewrite (recolourStep_ropes_only tangled s id) at 1.
    reflexivity.
Qed.

Lemma checkIntersections_ropes_only (s : State T) :
  fst (checkIntersections s) = set_ropes s (ropes (fst (checkIntersections s))).
Proof. apply recolour_ropes_only. Qed.

Lemma setGrabbed_dom (p : gmap string (Pin.t T)) (id : string) (g : bool) :
  dom (setGrabbed p id g) = dom p.
Proof.
  unfold setGrabbed. destruct (p !! id) as [pin |] eqn:E; [| reflexivity].
  apply dom_insert_lookup_L. rewrite E. eauto.
Qed.

Lemma handle_keeps_graph (s : State T) (e : PointerEvent T) :
  dom (pins (handle s e)) = dom (pins s)
  /\ map_keys (ropes (handle s e)) = map_keys (ropes s)
  /\ levelData (handle s e) = levelData s.
Proof.
  destruct e as [hit planeHit | planeHit |]; cbn [handle].
  - unfold onPointerDown. destruct (isComplete s); [auto |].
    destruct hit as [id |]; [| auto]. cbn [pins ropes levelData].
    rewrite setGrabbed_dom. auto.
  - unfold onPointerMove. destruct (selected s) as [sel |]; [| auto].
    destruct (isComplete s); [auto |]. destruct planeHit as [q |]; [| auto].
    destruct (pins s !! sel) as [pin |] eqn:E; [| auto].
    match goal with
    | |- context [checkIntersections ?s0] =>
        destruct (checkIntersections_same s0) as (-> & -> & _ & _ & -> & _)
    end.
    cbn [pins ropes levelData set_pins].
    rewrite dom_insert_lookup_L by (rewrite E; eauto). auto.
  - unfold onPointerUp. destruct (selected s) as [sel |]; [| auto].
    unfold checkWinCondition. cbn [initialized isComplete].
    destruct (negb (initialized s) || isComplete s).
    + cbn [pins ropes levelData]. rewrite setGrabbed_dom. auto.
    + match goal with
      | |- context [checkIntersections ?s0] =>
          pose proof (checkIntersections_same s0) as (Hk & Hp & _ & _ & Hl & _);
          destruct (checkIntersections s0) as [s' b]
      end.
      cbn [fst pins ropes levelData] in Hk, Hp, Hl.
      destruct ((0 <? length (ropes s'))%nat && b); cbn [pins ropes levelData];
        rewrite Hk, Hp, Hl, setGrabbed_dom; auto.
Qed.

(** X6. No sequence of pointer events adds or removes a pin or a rope, or
    replaces the level: the set of pin ids, the keys of the rope map in
    their order, and [levelData] stay as they were. *)
Theorem input_keeps_pins_and_ropes (s : State T) (events : list (PointerEvent T)) :
  dom (pins (foldl handle s events)) = dom (pins s)
  /\ map_keys (ropes (foldl handle s events)) = map_keys (ropes s)
  /\ levelData (foldl handle s events) = levelData s.
Proof.
  revert s. induction events as [| e events IH]; intros s; cbn [foldl]; [auto |].
  destruct (IH (handle s e)) as (-> & -> & ->). apply handle_keeps_graph.
Qed.

Lemma initScene_inv (ld : LevelData.t T) : sessionInv (initScene ld).
Proof.
  unfold initScene, sessionInv. rewrite checkIntersections_ropes_only.
  cbn. auto.
Qed.

Lemma handle_inv (s : State T) (e : PointerEvent T) :
  sessionInv s -> sessionInv (handle s e).
Proof.
  unfold sessionInv. intros (Hi & Hsel & Hc).
  destruct e as [hit planeHit | planeHit |]; cbn [handle].
  - unfold onPointerDown. destruct (isComplete s) eqn:Ec; [rewrite Ec; tauto |].
    destruct hit as [id |]; cbn; rewrite ?Ec; repeat split; auto; intros; discriminate.
  - unfold onPointerMove. destruct (selected s) as [sel |]; [| tauto].
    destruct (isComplete s) eqn:Ec; [rewrite Ec; tauto |].
    destruct planeHit as [q |]; [| rewrite Ec; tauto].
    destruct (pins s !! sel) as [pin |];
      [rewrite checkIntersections_ropes_only |]; cbn; rewrite ?Ec;
      repeat split; auto; intros; discriminate.
  - unfold onPointerUp. destruct (selected s) as [sel |]; [| tauto].
    unfold checkWinCondition. cbn [initialized isComplete]. rewrite Hi. cbn [negb orb].
    destruct (isComplete s) eqn:Ec; [cbn; rewrite ?Ec; tauto |].
    match goal with
    | |- context [checkIntersections ?s0] =>
        pose proof (checkIntersections_ropes_only s0) as E;
        destruct (checkIntersections s0) as [s' b]
    end.
    cbn [fst] in E. rewrite E.
    destruct ((0 <? length _)%nat && b); cbn; rewrite ?Ec, ?Hc; repeat split; auto.
Qed.

Lemma play_inv (ld : LevelData.t T) (events : list (PointerEvent T)) :
  sessionInv (play ld events).
Proof.
  unfold play. generalize (initScene_inv ld). generalize (initScene ld).
  induction events as [| e events IH]; intros s Hs; cbn [foldl]; [exact Hs |].
  apply IH, handle_inv, Hs.
Qed.

(** X7. In every state of a session, once the level is complete every
    pointer event leaves the whole state as it is: the release that
    completed the level cleared the selection, so nothing is grabbed,
    moved, recoloured or counted as a move any more. *)
Theorem completed_level_ignores_input (ld : LevelData.t T)
    (events : list (PointerEvent T)) (e : PointerEvent T) :
  isComplete (play ld events) = true ->
  handle (play ld events) e = play ld events.
Proof.
  intros Hc. destruct (play_inv ld events) as (_ & Hsel & _).
  specialize (Hsel Hc). generalize dependent (play ld events). intros s Hc Hsel.
  destruct e as [hit planeHit | planeHit |]; cbn [handle].
  - unfold onPointerDown. rewrite Hc. reflexivity.
  - unfold onPointerMove, selected. rewrite Hsel. reflexivity.
  - unfold onPointerUp, selected. rewrite Hsel. reflexivity.
Qed.

Lemma handle_moves (s : State T) (e : PointerEvent T) :
  moves (handle s e)
  = (moves s + match e, selected s with PointerUp, Some _ => 1 | _, _ => 0 end)%nat.
Proof.
  destruct e as [hit planeHit | planeHit |]; cbn [handle].
  - unfold onPointerDown. destruct (isComplete s); [lia |].
    destruct hit; cbn [moves]; lia.
  - unfold onPointerMove. destruct (selected s) as [sel |]; [| lia].
    destruct (isComplete s); [lia |]. destruct planeHit as [q |]; [| lia].
    destruct (pins s !! sel) as [pin |]; [| cbn [moves]; lia].
    rewrite checkIntersections_ropes_only. cbn [moves set_ropes set_pins]. lia.
  - unfold onPointerUp. destruct (selected s) as [sel |]; [| lia].
    unfold checkWinCondition. cbn [initialized isComplete].
    destruct (negb (initialized s) || isComplete s); [cbn [moves]; lia |].
    match goal with
    | |- context [checkIntersections ?s0] =>
        pose proof (checkIntersections_ropes_only s0) as E;
        destruct (checkIntersections s0) as [s' b]
    end.
    cbn [fst] in E. rewrite E.
    destruct ((0 <? length _)%nat && b); cbn [moves set_ropes]; lia.
Qed.

(** X8. In a session, [onComplete] is scheduled at most once, and exactly
    when the level has been completed; [onMove] is called once at each
    pointer release that had a pin selected (whether or not the pin was
    moved) and at no other event, so the move count is at most the number
    of pointer releases. *)
Theorem callbacks_are_counted (ld : LevelData.t T) (events : list (PointerEvent T))
    (e : PointerEvent T) :
  completions (play ld events) = (if isComplete (play ld events) then 1 else 0)%nat
  /\ moves (handle (play ld events) e)
     = (moves (play ld events)
        + match e, selected (play ld events) with
          | PointerUp, Some _ => 1
          | _, _ => 0
          end)%nat
  /\ (moves (play ld events) <= length (List.filter isPointerUp events))%nat.
Proof.
  split; [apply play_inv |]. split; [apply handle_moves |].
  unfold play.
  assert (Hgen : forall s : State T,
             (moves (foldl handle s events)
              <= moves s + length (List.filter isPointerUp events))%nat).
  { induction events as [| e0 events IH]; intros s; cbn [foldl List.filter]; [cbn; lia |].
    specialize (IH (handle s e0)). pose proof (handle_moves s e0) as Hm.
    destruct e0; cbn [isPointerUp length] in *; [lia | lia |].
    destruct (selected s); lia. }
  specialize (Hgen (initScene ld)).
  assert (moves (initScene ld) = 0%nat) as E0
    by (unfold initScene; rewrite checkIntersections_ropes_only; reflexivity).
  lia.
Qed.
End Sessions.

(* ------------------------------------------------------------------ *)
(** * The drag bounds in binary64 *)

Lemma compare_cont_Eq_spec (m1 m2 : positive) :
  match Pos.compare_cont Eq m1 m2 with
  | Eq => Zpos m1 = Zpos m2
  | Lt => Zpos m1 < Zpos m2
  | Gt => Zpos m2 < Zpos m1
  end.
Proof.
  change (Pos.compare_cont Eq m1 m2) with (Pos.compare m1 m2).
  destruct (Pos.compare_spec m1 m2); [subst; reflexivity | lia | lia].
Qed.

Lemma SFltb_orderKey (x y : spec_float) (kx ky : Z * Z * Z) :
  orderKey x = Some kx -> orderKey y = Some ky ->
  (SFltb x y = true <-> keyLt kx ky).
Proof.
  unfold SFltb, keyLt.
  destruct x as [sx | [|] | | [|] m1 e1], y as [sy | [|] | | [|] m2 e2];
    cbn [orderKey SFcompare]; intros [= <-] [= <-]; cbn [fst snd];
    try (split; [discriminate | lia]); try (split; [lia | discriminate]);
    try (split; [reflexivity | lia]); try (split; [lia | reflexivity]);
    try (split; [intros _; lia | reflexivity]).
  - pose proof (compare_cont_Eq_spec m1 m2) as Hm.
    destruct (Z.compare_spec e1 e2) as [-> | He | He];
      [destruct (Pos.compare_cont Eq m1 m2) | |]; cbn [CompOpp];
      (split; [try discriminate; intros _; lia | try reflexivity; lia]).
  - pose proof (compare_cont_Eq_spec m1 m2) as Hm.
    destruct (Z.compare_spec e1 e2) as [-> | He | He];
      [destruct (Pos.compare_cont Eq m1 m2) | |];
      (split; [try discriminate; intros _; lia | try reflexivity; lia]).
Qed.

Lemma ltb_nan_l (x y : float) : Prim2SF x = S754_nan -> (x <? y)%float = false.
Proof. intros E. rewrite ltb_spec. unfold SFltb. rewrite E. reflexivity. Qed.

Lemma ltb_nan_r (x y : float) : Prim2SF y = S754_nan -> (x <? y)%float = false.
Proof.
  intros E. rewrite ltb_spec. unfold SFltb. rewrite E.
  destruct (Prim2SF x) as [? | [|] | | [|] ? ?]; reflexivity.
Qed.

Lemma ltb_irrefl (x : float) : (x <? x)%float = false.
Proof.
  destruct (orderKey (Prim2SF x)) as [k |] eqn:E.
  - apply not_true_iff_false. rewrite ltb_spec, (SFltb_orderKey _ _ k k E E).
    unfold keyLt. lia.
  - apply ltb_nan_l. destruct (Prim2SF x) as [? | [|] | | [|] ? ?]; try discriminate.
    reflexivity.
Qed.

Lemma ltb_asym (x y : float) : (x <? y)%float = true -> (y <? x)%float = false.
Proof.
  intros Hlt.
  destruct (orderKey (Prim2SF x)) as [kx |] eqn:Ex.
  - destruct (orderKey (Prim2SF y)) as [ky |] eqn:Ey.
    + apply not_true_iff_false. rewrite ltb_spec, (SFltb_orderKey _ _ ky kx Ey Ex).
      rewrite ltb_spec, (SFltb_orderKey _ _ kx ky Ex Ey) in Hlt.
      unfold keyLt in *. lia.
    + apply ltb_nan_l. destruct (Prim2SF y) as [? | [|] | | [|] ? ?]; try discriminate.
      reflexivity.
  - apply ltb_nan_r. destruct (Prim2SF x) as [? | [|] | | [|] ? ?]; try discriminate.
    reflexivity.
Qed.

Lemma is_nan_true (x : float) :
  is_nan x = true -> forall y, (x <? y)%float = false /\ (y <? x)%float = false.
Proof.
  unfold is_nan. intros E y. apply negb_true_iff in E. rewrite FloatAxioms.eqb_spec in E.
  assert (En : Prim2SF x = S754_nan).
  { unfold SFeqb in E. destruct (Prim2SF x) as [? | [|] | | [|] m e]; cbn in E;
      try discriminate; try reflexivity.
    - rewrite Z.compare_refl in E.
      change (Pos.compare_cont Eq m m) with (Pos.compare m m) in E.
      rewrite Pos.compare_refl in E. discriminate.
    - rewrite Z.compare_refl in E.
      change (Pos.compare_cont Eq m m) with (Pos.compare m m) in E.
      rewrite Pos.compare_refl in E. discriminate. }
  split; [apply ltb_nan_l | apply ltb_nan_r]; exact En.
Qed.

(** The result of [clamp] is never below the lower bound nor above the
    upper one (for a NaN both comparisons are false as well). *)
Lemma clamp_bounds (v lo hi : float) :
  (hi <? lo)%float = false ->
  (clamp v lo hi <? lo)%float = false /\ (hi <? clamp v lo hi)%float = false.
Proof.
  intros Hlh. unfold clamp. cbn [n_max n_min binary64].
  assert (Hnan : forall y, (nan <? y)%float = false /\ (y <? nan)%float = false)
    by (apply is_nan_true; reflexivity).
  assert (Hm : (hi <? Math_min hi v)%float = false).
  { unfold Math_min. destruct (is_nan hi || is_nan v)%bool; [apply Hnan |].
    destruct (hi <? v)%float eqn:E1; [apply ltb_irrefl |].
    destruct (v <? hi)%float eqn:E2; [exact E1 |].
    destruct (get_sign hi); [apply ltb_irrefl | exact E1]. }
  set (m := Math_min hi v) in *. unfold Math_max.
  destruct (is_nan lo || is_nan m)%bool; [split; apply Hnan |].
  destruct (lo <? m)%float eqn:E1; [split; [apply ltb_asym, E1 | exact Hm] |].
  destruct (m <? lo)%float eqn:E2; [split; [apply ltb_irrefl | exact Hlh] |].
  destruct (get_sign lo); [split; [exact E2 | exact Hm] |].
  split; [apply ltb_irrefl | exact Hlh].
Qed.

(** X9. In binary64, a pointer move with a pin selected puts that pin at
    a position whose x is neither below -9 nor above 9 and whose y is
    neither below -14 nor above 14, for every point the ray may hit
    (infinite and NaN coordinates included: a NaN stays NaN, for which
    both comparisons are false); z is the difference of the hit point and
    the drag offset, the scale is kept, and no other pin changes. *)
Theorem dragged_pin_stays_in_bounds (s : State float) (sel : string)
    (pin : Pin.t float) (q : Vector3.t float) :
  selected s = Some sel -> isComplete s = false -> pins s !! sel = Some pin ->
  exists pin',
    pins (onPointerMove s (Some q)) !! sel = Some pin'
    /\ ((Vector3.x (Pin.position pin') <? -9)%float = false
        /\ (9 <? Vector3.x (Pin.position pin'))%float = false)
    /\ ((Vector3.y (Pin.position pin') <? -14)%float = false
        /\ (14 <? Vector3.y (Pin.position pin'))%float = false)
    /\ Vector3.z (Pin.position pin') = (Vector3.z q - Vector3.z (dragOffset s))%float
    /\ Pin.grabbed pin' = Pin.grabbed pin
    /\ forall id, id <> sel -> pins (onPointerMove s (Some q)) !! id = pins s !! id.
Proof.
  intros Hsel Hc Hpin. unfold onPointerMove. rewrite Hsel, Hc, Hpin.
  match goal with
  | |- context [checkIntersections ?s0] =>
      destruct (checkIntersections_same s0) as (_ & -> & _)
  end.
  cbn [pins set_pins]. eexists. split; [apply lookup_insert_eq |].
  cbn [Pin.position Pin.grabbed Vector3.x Vector3.y Vector3.z vsub].
  split; [apply clamp_bounds; reflexivity |].
  split; [apply clamp_bounds; reflexivity |].
  split; [reflexivity |]. split; [reflexivity |].
  intros id Hne. apply lookup_insert_ne. congruence.
Qed.

(* ------------------------------------------------------------------ *)
(** * The evaluation in the states of a session *)

Lemma map_keys_cons {V : Type} (k : string) (v : V) (m : list (string * V)) :
  map_keys ((k, v) :: m) = k :: map_keys m.
Proof. reflexivity. Qed.

Lemma map_set_keys_elem {V : Type} (m : list (string * V)) (k x : string) (v : V) :
  x ∈ map_keys (map_set m k v) <-> x = k \/ x ∈ map_keys m.
Proof.
  induction m as [| [k0 v0] m IH]; cbn [map_set].
  - rewrite map_keys_cons, elem_of_cons. reflexivity.
  - destruct (String.eqb_spec k0 k) as [-> | Hne];
      rewrite !map_keys_cons, !elem_of_cons; [tauto |]. rewrite IH. tauto.
Qed.

Lemma map_set_NoDup {V : Type} (m : list (string * V)) (k : string) (v : V) :
  NoDup (map_keys m) -> NoDup (map_keys (map_set m k v)).
Proof.
  induction m as [| [k0 v0] m IH]; cbn [map_set]; intros Hnd.
  - apply NoDup_singleton.
  - rewrite map_keys_cons in Hnd. apply NoDup_cons in Hnd.
    destruct Hnd as [Hfresh Hnd].
    destruct (String.eqb_spec k0 k) as [-> | Hne]; rewrite map_keys_cons;
      apply NoDup_cons; (split; [| auto]); [exact Hfresh |].
    rewrite map_set_keys_elem. intros [-> | Hin]; [congruence | contradiction].
Qed.

Lemma map_get_Some_key {V : Type} (m : list (string * V)) (k : string) (v : V) :
  map_get m k = Some v -> k ∈ map_keys m.
Proof.
  unfold map_keys. induction m as [| [k0 v0] m IH]; [discriminate |].
  cbn [map_get]. cbn. destruct (String.eqb_spec k0 k) as [-> | Hne].
  - intros _. apply elem_of_cons. left. reflexivity.
  - intros Hg. apply elem_of_cons. right. apply IH, Hg.
Qed.

Lemma map_set_same {V : Type} (m : list (string * V)) (k : string) (v : V) :
  map_get m k = Some v -> map_set m k v = m.
Proof.
  induction m as [| [k0 v0] m IH]; [discriminate |].
  cbn [map_get map_set]. destruct (String.eqb_spec k0 k) as [-> | Hne].
  - intros [= ->]. reflexivity.
  - intros Hg. rewrite IH by exact Hg. reflexivity.
Qed.

Section Idempotence.
Context {T : Type} {num : JsNumber T}.

Lemma sameEnds_refl (s : State T) : sameEnds s s.
Proof. repeat split. Qed.

Lemma sameEnds_trans (s1 s2 s3 : State T) :
  sameEnds s1 s2 -> sameEnds s2 s3 -> sameEnds s1 s3.
Proof.
  intros (Hp & Hl & Hk & He) (Hp' & Hl' & Hk' & He').
  repeat split; try congruence.
Qed.

Lemma sameEnds_consistent (s s' : State T) :
  sameEnds s s' -> consistent s -> consistent s'.
Proof.
  intros (_ & Hl & _ & He) Hc ld id r' rd Eld Hg Hf.
  specialize (He id). rewrite Hg in He.
  destruct (map_get (ropes s) id) as [r |] eqn:Hg0; [| discriminate].
  injection He as E1 E2. rewrite E1, E2.
  apply (Hc ld id r rd); congruence.
Qed.

Lemma updateRopeMesh_sameEnds (s : State T) (id : string) (r : RopeMesh.t) (b : bool) :
  consistent s -> map_get (ropes s) id = Some r -> sameEnds s (updateRopeMesh s id b).
Proof.
  intros Hc Hg.
  assert (Hs : sameScene s (updateRopeMesh s id b))
    by (eapply updateRopeMesh_same, Hg).
  destruct Hs as (Hk & Hp & _ & _ & Hl & _).
  repeat split; try assumption. intros id'.
  destruct (decide (id = id')) as [<- | Hne].
  - rewrite Hg. unfold updateRopeMesh. rewrite Hg.
    destruct (levelData s) as [ld |] eqn:Eld.
    + destruct (find _ (LevelData.ropes ld)) as [rd |] eqn:Ef; cbn [ropes set_ropes];
        rewrite map_get_set_same; [| reflexivity].
      destruct (Hc ld id r rd Eld Hg Ef) as [-> ->]. reflexivity.
    + cbn [ropes set_ropes]. rewrite map_get_set_same. reflexivity.
  - rewrite updateRopeMesh_other by exact Hne. reflexivity.
Qed.

Lemma recolourStep_sameEnds (tangled : gset string) (s : State T) (id : string) :
  consistent s -> sameEnds s (recolourStep tangled s id).
Proof.
  intros Hc. unfold recolourStep.
  destruct (map_get (ropes s) id) as [r |] eqn:Hg; [| apply sameEnds_refl].
  destruct (pins s !! RopeMesh.p1 r); [| apply sameEnds_refl].
  destruct (pins s !! RopeMesh.p2 r); [| apply sameEnds_refl].
  eapply updateRopeMesh_sameEnds; eassumption.
Qed.

Lemma recolour_sameEnds (tangled : gset string) (ids : list string) (s : State T) :
  consistent s -> sameEnds s (foldl (recolourStep tangled) s ids).
Proof.
  revert s. induction ids as [| id ids IH]; intros s Hc; cbn [foldl].
  - apply sameEnds_refl.
  - pose proof (recolourStep_sameEnds tangled s id Hc) as H1.
    eapply sameEnds_trans; [exact H1 |].
    apply IH. eapply sameEnds_consistent; eassumption.
Qed.

Lemma checkIntersections_sameEnds (s : State T) :
  consistent s -> sameEnds s (fst (checkIntersections s)).
Proof. apply recolour_sameEnds. Qed.

Lemma sameEnds_crossingTest (s s' : State T) (k1 k2 : string) :
  sameEnds s s' -> crossingTest s' k1 k2 = crossingTest s k1 k2.
Proof.
  intros (Hp & _ & _ & He). unfold crossingTest. rewrite Hp.
  pose proof (He k1) as H1. pose proof (He k2) as H2.
  destruct (map_get (ropes s') k1) as [r1' |], (map_get (ropes s) k1) as [r1 |];
    try discriminate; try reflexivity.
  destruct (map_get (ropes s') k2) as [r2' |], (map_get (ropes s) k2) as [r2 |];
    try discriminate; try reflexivity.
  injection H1 as E1 E1'. injection H2 as E2 E2'.
  unfold sharesEndpoint. rewrite E1, E1', E2, E2'. reflexivity.
Qed.

Lemma innerLoop_ext (s s' : State T) (k1 : string) (rest : list string)
    (acc : gset string) :
  (forall k1 k2, crossingTest s' k1 k2 = crossingTest s k1 k2) ->
  innerLoop s' k1 rest acc = innerLoop s k1 rest acc.
Proof.
  intros Hx. unfold innerLoop. revert acc.
  induction rest as [| k2 rest IH]; intros acc; cbn [foldl]; [reflexivity |].
  rewrite IH. unfold pairStep. rewrite Hx. reflexivity.
Qed.

Lemma outerLoop_ext (s s' : State T) (keys : list string) (acc : gset string) :
  (forall k1 k2, crossingTest s' k1 k2 = crossingTest s k1 k2) ->
  outerLoop s' keys acc = outerLoop s keys acc.
Proof.
  intros Hx. revert acc. induction keys as [| k1 rest IH]; intros acc; cbn [outerLoop];
    [reflexivity |].
  rewrite IH, (innerLoop_ext s s') by exact Hx. reflexivity.
Qed.

Lemma sameEnds_tangledIds (s s' : State T) :
  sameEnds s s' -> tangledIds s' = tangledIds s.
Proof.
  intros Hs. unfold tangledIds. destruct Hs as (Hp & Hl & Hk & He). rewrite Hk.
  apply outerLoop_ext. intros k1 k2. apply sameEnds_crossingTest.
  repeat split; assumption.
Qed.

(** A rope that already has the colour it is given is left as it is. *)
Lemma recolourStep_fixed (tangled : gset string) (s : State T) (id : string) :
  consistent s ->
  (forall r, map_get (ropes s) id = Some r ->
             is_Some (pins s !! RopeMesh.p1 r) -> is_Some (pins s !! RopeMesh.p2 r) ->
             RopeMesh.tangled r = bool_decide (id ∈ tangled)) ->
  recolourStep tangled s id = s.
Proof.
  intros Hc Hflag. unfold recolourStep.
  destruct (map_get (ropes s) id) as [r |] eqn:Hg; [| reflexivity].
  destruct (pins s !! RopeMesh.p1 r) as [pa |] eqn:Ea; [| reflexivity].
  destruct (pins s !! RopeMesh.p2 r) as [pb |] eqn:Eb; [| reflexivity].
  rewrite <- (Hflag r eq_refl) by eauto.
  unfold updateRopeMesh. rewrite Hg.
  assert (Hfix : forall a b, a = RopeMesh.p1 r -> b = RopeMesh.p2 r ->
            set_ropes s (map_set (ropes s) id (RopeMesh.mk a b (RopeMesh.tangled r))) = s).
  { intros a b -> ->. rewrite map_set_same; [apply set_ropes_id |].
    rewrite Hg. destruct r. reflexivity. }
  destruct (levelData s) as [ld |] eqn:Eld.
  - destruct (find _ (LevelData.ropes ld)) as [rd |] eqn:Ef.
    + destruct (Hc ld id r rd Eld Hg Ef) as [E1 E2]. apply Hfix; assumption.
    + apply Hfix; reflexivity.
  - apply Hfix; reflexivity.
Qed.

Lemma recolour_fixed (tangled : gset string) (ids : list string) (s : State T) :
  (forall id, id ∈ ids -> recolourStep tangled s id = s) ->
  foldl (recolourStep tangled) s ids = s.
Proof.
  induction ids as [| id ids IH]; intros Hfix; cbn [foldl]; [reflexivity |].
  rewrite Hfix by (apply elem_of_cons; left; reflexivity).
  apply IH. intros id' Hin. apply Hfix, elem_of_cons. right. exact Hin.
Qed.

Lemma checkIntersections_idem (s : State T) :
  NoDup (map_keys (ropes s)) -> consistent s ->
  tangledIds (fst (checkIntersections s)) = tangledIds s
  /\ checkIntersections (fst (checkIntersections s)) = checkIntersections s.
Proof.
  intros Hnd Hc.
  pose proof (checkIntersections_sameEnds s Hc) as Hs.
  pose proof (sameEnds_tangledIds _ _ Hs) as Ht.
  split; [exact Ht |].
  set (s1 := fst (checkIntersections s)) in *.
  unfold checkIntersections at 1. rewrite Ht.
  assert (Hfixed : foldl (recolourStep (tangledIds s)) s1 (map_keys (ropes s1)) = s1).
  { apply recolour_fixed. intros id _. apply recolourStep_fixed.
    - eapply sameEnds_consistent; eassumption.
    - intros r1 Hg1 Ha Hb. destruct Hs as (Hp & Hl & Hk & He).
      pose proof (He id) as Hid. rewrite Hg1 in Hid.
      destruct (map_get (ropes s) id) as [r |] eqn:Hg; [| discriminate].
      injection Hid as E1 E2. rewrite Hp, E1 in Ha. rewrite Hp, E2 in Hb.
      destruct (recolour_flag (tangledIds s) (map_keys (ropes s)) s id r Hnd
                  (map_get_Some_key _ _ _ Hg) Hg Ha Hb) as (r' & Hg' & Hfl).
      fold (fst (checkIntersections s)) in Hg'.
      change (foldl (recolourStep (tangledIds s)) s (map_keys (ropes s)))
        with s1 in Hg'.
      congruence. }
  rewrite Hfixed. unfold checkIntersections. cbn [fst]. unfold s1.
  unfold checkIntersections. reflexivity.
Qed.
End Idempotence.

Section Reach.
Context {T : Type} {num : JsNumber T}.

Lemma samePlace_lookup (s s' : State T) (k : string) :
  samePlace s s' ->
  Pin.position <$> (pins s' !! k) = Pin.position <$> (pins s !! k).
Proof. intros (_ & _ & Hp). rewrite <- !lookup_fmap, Hp. reflexivity. Qed.

Lemma samePlace_crossingTest (s s' : State T) (k1 k2 : string) :
  samePlace s s' -> crossingTest s' k1 k2 = crossingTest s k1 k2.
Proof.
  intros Hs. pose proof (fun k => samePlace_lookup s s' k Hs) as Hl.
  destruct Hs as (Hr & _ & _). unfold crossingTest. rewrite Hr.
  destruct (map_get (ropes s) k1) as [r1 |]; [| reflexivity].
  destruct (map_get (ropes s) k2) as [r2 |]; [| reflexivity].
  destruct (sharesEndpoint r1 r2); [reflexivity |].
  pose proof (Hl (RopeMesh.p1 r1)) as H1. pose proof (Hl (RopeMesh.p2 r1)) as H2.
  pose proof (Hl (RopeMesh.p1 r2)) as H3. pose proof (Hl (RopeMesh.p2 r2)) as H4.
  destruct (pins s' !! RopeMesh.p1 r1) as [a' |], (pins s !! RopeMesh.p1 r1) as [a |];
    try discriminate; try reflexivity.
  destruct (pins s' !! RopeMesh.p2 r1) as [b' |], (pins s !! RopeMesh.p2 r1) as [b |];
    try discriminate; try reflexivity.
  destruct (pins s' !! RopeMesh.p1 r2) as [c' |], (pins s !! RopeMesh.p1 r2) as [c |];
    try discriminate; try reflexivity.
  destruct (pins s' !! RopeMesh.p2 r2) as [d' |], (pins s !! RopeMesh.p2 r2) as [d |];
    try discriminate; try reflexivity.
  cbn in H1, H2, H3, H4. congruence.
Qed.

Lemma samePlace_tangledIds (s s' : State T) :
  samePlace s s' -> tangledIds s' = tangledIds s.
Proof.
  intros Hs. unfold tangledIds. destruct Hs as (Hr & Hl & Hp). rewrite Hr.
  apply outerLoop_ext. intros k1 k2. apply samePlace_crossingTest.
  repeat split; assumption.
Qed.

Lemma samePlace_sceneInv (s s' : State T) :
  samePlace s s' -> sceneInv s -> sceneInv s'.
Proof.
  intros Hs (Hnd & Hc & Hcol).
  pose proof (samePlace_tangledIds s s' Hs) as Ht.
  pose proof (fun k => samePlace_lookup s s' k Hs) as Hl.
  destruct Hs as (Hr & Hld & Hp).
  split; [rewrite Hr; exact Hnd | split].
  - intros ld id r rd Eld Hg Hf. apply (Hc ld id r rd); congruence.
  - intros id r Hg Ha Hb. rewrite Ht. rewrite Hr in Hg. apply Hcol; [exact Hg | |].
    + specialize (Hl (RopeMesh.p1 r)). destruct Ha as [a Ea]. rewrite Ea in Hl.
      destruct (pins s !! RopeMesh.p1 r); [eauto | discriminate].
    + specialize (Hl (RopeMesh.p2 r)). destruct Hb as [b Eb]. rewrite Eb in Hl.
      destruct (pins s !! RopeMesh.p2 r); [eauto | discriminate].
Qed.

Lemma checkIntersections_sceneInv (s : State T) :
  NoDup (map_keys (ropes s)) -> consistent s -> sceneInv (fst (checkIntersections s)).
Proof.
  intros Hnd Hc.
  pose proof (checkIntersections_sameEnds s Hc) as Hs.
  pose proof (sameEnds_tangledIds _ _ Hs) as Ht.
  split; [| split].
  - destruct Hs as (_ & _ & -> & _). exact Hnd.
  - eapply sameEnds_consistent; eassumption.
  - intros id r1 Hg1 Ha Hb. rewrite Ht. destruct Hs as (Hp & Hl & Hk & He).
    pose proof (He id) as Hid. rewrite Hg1 in Hid.
    destruct (map_get (ropes s) id) as [r |] eqn:Hg; [| discriminate].
    injection Hid as E1 E2. rewrite Hp, E1 in Ha. rewrite Hp, E2 in Hb.
    destruct (recolour_flag (tangledIds s) (map_keys (ropes s)) s id r Hnd
                (map_get_Some_key _ _ _ Hg) Hg Ha Hb) as (r' & Hg' & Hfl).
    unfold checkIntersections in Hg1. cbn [fst] in Hg1. congruence.
Qed.

Lemma handle_sceneInv (s : State T) (e : PointerEvent T) :
  sceneInv s -> sceneInv (handle s e).
Proof.
  intros Hinv. destruct e as [hit planeHit | planeHit |]; cbn [handle].
  - unfold onPointerDown. destruct (isComplete s); [exact Hinv |].
    destruct hit as [id |]; [| exact Hinv].
    apply (samePlace_sceneInv s); [| exact Hinv].
    repeat split; cbn [ropes levelData pins]. apply setGrabbed_positions.
  - unfold onPointerMove. destruct (selected s) as [sel |]; [| exact Hinv].
    destruct (isComplete s); [exact Hinv |].
    destruct planeHit as [q |]; [| exact Hinv].
    destruct (pins s !! sel) as [pin |].
    + destruct Hinv as (Hnd & Hc & _).
      apply checkIntersections_sceneInv; [exact Hnd |].
      intros ld id r rd. apply Hc.
    + apply (samePlace_sceneInv s); [| exact Hinv]. repeat split.
  - unfold onPointerUp. destruct (selected s) as [sel |]; [| exact Hinv].
    match goal with |- sceneInv (checkWinCondition ?s0) => set (s1 := s0) end.
    assert (H1 : sceneInv s1).
    { apply (samePlace_sceneInv s); [| exact Hinv].
      repeat split; cbn [ropes levelData pins]. apply setGrabbed_positions. }
    unfold checkWinCondition.
    destruct (negb (initialized s1) || isComplete s1); [exact H1 |].
    destruct H1 as (Hnd & Hc & _).
    pose proof (checkIntersections_sceneInv s1 Hnd Hc) as H2.
    destruct (checkIntersections s1) as [s' b]. cbn [fst] in H2.
    destruct ((0 <? length (ropes s'))%nat && b); [| exact H2].
    apply (samePlace_sceneInv s'); [| exact H2]. repeat split.
Qed.

Lemma NoDup_fmap_eq {A B : Type} (f : A -> B) (l : list A) (x y : A) :
  NoDup (f <$> l) -> x ∈ l -> y ∈ l -> f x = f y -> x = y.
Proof.
  induction l as [| a l IH]; intros Hnd Hx Hy E; [apply elem_of_nil in Hx; contradiction |].
  rewrite fmap_cons in Hnd. apply NoDup_cons in Hnd. destruct Hnd as [Hfresh Hnd].
  apply elem_of_cons in Hx. apply elem_of_cons in Hy.
  destruct Hx as [-> | Hx], Hy as [-> | Hy].
  - reflexivity.
  - exfalso. apply Hfresh. rewrite E. apply list_elem_of_fmap_2, Hy.
  - exfalso. apply Hfresh. rewrite <- E. apply list_elem_of_fmap_2, Hx.
  - apply IH; assumption.
Qed.

Lemma mounted_ropes_get (p : gmap string (Pin.t T)) (l : list Rope.t)
    (m : list (string * RopeMesh.t)) (id : string) (r : RopeMesh.t) :
  map_get (foldl (addRopeMesh p) m l) id = Some r ->
  map_get m id = Some r
  \/ exists rope, rope ∈ l /\ Rope.id rope = id
                  /\ r = RopeMesh.mk (Rope.p1 rope) (Rope.p2 rope) true.
Proof.
  revert m. induction l as [| rope l IH]; intros m; cbn [foldl]; [auto |].
  intros Hg. destruct (IH _ Hg) as [Hm | (rope' & Hin & Hid & Hr)].
  - unfold addRopeMesh in Hm.
    destruct (p !! Rope.p1 rope), (p !! Rope.p2 rope); auto.
    destruct (decide (Rope.id rope = id)) as [E | Hne].
    + rewrite E, map_get_set_same in Hm. injection Hm as <-.
      right. exists rope. split; [apply elem_of_cons; auto | auto].
    + rewrite map_get_set_other in Hm by exact Hne. auto.
  - right. exists rope'. split; [apply elem_of_cons; auto | auto].
Qed.

Lemma mounted_ropes_NoDup (p : gmap string (Pin.t T)) (l : list Rope.t)
    (m : list (string * RopeMesh.t)) :
  NoDup (map_keys m) -> NoDup (map_keys (foldl (addRopeMesh p) m l)).
Proof.
  revert m. induction l as [| rope l IH]; intros m Hnd; cbn [foldl]; [exact Hnd |].
  apply IH. unfold addRopeMesh.
  destruct (p !! Rope.p1 rope), (p !! Rope.p2 rope); auto using map_set_NoDup.
Qed.

Lemma find_id_Some (l : list Rope.t) (id : string) (rd : Rope.t) :
  find (fun x => String.eqb (Rope.id x) id) l = Some rd -> rd ∈ l /\ Rope.id rd = id.
Proof.
  induction l as [| a l IH]; cbn [find]; [discriminate |].
  destruct (String.eqb_spec (Rope.id a) id) as [E | Hne].
  - intros [= <-]. split; [apply elem_of_cons; auto | exact E].
  - intros Hf. destruct (IH Hf). split; [apply elem_of_cons; auto | assumption].
Qed.

Lemma mount_consistent (ld : LevelData.t T) (sel : option string)
    (di off : Vector3.t T) (p : gmap string (Pin.t T)) (c i : bool) (mv cp : nat) :
  NoDup (Rope.id <$> LevelData.ropes ld) ->
  consistent (mkState sel di off p (foldl (addRopeMesh p) [] (LevelData.ropes ld))
                (Some ld) c i mv cp).
Proof.
  intros Hids ld' id r rd. cbn [levelData ropes]. intros [= <-] Hg Hf.
  destruct (mounted_ropes_get _ _ _ _ _ Hg) as [Hm | (rope & Hin & Hid & ->)];
    [discriminate |].
  destruct (find_id_Some _ _ _ Hf) as [Hrd Hrid].
  assert (rd = rope) as ->
    by (apply (NoDup_fmap_eq Rope.id (LevelData.ropes ld)); congruence).
  split; reflexivity.
Qed.

Lemma initScene_sceneInv (ld : LevelData.t T) :
  NoDup (Rope.id <$> LevelData.ropes ld) -> sceneInv (initScene ld).
Proof.
  intros Hids. unfold initScene. apply checkIntersections_sceneInv; cbn [ropes].
  - apply mounted_ropes_NoDup. apply NoDup_nil_2.
  - apply mount_consistent, Hids.
Qed.

Lemma play_sceneInv (ld : LevelData.t T) (events : list (PointerEvent T)) :
  NoDup (Rope.id <$> LevelData.ropes ld) -> sceneInv (play ld events).
Proof.
  intros Hids. unfold play. generalize (initScene_sceneInv ld Hids).
  generalize (initScene ld).
  induction events as [| e events IH]; intros s Hs; cbn [foldl]; [exact Hs |].
  apply IH, handle_sceneInv, Hs.
Qed.

(** X10. For a level whose rope ids are distinct, in every state of a
    session each rope with both pins present has the tangled colour
    exactly when its id is in [tangledIds] of the current pin positions:
    no event leaves a stale colour. *)
Theorem rope_colours_are_current (ld : LevelData.t T) (events : list (PointerEvent T))
    (id : string) (r : RopeMesh.t) :
  NoDup (Rope.id <$> LevelData.ropes ld) ->
  map_get (ropes (play ld events)) id = Some r ->
  is_Some (pins (play ld events) !! RopeMesh.p1 r) ->
  is_Some (pins (play ld events) !! RopeMesh.p2 r) ->
  RopeMesh.tangled r = bool_decide (id ∈ tangledIds (play ld events)).
Proof.
  intros Hids. destruct (play_sceneInv ld events Hids) as (_ & _ & Hcol).
  apply Hcol.
Qed.

(** X11. For a level whose rope ids are distinct, in every state of a
    session a further call of [checkIntersections] changes nothing and
    returns whether no rope is tangled: the evaluation is idempotent. *)
Theorem evaluation_is_idempotent (ld : LevelData.t T) (events : list (PointerEvent T)) :
  NoDup (Rope.id <$> LevelData.ropes ld) ->
  checkIntersections (play ld events)
  = (play ld events, bool_decide (size (tangledIds (play ld events)) = 0%nat)).
Proof.
  intros Hids. destruct (play_sceneInv ld events Hids) as (Hnd & Hc & Hcol).
  unfold checkIntersections. f_equal.
  apply recolour_fixed. intros id _. apply recolourStep_fixed; [exact Hc |].
  intros r. apply Hcol.
Qed.
End Reach.

Section Release.
Context {T : Type} {num : JsNumber T}.

Lemma samePlace_solved (s s' : State T) : samePlace s s' -> solved s' = solved s.
Proof.
  intros Hs. rewrite !solved_unfold, (samePlace_tangledIds s s' Hs).
  destruct Hs as (-> & _). reflexivity.
Qed.

Lemma checkWinCondition_isComplete (s : State T) :
  initialized s = true -> isComplete s = false ->
  isComplete (checkWinCondition s) = solved s.
Proof.
  intros Hi Hc. unfold checkWinCondition, solved. rewrite Hi, Hc. cbn [negb orb].
  pose proof (checkIntersections_same s) as (_ & _ & Hc' & _).
  destruct (checkIntersections s) as [s' b]. cbn [fst] in Hc'.
  destruct ((0 <? length (ropes s'))%nat && b); [reflexivity | congruence].
Qed.

(** X1. While the level is not complete, a pointer release completes it
    exactly when a pin was selected and the level is solved (at least one
    rope, none tangled, for the positions before the release); a release
    with no pin selected completes nothing, however the ropes lie. *)
Theorem release_completes_iff_untangled (ld : LevelData.t T)
    (events : list (PointerEvent T)) :
  isComplete (play ld events) = false ->
  isComplete (handle (play ld events) PointerUp)
  = match selected (play ld events) with
    | Some _ => solved (play ld events)
    | None => false
    end.
Proof.
  intros Hc. destruct (play_inv ld events) as (Hi & _ & _).
  generalize dependent (play ld events). intros s Hc Hi.
  cbn [handle]. unfold onPointerUp.
  destruct (selected s) as [sel |]; [| exact Hc].
  rewrite checkWinCondition_isComplete by assumption.
  apply samePlace_solved. repeat split; cbn [ropes levelData pins].
  apply setGrabbed_positions.
Qed.
End Release.

(* ------------------------------------------------------------------ *)
(** * More on the crossing test *)

Section Pairs.
Context {T : Type} {num : JsNumber T}.

(** X14. With the keys of the rope map pairwise distinct (as in a [Map]),
    every tangled rope has another tangled rope with which its crossing
    test was true; so [tangledIds] never has exactly one element. *)
Theorem tangled_ropes_come_in_pairs (s : State T) :
  NoDup (map_keys (ropes s)) ->
  (forall k, k ∈ tangledIds s ->
     exists k', k' <> k /\ k' ∈ tangledIds s
                /\ (crossingTest s k k' = Some true \/ crossingTest s k' k = Some true))
  /\ size (tangledIds s) <> 1%nat.
Proof.
  intros Hnd.
  assert (Hpair : forall k, k ∈ tangledIds s ->
            exists k', k' <> k /\ k' ∈ tangledIds s
                       /\ (crossingTest s k k' = Some true
                           \/ crossingTest s k' k = Some true)).
  { intros k Hk. apply tangledIds_elem in Hk.
    destruct Hk as (i & j & k1 & k2 & Hij & Hi & Hj & Ht & Hk).
    assert (Hne : k1 <> k2).
    { intros ->. pose proof (NoDup_lookup _ _ _ _ Hnd Hi Hj). lia. }
    assert (H1 : k1 ∈ tangledIds s)
      by (apply tangledIds_elem; exists i, j, k1, k2; repeat split; auto).
    assert (H2 : k2 ∈ tangledIds s)
      by (apply tangledIds_elem; exists i, j, k1, k2; repeat split; auto).
    destruct Hk as [-> | ->]; [exists k2 | exists k1]; auto. }
  split; [exact Hpair |].
  intros Hsize. apply size_1_elem_of in Hsize. destruct Hsize as [k Ek].
  assert (Hk : k ∈ tangledIds s) by (rewrite Ek; set_solver).
  destruct (Hpair k Hk) as (k' & Hne & Hk' & _).
  rewrite Ek in Hk'. set_solver.
Qed.
End Pairs.

Lemma sub_self_zeroOrNaN (x : float) : zeroOrNaN (x - x)%float.
Proof.
  unfold zeroOrNaN. rewrite sub_spec. unfold SF64sub, SFsub.
  destruct (Prim2SF x) as [[|] | [|] | | s m e]; cbn [Bool.eqb negb]; eauto.
  right. exists false. rewrite Z.sub_diag. reflexivity.
Qed.

Lemma mul_zeroOrNaN_l (a b : float) : zeroOrNaN a -> zeroOrNaN (a * b)%float.
Proof.
  unfold zeroOrNaN. rewrite mul_spec. unfold SF64mul, SFmul.
  intros [-> | [s ->]]; [left; reflexivity |].
  destruct (Prim2SF b) as [s' | s' | | s' m e]; eauto.
Qed.

Lemma mul_zeroOrNaN_r (a b : float) : zeroOrNaN b -> zeroOrNaN (a * b)%float.
Proof.
  unfold zeroOrNaN. rewrite mul_spec.
  intros [Eb | [s Eb]]; rewrite Eb; unfold SF64mul, SFmul;
    destruct (Prim2SF a) as [s' | s' | | s' m e]; eauto.
Qed.

Lemma sub_zeroOrNaN (a b : float) :
  zeroOrNaN a -> zeroOrNaN b -> zeroOrNaN (a - b)%float.
Proof.
  unfold zeroOrNaN. rewrite sub_spec.
  intros [Ea | [s Ea]] [Eb | [s' Eb]]; rewrite Ea, Eb; unfold SF64sub, SFsub;
    try (left; reflexivity).
  right. destruct s, s'; eauto.
Qed.

Lemma Prim2SF_0_001 :
  Prim2SF 0.001 = S754_finite false 4611686018427388 (-62).
Proof. vm_compute. reflexivity. Qed.

Lemma div_nan (x y : float) : Prim2SF y = S754_nan -> Prim2SF (x / y)%float = S754_nan.
Proof.
  intros E. rewrite div_spec, E. unfold SF64div, SFdiv.
  destruct (Prim2SF x) as [? | ? | | ? ? ?]; reflexivity.
Qed.

(** With a determinant that is zero or NaN the test answers [false]. *)
Lemma doIntersect_degenerate (a b c d : Vector3.t float) :
  zeroOrNaN (det a b c d) -> doIntersect a b c d = false.
Proof.
  intros Hd. unfold doIntersect. cbn [n_abs n_ltb n_0_001 binary64].
  destruct Hd as [En | [s Ez]].
  - assert (Eabs : (abs (det a b c d) <? 0.001)%float = false).
    { rewrite ltb_spec, abs_spec, En. reflexivity. }
    rewrite Eabs. cbn zeta.
    assert (Elt : (0.05 <? lambda a b c d)%float = false)
      by (apply ltb_nan_r, div_nan, En).
    cbn [n_0_05 binary64]. rewrite Elt. reflexivity.
  - assert (Eabs : (abs (det a b c d) <? 0.001)%float = true).
    { rewrite ltb_spec, abs_spec, Ez, Prim2SF_0_001. reflexivity. }
    rewrite Eabs. reflexivity.
Qed.

(** X12. In binary64, a rope whose two pins have the same x and the same
    y is never reported as crossing another rope, in either argument order
    of [doIntersect] and for all coordinates (finite, infinite or NaN):
    the determinant is then a zero or NaN. *)
Theorem coincident_pins_never_cross (a c d : Vector3.t float) (z : float) :
  let a' := Vector3.mk (Vector3.x a) (Vector3.y a) z in
  doIntersect a a' c d = false /\ doIntersect c d a a' = false.
Proof.
  cbn zeta. split; apply doIntersect_degenerate; unfold det;
    cbn [n_sub n_mul binary64 Vector3.x Vector3.y].
  - apply sub_zeroOrNaN; apply mul_zeroOrNaN_l, sub_self_zeroOrNaN.
  - apply sub_zeroOrNaN; apply mul_zeroOrNaN_r, sub_self_zeroOrNaN.
Qed.

Lemma Qltb_false (a b : Q) : Qltb a b = false <-> (b <= a)%Q.
Proof.
  rewrite <- not_true_iff_false, Qltb_lt. split; [apply Qnot_lt_le | apply Qle_not_lt].
Qed.

(** X13. In exact arithmetic, [doIntersect(a, b, c, d)] is true exactly
    when |det| >= 0.001 and the two segments share a point
    a + l (b - a) = d + g (c - d) with both parameters strictly between
    0.05 and 0.95; lambda runs from a to b and gamma from d to c. *)
Theorem doIntersect_exact_meaning (a b c d : Vector3.t Q) :
  doIntersect a b c d = true <->
  ((1 # 1000 <= Qabs (det a b c d))%Q
   /\ exists l g : Q,
        inTolerance l /\ inTolerance g
        /\ ((along a b l).1 == (along d c g).1)%Q
        /\ ((along a b l).2 == (along d c g).2)%Q).
Proof.
  destruct a as [ax ay az], b as [bx b_y bz], c as [cx cy cz], d as [dx dy dz].
  unfold doIntersect, lambda, gamma, det, along, inTolerance.
  cbn [n_ltb n_abs n_0_001 n_0_05 n_sub n_add n_mul n_div n_of_Z exactQ
       Vector3.x Vector3.y Vector3.z fst snd].
  set (D := ((bx - ax) * (dy - cy) - (b_y - ay) * (dx - cx))%Q).
  set (NL := ((dy - cy) * (dx - ax) + (cx - dx) * (dy - ay))%Q).
  set (NG := ((ay - b_y) * (dx - ax) + (bx - ax) * (dy - ay))%Q).
  change (inject_Z 1) with 1%Q.
  destruct (Qltb (Qabs D) (1 # 1000)) eqn:Hguard.
  - apply Qltb_lt in Hguard. split; [discriminate |].
    intros [Hd _]. exfalso. apply (Qlt_not_le _ _ Hguard Hd).
  - apply Qltb_false in Hguard.
    assert (HD : ~ (D == 0)%Q).
    { intros E0. rewrite E0 in Hguard. cbn in Hguard.
      apply (Qlt_not_le 0 (1 # 1000)); [reflexivity | exact Hguard]. }
    rewrite !andb_true_iff, !Qltb_lt. split.
    + intros [[Hl1 Hl2] [Hg1 Hg2]]. split; [exact Hguard |].
      exists (NL / D)%Q, (NG / D)%Q.
      repeat split; try assumption; try lra; subst NL NG D; field; exact HD.
    + intros (_ & l & g & [Hl1 Hl2] & [Hg1 Hg2] & Ex & Ey).
      assert (EL : (NL / D == l)%Q).
      { assert (E : (l * D == NL)%Q).
        { assert (E1 : (l * (bx - ax) == (dx - ax) - g * (dx - cx))%Q) by lra.
          assert (E2 : (l * (b_y - ay) == (dy - ay) - g * (dy - cy))%Q) by lra.
          transitivity ((l * (bx - ax)) * (dy - cy) - (l * (b_y - ay)) * (dx - cx))%Q;
            [subst D; ring |].
          rewrite E1, E2. subst NL. ring. }
        rewrite <- E. field. exact HD. }
      assert (EG : (NG / D == g)%Q).
      { assert (E : (g * D == NG)%Q).
        { assert (E1 : (g * (dx - cx) == (dx - ax) - l * (bx - ax))%Q) by lra.
          assert (E2 : (g * (dy - cy) == (dy - ay) - l * (b_y - ay))%Q) by lra.
          transitivity ((bx - ax) * (g * (dy - cy)) - (b_y - ay) * (g * (dx - cx)))%Q;
            [subst D; ring |].
          rewrite E1, E2. subst NG. ring. }
        rewrite <- E. field. exact HD. }
      rewrite EL, EG. lra.
Qed.

(* ------------------------------------------------------------------ *)
(** * More on the generated level *)

Lemma addRope_ids (i j : Z) (acc : gset string * list Rope.t) :
  idsInv acc.2 -> idsInv (addRope i j acc).2.
Proof.
  destruct acc as [c ropes]. unfold addRope, idsInv. cbn [snd]. intros [Hids Hcol].
  destruct (negb (i =? j) && negb (bool_decide (ropeKey i j ∈ c))); cbn [snd];
    [| split; assumption].
  split.
  - rewrite fmap_app, length_app, Nat.add_1_r, seq_S, fmap_app, Hids. reflexivity.
  - apply Forall_app. split; [exact Hcol | apply Forall_singleton; reflexivity].
Qed.

Lemma addRope_prefix (i j : Z) (acc : gset string * list Rope.t) :
  exists l, (addRope i j acc).2 = acc.2 ++ l /\ (length l <= 1)%nat.
Proof.
  destruct acc as [c ropes]. unfold addRope.
  destruct (negb (i =? j) && negb (bool_decide (ropeKey i j ∈ c))); cbn [snd].
  - eexists. split; [reflexivity | cbn; lia].
  - exists []. rewrite app_nil_r. split; [reflexivity | cbn; lia].
Qed.

Lemma ringRopes_ids (n : Z) : idsInv (ringRopes n).2.
Proof.
  unfold ringRopes.
  assert (Hgen : forall (l : list Z) acc,
             idsInv acc.2 ->
             idsInv (foldl (fun acc i => addRope i (Z.rem (i + 1) n) acc) acc l).2).
  { induction l as [| i l IH]; intros acc Hacc; cbn [foldl]; [exact Hacc |].
    apply IH, addRope_ids, Hacc. }
  apply Hgen. split; [reflexivity | apply Forall_nil_2].
Qed.

Lemma extraLoop_ids (rnd : nat -> float) (n : Z) (count k : nat)
    (acc : gset string * list Rope.t) :
  idsInv acc.2 -> idsInv (extraLoop rnd n count k acc).2.2.
Proof.
  revert k acc. induction count as [| count IH]; intros k acc Hacc;
    cbn [extraLoop snd]; [exact Hacc |].
  apply IH, addRope_ids, Hacc.
Qed.

Lemma extraLoop_prefix (rnd : nat -> float) (n : Z) (count k : nat)
    (acc : gset string * list Rope.t) :
  exists l, (extraLoop rnd n count k acc).2.2 = acc.2 ++ l /\ (length l <= count)%nat.
Proof.
  revert k acc. induction count as [| count IH]; intros k acc; cbn [extraLoop snd].
  - exists []. rewrite app_nil_r. split; [reflexivity | cbn; lia].
  - destruct (IH (S (S k)) (addRope (randomIndex n (rnd k))
                              (Z.rem (randomIndex n (rnd k) + chordOffset n (rnd (S k))) n)
                              acc)) as (l & -> & Hl).
    destruct (addRope_prefix (randomIndex n (rnd k))
                (Z.rem (randomIndex n (rnd k) + chordOffset n (rnd (S k))) n) acc)
      as (l0 & -> & Hl0).
    exists (l0 ++ l). rewrite app_assoc, length_app. split; [reflexivity | lia].
Qed.

Lemma ringRopes_complete (n : Z) : 5 <= n <= 15 -> (ringRopes n).2 = ringList n.
Proof.
  intros Hn.
  destruct (small_cases n ltac:(lia))
    as [-> | [-> | [-> | [-> | [-> | [-> | [-> | [-> | [-> | [-> | [-> | ->]]]]]]]]]]];
    try lia; vm_compute; reflexivity.
Qed.

Lemma ropeId_inj (a b : nat) : ropeId a = ropeId b -> a = b.
Proof. unfold ropeId. intros E. injection E as E. apply (inj pretty), E. Qed.

Lemma idsInv_NoDup (ropes : list Rope.t) : idsInv ropes -> NoDup (Rope.id <$> ropes).
Proof.
  intros [-> _]. apply NoDup_fmap_2; [| apply NoDup_seq]. intros a b. apply ropeId_inj.
Qed.

(** X15. For every level index and draws in [0, 1), the k-th rope of the
    generated level has the id r<k> and the colour #ffffff, so the rope
    ids are pairwise distinct (a rejected [addRope] uses up no id). *)
Theorem rope_ids_are_sequential (Math_cos Math_sin : float -> float)
    (Math_random : nat -> float) (lvl : Z) :
  (forall k, in_unit (Math_random k) = true) ->
  exists d, generateLevel Math_cos Math_sin Math_random lvl = Some d
    /\ (forall (k : nat) (r : Rope.t),
          LevelData.ropes d !! k = Some r ->
          Rope.id r = ropeId k /\ Rope.color r = "#ffffff")
    /\ NoDup (Rope.id <$> LevelData.ropes d).
Proof.
  intros draws.
  destruct (generateLevel_returns Math_cos Math_sin Math_random draws lvl)
    as (d & E & _ & Hropes).
  pose proof (extraLoop_ids Math_random (pointCount lvl) (Z.to_nat (extraRopes lvl)) 0
                (ringRopes (pointCount lvl)) (ringRopes_ids _)) as Hinv.
  rewrite <- Hropes in Hinv.
  exists d. split; [exact E |]. split; [| apply idsInv_NoDup, Hinv].
  destruct Hinv as [Hids Hcol]. intros k r Hk. split.
  - assert (Hid : (Rope.id <$> LevelData.ropes d) !! k = Some (Rope.id r))
      by (rewrite list_lookup_fmap, Hk; reflexivity).
    rewrite Hids, list_lookup_fmap in Hid.
    pose proof (lookup_lt_Some _ _ _ Hk) as Hlt.
    rewrite lookup_seq_lt in Hid by exact Hlt. cbn in Hid. congruence.
  - rewrite Forall_forall in Hcol. apply Hcol. eapply list_elem_of_lookup_2, Hk.
Qed.

(** X16. For every level index >= 0 the ropes of the generated level
    begin with the complete ring: rope i joins p<i> to p<(i + 1) % n>, for
    i = 0 .. n - 1 in this order; at most [extraRopes] chords follow. *)
Theorem ring_is_complete (Math_cos Math_sin : float -> float)
    (Math_random : nat -> float) (lvl : Z) :
  0 <= lvl -> (forall k, in_unit (Math_random k) = true) ->
  exists d chords,
    generateLevel Math_cos Math_sin Math_random lvl = Some d
    /\ LevelData.ropes d = ringList (pointCount lvl) ++ chords
    /\ (length chords <= Z.to_nat (extraRopes lvl))%nat.
Proof.
  intros Hl draws.
  destruct (generateLevel_returns Math_cos Math_sin Math_random draws lvl)
    as (d & E & _ & Hropes).
  destruct (extraLoop_prefix Math_random (pointCount lvl) (Z.to_nat (extraRopes lvl)) 0
              (ringRopes (pointCount lvl))) as (chords & Hp & Hlen).
  exists d, chords. split; [exact E |]. split; [| exact Hlen].
  rewrite Hropes, Hp, ringRopes_complete by (apply pointCount_bounds, Hl). reflexivity.
Qed.

Lemma insert_cons_perm {A : Type} (l : list A) (j : nat) (x y : A) :
  l !! j = Some y -> y :: <[ j := x ]> l ≡ₚ x :: l.
Proof.
  revert j. induction l as [| a l IH]; intros [| j]; cbn; try discriminate.
  - intros [= ->]. apply Permutation_swap.
  - intros Hj. rewrite Permutation_swap, (IH j Hj). apply Permutation_swap.
Qed.

Lemma swap_perm {A : Type} (l : list A) (i j : nat) (x y : A) :
  l !! i = Some x -> l !! j = Some y -> <[ j := x ]> (<[ i := y ]> l) ≡ₚ l.
Proof.
  revert i j. induction l as [| a l IH]; intros [| i] [| j]; cbn; try discriminate.
  - intros [= ->] [= ->]. reflexivity.
  - intros [= ->] Hj. apply insert_cons_perm, Hj.
  - intros Hi [= ->]. apply insert_cons_perm, Hi.
  - intros Hi Hj. rewrite (IH i j Hi Hj). reflexivity.
Qed.

Lemma at_index_lookup {A : Type} (l : list A) (i : Z) (a : A) :
  at_index l i = Some a -> l !! Z.to_nat i = Some a.
Proof. unfold at_index. destruct (i <? 0); [discriminate | auto]. Qed.

Lemma swapPositions_perm (points points' : list (Point.t float)) (idxA idxB : Z) :
  swapPositions points idxA idxB = Some points' ->
  posOf <$> points' ≡ₚ posOf <$> points /\ attrOf <$> points' = attrOf <$> points.
Proof.
  unfold swapPositions.
  destruct (at_index points idxA) as [pa |] eqn:Ea; [| discriminate].
  destruct (at_index points idxB) as [pb |] eqn:Eb; [| discriminate].
  cbn zeta.
  set (points1 := <[ Z.to_nat idxA := setXY pa (Point.x pb) (Point.y pb) ]> points).
  destruct (at_index points1 idxB) as [pb1 |] eqn:Eb1; [| discriminate].
  intros [= E]. subst points' points1.
  apply at_index_lookup in Ea, Eb, Eb1.
  split.
  - rewrite !list_fmap_insert. cbn [posOf setXY Point.x Point.y].
    apply swap_perm; rewrite list_lookup_fmap; [rewrite Ea | rewrite Eb]; reflexivity.
  - rewrite list_fmap_insert.
    rewrite list_insert_id by (rewrite list_lookup_fmap, Eb1; reflexivity).
    rewrite list_fmap_insert.
    apply list_insert_id. rewrite list_lookup_fmap, Ea. reflexivity.
Qed.

Lemma scrambleLoop_perm (rnd : nat -> float) (n : Z) (count k k' : nat)
    (points points' : list (Point.t float)) :
  scrambleLoop rnd n count k points = Some (k', points') ->
  posOf <$> points' ≡ₚ posOf <$> points /\ attrOf <$> points' = attrOf <$> points
  /\ k' = (k + 2 * count)%nat.
Proof.
  revert k points. induction count as [| count IH]; intros k points; cbn [scrambleLoop].
  - intros [= <- <-]. repeat split; [reflexivity | lia].
  - destruct (swapPositions points _ _) as [points1 |] eqn:E; [| discriminate].
    intros Hs. destruct (IH _ _ Hs) as (Hp & Ha & ->).
    destruct (swapPositions_perm _ _ _ _ E) as [Hp1 Ha1].
    split; [rewrite Hp, Hp1; reflexivity | split; [congruence | lia]].
Qed.

Lemma extraLoop_draws (rnd : nat -> float) (n : Z) (count k : nat)
    (acc : gset string * list Rope.t) :
  (extraLoop rnd n count k acc).1 = (k + 2 * count)%nat.
Proof.
  revert k acc. induction count as [| count IH]; intros k acc; cbn [extraLoop fst];
    [lia |].
  rewrite IH. lia.
Qed.

Lemma jitter_lookup (rnd : nat -> float) (k i : nat) (points : list (Point.t float))
    (p : Point.t float) :
  jitter rnd k points !! i = Some p ->
  exists q, points !! i = Some q
    /\ attrOf p = attrOf q
    /\ Point.x p = (Point.x q + (rnd (k + 2 * i)%nat - 0.5) * 2)%float
    /\ Point.y p = (Point.y q + (rnd (S (k + 2 * i)) - 0.5) * 2)%float.
Proof.
  revert k i. induction points as [| q0 rest IH]; intros k i; cbn [jitter];
    [discriminate |].
  destruct i as [| i]; cbn [lookup list_lookup].
  - intros [= <-]. exists q0. rewrite Nat.mul_0_r, Nat.add_0_r.
    repeat split; reflexivity.
  - intros Hp. destruct (IH (S (S k)) i Hp) as (q & Hq & Ha & Hx & Hy).
    exists q. split; [exact Hq | split; [exact Ha |]].
    replace (k + 2 * S i)%nat with (S (S k) + 2 * i)%nat by lia. split; assumption.
Qed.

(** X17. The points of the generated level: the i-th point has the id
    p<i>, z = 0 and the colour COLORS[i % 8], whatever the scramble did;
    the positions before the noise are a permutation of the positions on
    the circle (the scramble only swaps positions); and the noise adds
    (draw - 0.5) * 2 to x and to y, the draws being taken in the order
    chords, swaps, noise. *)
Theorem points_are_a_scrambled_circle (Math_cos Math_sin : float -> float)
    (Math_random : nat -> float) (lvl : Z) :
  (forall k, in_unit (Math_random k) = true) ->
  let n := pointCount lvl in
  let circle := makePoint Math_cos Math_sin n <$> seqZ 0 n in
  let k := (2 * (Z.to_nat (extraRopes lvl) + Z.to_nat (scrambleCount lvl)))%nat in
  exists d scrambled,
    generateLevel Math_cos Math_sin Math_random lvl = Some d
    /\ posOf <$> scrambled ≡ₚ posOf <$> circle
    /\ attrOf <$> LevelData.points d
       = (fun i => (pointId i, 0%float, nth (Z.to_nat (Z.rem i 8)) COLORS "")) <$> seqZ 0 n
    /\ forall (i : nat) (p : Point.t float),
         LevelData.points d !! i = Some p ->
         exists q, scrambled !! i = Some q
           /\ Point.x p = (Point.x q + (Math_random (k + 2 * i)%nat - 0.5) * 2)%float
           /\ Point.y p = (Point.y q + (Math_random (S (k + 2 * i)) - 0.5) * 2)%float.
Proof.
  intros draws n circle k.
  destruct (generateLevel_returns Math_cos Math_sin Math_random draws lvl)
    as (d & E & _ & _).
  pose proof E as E'. unfold generateLevel in E'. fold n in E'. fold circle in E'.
  pose proof (extraLoop_draws Math_random n (Z.to_nat (extraRopes lvl)) 0 (ringRopes n))
    as Hk1.
  destruct (extraLoop Math_random n (Z.to_nat (extraRopes lvl)) 0 (ringRopes n))
    as [k1 [c ropes]]. cbn [fst] in Hk1.
  destruct (scrambleLoop Math_random n (Z.to_nat (scrambleCount lvl)) k1 circle)
    as [[k2 scrambled] |] eqn:Es; [| discriminate].
  injection E' as <-.
  pose proof (scrambleLoop_perm _ _ _ _ _ _ _ Es) as (Hperm & Hattr & Hk2).
  assert (Ek : k2 = k) by (subst k; lia). clearbody k. rewrite Ek in *. clear Ek.
  exists (LevelData.mk (jitter Math_random k scrambled) ropes), scrambled.
  split; [exact E |]. split; [exact Hperm |]. cbn [LevelData.points]. split.
  - transitivity (attrOf <$> scrambled).
    + apply list_eq. intros i. rewrite !list_lookup_fmap.
      destruct (jitter Math_random k scrambled !! i) as [p |] eqn:Ep.
      * destruct (jitter_lookup _ _ _ _ _ Ep) as (q & Hq & Ha & _).
        rewrite Hq. cbn. rewrite Ha. reflexivity.
      * apply lookup_ge_None in Ep. rewrite jitter_length in Ep.
        apply lookup_ge_None in Ep. rewrite Ep. reflexivity.
    + rewrite Hattr. unfold circle. rewrite <- list_fmap_compose. reflexivity.
  - intros i p Hp. destruct (jitter_lookup _ _ _ _ _ Hp) as (q & Hq & _ & Hx & Hy).
    exists q. auto.
Qed.

(* ------------------------------------------------------------------ *)
(** * Mounting a generated level *)

Lemma map_set_fresh {V : Type} (m : list (string * V)) (k : string) (v : V) :
  k ∉ map_keys m -> map_set m k v = m ++ [(k, v)].
Proof.
  induction m as [| [k0 v0] m IH]; cbn [map_set]; [reflexivity |].
  rewrite map_keys_cons, not_elem_of_cons. intros [Hne Hm].
  destruct (String.eqb_spec k0 k) as [-> | _]; [contradiction |].
  rewrite IH by exact Hm. reflexivity.
Qed.

Section Mount.
Context {T : Type} {num : JsNumber T}.

Lemma addPin_other (l : list (Point.t T)) (m : gmap string (Pin.t T)) (k : string) :
  k ∉ (Point.id <$> l) -> foldl addPin m l !! k = m !! k.
Proof.
  revert m. induction l as [| a l IH]; intros m Hk; cbn [foldl]; [reflexivity |].
  rewrite fmap_cons, not_elem_of_cons in Hk. destruct Hk as [Hne Hk].
  rewrite IH by exact Hk. unfold addPin. apply lookup_insert_ne. congruence.
Qed.

Lemma addPin_lookup (l : list (Point.t T)) (m : gmap string (Pin.t T)) (pt : Point.t T) :
  NoDup (Point.id <$> l) -> pt ∈ l -> foldl addPin m l !! Point.id pt = Some (pinOf pt).
Proof.
  revert m. induction l as [| a l IH]; intros m Hnd Hin; cbn [foldl];
    [apply elem_of_nil in Hin; contradiction |].
  rewrite fmap_cons in Hnd. apply NoDup_cons in Hnd. destruct Hnd as [Hfresh Hnd].
  apply elem_of_cons in Hin. destruct Hin as [-> | Hin].
  - rewrite addPin_other by exact Hfresh. unfold addPin. apply lookup_insert_eq.
  - apply IH; assumption.
Qed.

Lemma addPin_dom (l : list (Point.t T)) (m : gmap string (Pin.t T)) :
  dom (foldl addPin m l) = dom m ∪ list_to_set (Point.id <$> l).
Proof.
  revert m. induction l as [| a l IH]; intros m; cbn [foldl].
  - cbn. set_solver.
  - rewrite IH. unfold addPin. rewrite dom_insert_L, fmap_cons. cbn. set_solver.
Qed.

Lemma addRopeMesh_all (p : gmap string (Pin.t T)) (l : list Rope.t)
    (m : list (string * RopeMesh.t)) :
  (forall r, r ∈ l -> is_Some (p !! Rope.p1 r) /\ is_Some (p !! Rope.p2 r)) ->
  NoDup (Rope.id <$> l) -> (forall r, r ∈ l -> Rope.id r ∉ map_keys m) ->
  foldl (addRopeMesh p) m l = m ++ (meshOf <$> l).
Proof.
  revert m. induction l as [| a l IH]; intros m Hpins Hnd Hfresh; cbn [foldl].
  - rewrite app_nil_r. reflexivity.
  - rewrite fmap_cons in Hnd. apply NoDup_cons in Hnd. destruct Hnd as [Ha Hnd].
    destruct (Hpins a) as [[pa Ea] [pb Eb]]; [apply elem_of_cons; auto |].
    unfold addRopeMesh at 2. rewrite Ea, Eb.
    rewrite map_set_fresh by (apply Hfresh, elem_of_cons; auto).
    rewrite IH; [rewrite <- app_assoc; reflexivity | | exact Hnd |].
    + intros r Hr. apply Hpins, elem_of_cons. auto.
    + intros r Hr. unfold map_keys. rewrite fmap_app, elem_of_app. cbn.
      intros [Hm | Hm].
      * apply (Hfresh r); [apply elem_of_cons; auto | exact Hm].
      * apply list_elem_of_singleton in Hm. apply Ha. rewrite <- Hm.
        apply list_elem_of_fmap_2, Hr.
Qed.

Lemma meshOf_get (l : list Rope.t) (r : Rope.t) :
  NoDup (Rope.id <$> l) -> r ∈ l -> map_get (meshOf <$> l) (Rope.id r) = Some (meshOf r).2.
Proof.
  induction l as [| a l IH]; intros Hnd Hin; [apply elem_of_nil in Hin; contradiction |].
  rewrite fmap_cons in Hnd. apply NoDup_cons in Hnd. destruct Hnd as [Ha Hnd].
  rewrite fmap_cons. cbn [map_get meshOf].
  apply elem_of_cons in Hin. destruct Hin as [-> | Hin].
  - rewrite String.eqb_refl. reflexivity.
  - destruct (String.eqb_spec (Rope.id a) (Rope.id r)) as [E | _].
    + exfalso. apply Ha. rewrite E. apply list_elem_of_fmap_2, Hin.
    + apply IH; assumption.
Qed.

(** Mounting a level whose ids are distinct and whose ropes join points
    of the level creates every pin and every rope. *)
Lemma initScene_complete (ld : LevelData.t T) :
  NoDup (Point.id <$> LevelData.points ld) ->
  NoDup (Rope.id <$> LevelData.ropes ld) ->
  (forall r, r ∈ LevelData.ropes ld ->
     Rope.p1 r ∈ (Point.id <$> LevelData.points ld)
     /\ Rope.p2 r ∈ (Point.id <$> LevelData.points ld)) ->
  (forall pt, pt ∈ LevelData.points ld ->
     pins (initScene ld) !! Point.id pt = Some (pinOf pt))
  /\ dom (pins (initScene ld)) = list_to_set (Point.id <$> LevelData.points ld)
  /\ map_keys (ropes (initScene ld)) = Rope.id <$> LevelData.ropes ld
  /\ (forall r, r ∈ LevelData.ropes ld ->
        ends <$> map_get (ropes (initScene ld)) (Rope.id r) = Some (Rope.p1 r, Rope.p2 r)).
Proof.
  intros Hpts Hids Hends. unfold initScene.
  set (p := foldl addPin ∅ (LevelData.points ld)).
  set (m := foldl (addRopeMesh p) [] (LevelData.ropes ld)).
  assert (Hm : m = meshOf <$> LevelData.ropes ld).
  { unfold m. rewrite addRopeMesh_all; [reflexivity | | exact Hids |].
    - intros r Hr. destruct (Hends r Hr) as [H1 H2].
      apply list_elem_of_fmap in H1, H2.
      destruct H1 as (p1 & -> & H1), H2 as (p2 & -> & H2).
      unfold p. rewrite !addPin_lookup by assumption. eauto.
    - intros r _. apply not_elem_of_nil. }
  match goal with
  | |- context [checkIntersections ?s0] =>
      pose proof (checkIntersections_sameEnds s0) as Hs; set (s := s0) in *
  end.
  destruct Hs as (Hp & _ & Hk & He); [apply mount_consistent, Hids |].
  rewrite Hp, Hk. cbn [pins ropes s].
  split; [| split; [| split]].
  - intros pt Hpt. apply addPin_lookup; assumption.
  - unfold p. rewrite addPin_dom, dom_empty_L. set_solver.
  - rewrite Hm. unfold map_keys. rewrite <- list_fmap_compose. reflexivity.
  - intros r Hr. rewrite He. cbn [ropes s]. rewrite Hm, meshOf_get by assumption.
    reflexivity.
Qed.
End Mount.

(** X18. Mounting a generated level (index >= 0) creates one pin for each
    point, at the point's position and unscaled, and one entry for every
    rope, in the order of the ropes and with the rope's endpoints: the
    guard [if (p1 && p2)] drops no rope of a generated level. *)
Theorem generated_level_mounts_completely (Math_cos Math_sin : float -> float)
    (Math_random : nat -> float) (lvl : Z) :
  0 <= lvl -> (forall k, in_unit (Math_random k) = true) ->
  exists d,
    generateLevel Math_cos Math_sin Math_random lvl = Some d
    /\ (forall pt, pt ∈ LevelData.points d ->
          pins (initScene d) !! Point.id pt = Some (pinOf pt))
    /\ dom (pins (initScene d)) = list_to_set (pointId <$> seqZ 0 (pointCount lvl))
    /\ map_keys (ropes (initScene d)) = ropeId <$> seq 0 (length (LevelData.ropes d))
    /\ (forall r, r ∈ LevelData.ropes d ->
          ends <$> map_get (ropes (initScene d)) (Rope.id r)
          = Some (Rope.p1 r, Rope.p2 r)).
Proof.
  intros Hl draws.
  destruct (generateLevel_returns Math_cos Math_sin Math_random draws lvl)
    as (d & E & Hids & Hropes).
  pose proof (generateLevel_ropesInv Math_random lvl draws Hl) as [Hall _].
  pose proof (extraLoop_ids Math_random (pointCount lvl) (Z.to_nat (extraRopes lvl)) 0
                (ringRopes (pointCount lvl)) (ringRopes_ids _)) as Hinv.
  rewrite <- Hropes in Hall, Hinv.
  destruct (initScene_complete d) as (H1 & H2 & H3 & H4).
  - rewrite Hids. apply pointIds_NoDup.
  - apply idsInv_NoDup, Hinv.
  - intros r Hr. rewrite Forall_forall in Hall.
    destruct (Hall r Hr) as (i & j & Hi & Hj & _ & -> & -> & _).
    rewrite Hids. split; apply list_elem_of_fmap_2, elem_of_seqZ; lia.
  - exists d. split; [exact E |]. split; [exact H1 |].
    split; [rewrite H2, Hids; reflexivity |].
    split; [rewrite H3; apply Hinv | exact H4].
Qed.

Lemma chordAttempts_checked : forallb chordAttemptsOk (seqZ 0 101) = true.
Proof. vm_compute. reflexivity. Qed.

(** X19. For the level indices 0 .. 100, the number of chord attempts
    [extraRopes] (a binary64 computation) is at least 1, at most the node
    count, and not smaller at the next index. *)
Theorem chord_attempts_grow_with_level (lvl : Z) :
  0 <= lvl <= 100 ->
  1 <= extraRopes lvl <= pointCount lvl
  /\ extraRopes lvl <= extraRopes (lvl + 1).
Proof.
  intros Hl. pose proof chordAttempts_checked as Hall.
  rewrite forallb_forall in Hall. specialize (Hall lvl).
  unfold chordAttemptsOk in Hall. rewrite !andb_true_iff, !Z.leb_le in Hall.
  apply Hall. apply list_elem_of_In, elem_of_seqZ. lia.
Qed.

(* ------------------------------------------------------------------ *)
(** * Edge behaviour of the handlers *)

Section Edge.
Context {T : Type} {num : JsNumber T}.

Lemma checkWinCondition_fields (s : State T) :
  pins (checkWinCondition s) = pins s
  /\ selectedPointId (checkWinCondition s) = selectedPointId s.
Proof.
  unfold checkWinCondition. destruct (negb (initialized s) || isComplete s); [auto |].
  pose proof (checkIntersections_ropes_only s) as E.
  destruct (checkIntersections s) as [s' b]. cbn [fst] in E. rewrite E.
  destruct ((0 <? length _)%nat && b); auto.
Qed.

Lemma handle_no_ropes (s : State T) (e : PointerEvent T) :
  ropes s = [] -> isComplete s = false ->
  ropes (handle s e) = [] /\ isComplete (handle s e) = false.
Proof.
  intros Hr Hc.
  assert (Hkeys : ropes (handle s e) = []).
  { destruct (handle_keeps_graph s e) as (_ & Hk & _). rewrite Hr in Hk.
    unfold map_keys in Hk. apply fmap_nil_inv in Hk. exact Hk. }
  split; [exact Hkeys |].
  destruct e as [hit planeHit | planeHit |]; cbn [handle] in *.
  - unfold onPointerDown. rewrite Hc. destruct hit; [reflexivity | exact Hc].
  - unfold onPointerMove. destruct (selected s) as [sel |]; [| exact Hc].
    rewrite Hc. destruct planeHit as [q |]; [| exact Hc].
    destruct (pins s !! sel) as [pin |]; [| reflexivity].
    rewrite checkIntersections_ropes_only. reflexivity.
  - unfold onPointerUp in *. destruct (selected s) as [sel |]; [| exact Hc].
    unfold checkWinCondition in *. cbn [initialized isComplete] in *.
    rewrite Hc in *.
    destruct (negb (initialized s) || false); [reflexivity |].
    match goal with
    | |- context [checkIntersections ?s0] =>
        pose proof (checkIntersections_ropes_only s0) as E;
        destruct (checkIntersections s0) as [s' b]
    end.
    cbn [fst] in E.
    destruct ((0 <? length (ropes s'))%nat && b) eqn:Hw.
    + cbn [ropes] in Hkeys. rewrite Hkeys in Hw. discriminate.
    + rewrite E. reflexivity.
Qed.

(** X22. A level that is mounted without any rope (the level has none, or
    every rope lacks a pin, as the rope of the level of index -100 does)
    is never completed, whatever the pointer does: [checkWinCondition]
    requires [s.ropes.size > 0]. *)
Theorem level_without_ropes_never_completes (ld : LevelData.t T)
    (events : list (PointerEvent T)) :
  ropes (initScene ld) = [] -> isComplete (play ld events) = false.
Proof.
  intros Hr. unfold play.
  assert (Hc : isComplete (initScene ld) = false)
    by (unfold initScene; rewrite checkIntersections_ropes_only; reflexivity).
  revert Hr Hc. generalize (initScene ld).
  induction events as [| e events IH]; intros s Hr Hc; cbn [foldl]; [exact Hc |].
  destruct (handle_no_ropes s e Hr Hc) as [Hr' Hc']. apply IH; assumption.
Qed.

Lemma onPointerDown_hit (s : State T) (id : string) (q : option (Vector3.t T)) :
  isComplete s = false ->
  selectedPointId (onPointerDown s (Some id) q) = Some id
  /\ pins (onPointerDown s (Some id) q) = setGrabbed (pins s) id true
  /\ isComplete (onPointerDown s (Some id) q) = false.
Proof. intros Hc. unfold onPointerDown. rewrite Hc. cbn. auto. Qed.

Lemma onPointerDown_offset (s : State T) (id : string) (pin : Pin.t T)
    (q : Vector3.t T) :
  isComplete s = false -> pins s !! id = Some pin ->
  dragOffset (onPointerDown s (Some id) (Some q)) = vsub q (Pin.position pin).
Proof. intros Hc Hp. unfold onPointerDown. rewrite Hc, Hp. reflexivity. Qed.

Lemma selected_Some (s : State T) (id : string) :
  selectedPointId s = Some id -> id <> EmptyString -> selected s = Some id.
Proof.
  intros E Hne. unfold selected. rewrite E. destruct id; [contradiction | reflexivity].
Qed.

Lemma onPointerUp_selected (s : State T) (sel : string) :
  selected s = Some sel ->
  selectedPointId (onPointerUp s) = None
  /\ pins (onPointerUp s) = setGrabbed (pins s) sel false.
Proof.
  intros E. unfold onPointerUp. rewrite E.
  match goal with
  | |- context [checkWinCondition ?s0] =>
      destruct (checkWinCondition_fields s0) as [Hp Hs]
  end.
  rewrite Hp, Hs. auto.
Qed.

Lemma setGrabbed_other (p : gmap string (Pin.t T)) (id id' : string) (g : bool) :
  id <> id' -> setGrabbed p id g !! id' = p !! id'.
Proof.
  intros Hne. unfold setGrabbed. destruct (p !! id); [| reflexivity].
  apply lookup_insert_ne, Hne.
Qed.

(** X23. After a press on a pin [a], a press on another pin [b] before
    any release, and a release: nothing is selected, and [a] is still
    enlarged (scale 1.4). [onPointerDown] does not release the pin that
    was selected before, and [onPointerUp] resets the last one only. *)
Theorem second_grab_leaves_first_pin_enlarged (s : State T) (a b : string)
    (q1 q2 : option (Vector3.t T)) :
  isComplete s = false -> a <> b -> b <> EmptyString -> is_Some (pins s !! a) ->
  let s' := foldl handle s [PointerDown (Some a) q1; PointerDown (Some b) q2; PointerUp] in
  selectedPointId s' = None
  /\ Pin.grabbed <$> (pins s' !! a) = Some true.
Proof.
  intros Hc Hab Hb [pa Ha]. cbn [foldl handle].
  destruct (onPointerDown_hit s a q1 Hc) as (_ & Hp1 & Hc1).
  set (s1 := onPointerDown s (Some a) q1) in *.
  destruct (onPointerDown_hit s1 b q2 Hc1) as (Hs2 & Hp2 & _).
  set (s2 := onPointerDown s1 (Some b) q2) in *.
  destruct (onPointerUp_selected s2 b (selected_Some s2 b Hs2 Hb)) as [Hs3 Hp3].
  split; [exact Hs3 |].
  rewrite Hp3, setGrabbed_other, Hp2, setGrabbed_other, Hp1 by congruence.
  unfold setGrabbed. rewrite Ha, lookup_insert_eq. reflexivity.
Qed.
End Edge.

Lemma clamp_exact_id (v lo hi : Q) :
  (lo <= v)%Q -> (v <= hi)%Q -> (clamp v lo hi == v)%Q.
Proof.
  intros Hlo Hhi. unfold clamp. cbn [n_max n_min exactQ].
  destruct (Qltb v hi) eqn:E1.
  - destruct (Qltb lo v) eqn:E2; [reflexivity |].
    rewrite <- not_true_iff_false, Qltb_lt in E2. lra.
  - rewrite <- not_true_iff_false, Qltb_lt in E1.
    destruct (Qltb lo hi) eqn:E2; [lra |].
    rewrite <- not_true_iff_false, Qltb_lt in E2. lra.
Qed.

(** X24. In exact arithmetic a drag keeps the offset between the pointer
    and the pin: after a press at the plane point q on a pin at P and a
    move of the pointer to q', the pin is at P + (q' - q), provided that
    x lies within -9 .. 9 and y within -14 .. 14 (beyond that it is
    clamped). *)
Theorem drag_keeps_the_grab_offset (s : State Q) (a : string) (pin : Pin.t Q)
    (q q' : Vector3.t Q) :
  isComplete s = false -> a <> EmptyString -> pins s !! a = Some pin ->
  let P := Pin.position pin in
  let x' := (Vector3.x P + (Vector3.x q' - Vector3.x q))%Q in
  let y' := (Vector3.y P + (Vector3.y q' - Vector3.y q))%Q in
  (-9 <= x' <= 9)%Q -> (-14 <= y' <= 14)%Q ->
  exists pin',
    pins (foldl handle s (dragTo a q q')) !! a = Some pin'
    /\ (Vector3.x (Pin.position pin') == x')%Q
    /\ (Vector3.y (Pin.position pin') == y')%Q
    /\ (Vector3.z (Pin.position pin') == Vector3.z P + (Vector3.z q' - Vector3.z q))%Q.
Proof.
  intros Hc Ha Hpin P x' y' Hx Hy. unfold dragTo. cbn [foldl handle].
  destruct (onPointerDown_hit s a (Some q) Hc) as (Hs1 & Hp1 & Hc1).
  pose proof (onPointerDown_offset s a pin q Hc Hpin) as Ho1.
  set (s1 := onPointerDown s (Some a) (Some q)) in *.
  unfold onPointerMove. rewrite (selected_Some s1 a Hs1 Ha), Hc1, Hp1, Ho1.
  unfold setGrabbed. rewrite Hpin, lookup_insert_eq.
  match goal with
  | |- context [checkIntersections ?s0] =>
      destruct (checkIntersections_same s0) as (_ & -> & _)
  end.
  cbn [pins set_pins]. eexists. split; [apply lookup_insert_eq |].
  cbn [Pin.position Vector3.x Vector3.y Vector3.z vsub n_sub n_of_Z exactQ].
  fold P.
  assert (Ex : (Vector3.x q' - (Vector3.x q - Vector3.x P) == x')%Q)
    by (subst x'; ring).
  assert (Ey : (Vector3.y q' - (Vector3.y q - Vector3.y P) == y')%Q)
    by (subst y'; ring).
  split; [| split].
  - rewrite clamp_exact_id; [exact Ex | rewrite Ex; apply Hx | rewrite Ex; apply Hx].
  - rewrite clamp_exact_id; [exact Ey | rewrite Ey; apply Hy | rewrite Ey; apply Hy].
  - ring.
Qed.

(* ------------------------------------------------------------------ *)
(** * The application: levels and progress *)

Lemma mount_appInv (saved : option App.Num) :
  savedOk saved -> appInv (loaded saved) (App.mount saved).
Proof.
  destruct saved as [[v |] |]; cbn; intros Hs; try contradiction.
  - exists 1, v. cbn. repeat split; try lia. constructor.
  - exists 1, 1. cbn. repeat split; try lia. constructor.
Qed.

(** A render with a level from 1 to 100 (re)mounts or keeps the scene as
    the invariant asks. *)
Lemma commit_appInv (lo : Z) (st : App.t) (c u : Z) :
  App.currentLevel st = App.Int c -> App.unlockedLevel st = App.Int u ->
  1 <= c <= 100 -> 1 <= u -> lo <= u ->
  App.unlockedLevel st = default (App.Int 1) (App.storage st) ->
  (forall sc, App.scene st = Some sc -> closureOk lo (App.onComplete sc)) ->
  Forall (closureOk lo) (App.timers st) ->
  appInv lo (App.commit st).
Proof.
  intros Ec Eu Hc Hu Hlo Hst Hsc Ht. exists c, u. unfold App.commit.
  cbn [App.currentLevel App.unlockedLevel App.storage App.scene App.showMenu App.timers].
  repeat split; try assumption; try lia.
  destruct (App.showMenu st) eqn:Hm; [reflexivity |].
  destruct (App.scene st) as [sc |] eqn:Es.
  - destruct (App.same _ _) eqn:Hsame.
    + split; [reflexivity |]. split; [| apply Hsc; reflexivity].
      rewrite Ec in Hsame. destruct (App.closedLevel (App.onComplete sc)) as [x |];
        cbn in Hsame; [| discriminate].
      apply Z.eqb_eq in Hsame. congruence.
    + cbn. split; [reflexivity |]. split; [exact Ec |]. exists c, u. cbn. auto.
  - cbn. split; [reflexivity |]. split; [exact Ec |]. exists c, u. cbn. auto.
Qed.

Lemma step_appInv (lo : Z) (st : App.t) (e : App.Event) :
  appInv lo st -> App.enabled st e = true -> appInv lo (App.step st e).
Proof.
  intros (c & u & Ec & Eu & Hc & Hu & Hlo & Hst & Hsc & Ht) He.
  assert (Hsc' : forall sc, App.scene st = Some sc -> closureOk lo (App.onComplete sc)).
  { intros sc Es. rewrite Es in Hsc. apply Hsc. }
  destruct e as [| i | | | | wins |]; cbn [App.step App.enabled] in *.
  - apply (commit_appInv lo _ c u); cbn; assumption.
  - apply andb_true_iff in He. destruct He as [He _].
    apply andb_true_iff in He. destruct He as [_ Hi]. apply Nat.ltb_lt in Hi.
    apply (commit_appInv lo _ (Z.of_nat i + 1) u); cbn; try assumption; try reflexivity; lia.
  - rewrite Eu. cbn [App.min].
    apply (commit_appInv lo _ (Z.min u 100) u); cbn; try assumption; try reflexivity; lia.
  - unfold App.nextLevel. rewrite Ec. cbn [App.lt App.succ].
    destruct (Z.ltb_spec c 100) as [Hlt | Hge].
    + apply (commit_appInv lo _ (c + 1) u); cbn; try assumption; try reflexivity; lia.
    + apply (commit_appInv lo _ c u); cbn; assumption.
  - apply (commit_appInv lo _ c u); cbn; assumption.
  - unfold App.sceneRelease. destruct (App.scene st) as [sc |] eqn:Es; [| discriminate].
    destruct Hsc as (Hm & Hl & Hok).
    destruct wins; exists c, u; cbn; rewrite ?Es; repeat split; try assumption; try lia.
    apply Forall_app. split; [exact Ht | apply Forall_singleton, Hok].
  - unfold App.timerFires. destruct (App.timers st) as [| cl rest] eqn:Et; [discriminate |].
    apply Forall_cons in Ht. destruct Ht as [(c0 & u0 & Ec0 & Eu0 & Hc0 & Hu0) Hrest].
    unfold App.handleLevelComplete. rewrite Ec0, Eu0. cbn [App.succ App.gt].
    destruct (Z.ltb_spec u0 (c0 + 1)) as [Hlt | Hge].
    + apply (commit_appInv lo _ c (c0 + 1)); cbn; try assumption; try reflexivity; lia.
    + apply (commit_appInv lo _ c u); cbn; assumption.
Qed.

Lemma run_appInv (lo : Z) (st : App.t) (events : list App.Event) :
  appInv lo st -> appInv lo (App.run st events).
Proof.
  unfold App.run. revert st. induction events as [| e events IH]; intros st Hinv;
    cbn [foldl]; [exact Hinv |].
  apply IH. destruct (App.enabled st e) eqn:He; [apply step_appInv; assumption | exact Hinv].
Qed.

(** X20. If the stored progress is absent or an integer >= 1, then after
    any sequence of clicks, releases and timeouts the current level is an
    integer from 1 to 100, the unlocked level is an integer >= 1, and a
    scene is mounted exactly while the menu is closed, for the current
    level: the scene, and with it [generateLevel], only ever gets an
    index from 1 to 100. *)
Theorem level_stays_in_range (saved : option App.Num) (events : list App.Event) :
  savedOk saved ->
  let st := App.run (App.mount saved) events in
  exists c u,
    App.currentLevel st = App.Int c /\ App.unlockedLevel st = App.Int u
    /\ 1 <= c <= 100 /\ 1 <= u
    /\ (App.showMenu st = true <-> App.scene st = None)
    /\ (forall sc, App.scene st = Some sc ->
          App.closedLevel (App.onComplete sc) = App.Int c).
Proof.
  intros Hs st.
  destruct (run_appInv _ (App.mount saved) events (mount_appInv saved Hs))
    as (c & u & Ec & Eu & Hc & Hu & _ & _ & Hsc & _).
  fold st in Ec, Eu, Hsc. exists c, u. repeat split; try assumption; try lia.
  - intros Hm. destruct (App.scene st) as [sc |]; [| reflexivity].
    destruct Hsc as [Hm' _]. congruence.
  - intros Es. rewrite Es in Hsc. exact Hsc.
  - intros sc Es. rewrite Es in Hsc. apply Hsc.
Qed.

(** X21. If the stored progress is absent or an integer >= 1, then after
    any sequence of clicks, releases and timeouts the stored progress
    reads back as the current [unlockedLevel] (a restart restores it), it
    is again absent or an integer >= 1, and [unlockedLevel] is not below
    the value that was loaded when the application started. Within a
    session [unlockedLevel] can decrease, see [stale_win_lowers_unlocked]
    below. *)
Theorem progress_is_persisted (saved : option App.Num) (events : list App.Event) :
  savedOk saved ->
  let st := App.run (App.mount saved) events in
  App.unlockedLevel (App.mount (App.storage st)) = App.unlockedLevel st
  /\ savedOk (App.storage st)
  /\ exists u0 u, App.unlockedLevel (App.mount saved) = App.Int u0
                  /\ App.unlockedLevel st = App.Int u /\ u0 <= u.
Proof.
  intros Hs st.
  destruct (run_appInv _ (App.mount saved) events (mount_appInv saved Hs))
    as (c & u & _ & Eu & _ & Hu & Hlo & Hst & _).
  fold st in Eu, Hst. split; [| split].
  - rewrite Hst. destruct (App.storage st); reflexivity.
  - rewrite Eu in Hst. destruct (App.storage st) as [[v |] |]; cbn in *;
      [congruence | discriminate | exact I].
  - exists (loaded saved), u. split; [| split; [exact Eu | exact Hlo]].
    destruct saved as [[v |] |]; cbn in *; try reflexivity; contradiction.
Qed.

(** An example of what the stale closure does. With level 5 unlocked, the
    timeout of a won level 1 fires over level 5: it opens the win dialog
    without unlocking anything, and NEXT LEVEL starts level 6 while only
    level 5 is unlocked. *)
Example stale_win_passes_unlocked :
  let st := App.run (App.mount (Some (App.Int 5))) staleWin in
  App.currentLevel st = App.Int 6 /\ App.unlockedLevel st = App.Int 5.
Proof. split; reflexivity. Qed.

(** Going on, the timeout of level 6 (which saw level 5 unlocked)
    unlocks level 7, and the later timeout of level 5 sets the unlocked
    level, and the stored progress, back to 6. *)
Example stale_win_lowers_unlocked :
  let st := App.run (App.mount (Some (App.Int 5))) staleUnlock in
  App.unlockedLevel st = App.Int 7
  /\ App.unlockedLevel (App.run st [App.TimerFires]) = App.Int 6
  /\ App.storage (App.run st [App.TimerFires]) = Some (App.Int 6).
Proof. repeat split; reflexivity. Qed.

(* ------------------------------------------------------------------ *)
(** * The theorems above on concrete sessions and levels *)

Lemma release_completes_iff_untangled_witness :
  isComplete (handle (play (squareLevel 10 10) untangleDrag) PointerUp)
  = match selected (play (squareLevel 10 10) untangleDrag) with
    | Some _ => solved (play (squareLevel 10 10) untangleDrag)
    | None => false
    end.
Proof.
  apply (release_completes_iff_untangled (squareLevel 10 10) untangleDrag).
  vm_compute. reflexivity.
Defined.

Lemma completed_level_ignores_input_witness :
  handle (play (squareLevel 10 10) (untangleDrag ++ [PointerUp]))
    (PointerDown (Some "p0") (Some farAway))
  = play (squareLevel 10 10) (untangleDrag ++ [PointerUp]).
Proof.
  apply (completed_level_ignores_input (squareLevel 10 10) (untangleDrag ++ [PointerUp])).
  vm_compute. reflexivity.
Defined.

Lemma dragged_pin_stays_in_bounds_witness :
  let s := play (squareLevel 10 10) untangleDrag in
  exists pin',
    pins (onPointerMove s (Some farAway)) !! "p2" = Some pin'
    /\ ((Vector3.x (Pin.position pin') <? -9)%float = false
        /\ (9 <? Vector3.x (Pin.position pin'))%float = false)
    /\ ((Vector3.y (Pin.position pin') <? -14)%float = false
        /\ (14 <? Vector3.y (Pin.position pin'))%float = false)
    /\ Vector3.z (Pin.position pin') = (Vector3.z farAway - Vector3.z (dragOffset s))%float
    /\ Pin.grabbed pin' = true
    /\ forall id, id <> "p2" -> pins (onPointerMove s (Some farAway)) !! id = pins s !! id.
Proof.
  apply (dragged_pin_stays_in_bounds (play (squareLevel 10 10) untangleDrag) "p2"
           (Pin.mk (Vector3.mk (-5) (-5) 0)%float true) farAway);
    vm_compute; reflexivity.
Defined.

Lemma rope_colours_are_current_witness :
  RopeMesh.tangled (RopeMesh.mk "p0" "p2" false)
  = bool_decide ("r0" ∈ tangledIds (play (squareLevel 10 10) untangleDrag)).
Proof.
  apply (@rope_colours_are_current float binary64 (squareLevel 10 10) untangleDrag "r0"
           (RopeMesh.mk "p0" "p2" false)).
  - apply (bool_decide_unpack _). vm_compute. exact I.
  - vm_compute. reflexivity.
  - eexists. vm_compute. reflexivity.
  - eexists. vm_compute. reflexivity.
Defined.

Lemma evaluation_is_idempotent_witness :
  checkIntersections (play (squareLevel 10 10) untangleDrag)
  = (play (squareLevel 10 10) untangleDrag,
     bool_decide (size (tangledIds (play (squareLevel 10 10) untangleDrag)) = 0%nat)).
Proof.
  apply (@evaluation_is_idempotent float binary64 (squareLevel 10 10) untangleDrag).
  apply (bool_decide_unpack _). vm_compute. exact I.
Defined.

Lemma tangled_ropes_come_in_pairs_witness :
  (forall k, k ∈ tangledIds (initScene (squareLevel 10 10)) ->
     exists k', k' <> k /\ k' ∈ tangledIds (initScene (squareLevel 10 10))
                /\ (crossingTest (initScene (squareLevel 10 10)) k k' = Some true
                    \/ crossingTest (initScene (squareLevel 10 10)) k' k = Some true))
  /\ size (tangledIds (initScene (squareLevel 10 10))) <> 1%nat.
Proof.
  apply (@tangled_ropes_come_in_pairs float binary64 (initScene (squareLevel 10 10))).
  apply (bool_decide_unpack _). vm_compute. exact I.
Defined.

Lemma rope_ids_are_sequential_witness :
  exists d, generateLevel cosSeries sinSeries (constantDraws 0.3) 55 = Some d
    /\ (forall (k : nat) (r : Rope.t),
          LevelData.ropes d !! k = Some r ->
          Rope.id r = ropeId k /\ Rope.color r = "#ffffff")
    /\ NoDup (Rope.id <$> LevelData.ropes d).
Proof.
  apply (rope_ids_are_sequential cosSeries sinSeries (constantDraws 0.3) 55).
  intros k. reflexivity.
Defined.

Lemma ring_is_complete_witness :
  exists d chords,
    generateLevel cosSeries sinSeries (constantDraws 0.6) 42 = Some d
    /\ LevelData.ropes d = ringList (pointCount 42) ++ chords
    /\ (length chords <= Z.to_nat (extraRopes 42))%nat.
Proof.
  apply (ring_is_complete cosSeries sinSeries (constantDraws 0.6) 42);
    [lia | intros k; reflexivity].
Defined.

Lemma points_are_a_scrambled_circle_witness :
  let n := pointCount 8 in
  let circle := makePoint cosSeries sinSeries n <$> seqZ 0 n in
  let k := (2 * (Z.to_nat (extraRopes 8) + Z.to_nat (scrambleCount 8)))%nat in
  exists d scrambled,
    generateLevel cosSeries sinSeries (constantDraws 0.2) 8 = Some d
    /\ posOf <$> scrambled ≡ₚ posOf <$> circle
    /\ attrOf <$> LevelData.points d
       = (fun i => (pointId i, 0%float, nth (Z.to_nat (Z.rem i 8)) COLORS "")) <$> seqZ 0 n
    /\ forall (i : nat) (p : Point.t float),
         LevelData.points d !! i = Some p ->
         exists q, scrambled !! i = Some q
           /\ Point.x p = (Point.x q + (constantDraws 0.2 (k + 2 * i)%nat - 0.5) * 2)%float
           /\ Point.y p = (Point.y q + (constantDraws 0.2 (S (k + 2 * i)) - 0.5) * 2)%float.
Proof.
  apply (points_are_a_scrambled_circle cosSeries sinSeries (constantDraws 0.2) 8).
  intros k. reflexivity.
Defined.

Lemma generated_level_mounts_completely_witness :
  exists d,
    generateLevel cosSeries sinSeries (constantDraws 0.4) 17 = Some d
    /\ (forall pt, pt ∈ LevelData.points d ->
          pins (initScene d) !! Point.id pt = Some (pinOf pt))
    /\ dom (pins (initScene d)) = list_to_set (pointId <$> seqZ 0 (pointCount 17))
    /\ map_keys (ropes (initScene d)) = ropeId <$> seq 0 (length (LevelData.ropes d))
    /\ (forall r, r ∈ LevelData.ropes d ->
          ends <$> map_get (ropes (initScene d)) (Rope.id r)
          = Some (Rope.p1 r, Rope.p2 r)).
Proof.
  apply (generated_level_mounts_completely cosSeries sinSeries (constantDraws 0.4) 17);
    [lia | intros k; reflexivity].
Defined.

Lemma chord_attempts_grow_with_level_witness :
  1 <= extraRopes 50 <= pointCount 50 /\ extraRopes 50 <= extraRopes (50 + 1).
Proof. apply (chord_attempts_grow_with_level 50). lia. Defined.

Lemma level_stays_in_range_witness :
  let st := App.run (App.mount (Some (App.Int 5))) staleUnlock in
  exists c u,
    App.currentLevel st = App.Int c /\ App.unlockedLevel st = App.Int u
    /\ 1 <= c <= 100 /\ 1 <= u
    /\ (App.showMenu st = true <-> App.scene st = None)
    /\ (forall sc, App.scene st = Some sc ->
          App.closedLevel (App.onComplete sc) = App.Int c).
Proof.
  apply (level_stays_in_range (Some (App.Int 5)) staleUnlock). cbn. lia.
Defined.

Lemma progress_is_persisted_witness :
  let st := App.run (App.mount (Some (App.Int 5))) staleUnlock in
  App.unlockedLevel (App.mount (App.storage st)) = App.unlockedLevel st
  /\ savedOk (App.storage st)
  /\ exists u0 u, App.unlockedLevel (App.mount (Some (App.Int 5))) = App.Int u0
                  /\ App.unlockedLevel st = App.Int u /\ u0 <= u.
Proof.
  apply (progress_is_persisted (Some (App.Int 5)) staleUnlock). cbn. lia.
Defined.

Lemma level_without_ropes_never_completes_witness :
  isComplete (play danglingLevel (untangleDrag ++ [PointerUp])) = false.
Proof.
  apply (@level_without_ropes_never_completes float binary64 danglingLevel).
  vm_compute. reflexivity.
Defined.

Lemma second_grab_leaves_first_pin_enlarged_witness :
  let s' := foldl handle (initScene (squareLevel 10 10))
              (twoGrabs "p0" "p1" None None) in
  selectedPointId s' = None /\ Pin.grabbed <$> (pins s' !! "p0") = Some true.
Proof.
  apply (@second_grab_leaves_first_pin_enlarged float binary64
           (initScene (squareLevel 10 10)) "p0" "p1" None None).
  - vm_compute. reflexivity.
  - discriminate.
  - discriminate.
  - eexists. vm_compute. reflexivity.
Defined.

Lemma drag_keeps_the_grab_offset_witness :
  exists pin',
    pins (foldl handle onePinQ
            (dragTo "p0" (Vector3.mk (3 # 2) 2 0)%Q (Vector3.mk 4 (-5) 0)%Q)) !! "p0"
    = Some pin'
    /\ (Vector3.x (Pin.position pin') == 1 + (4 - (3 # 2)))%Q
    /\ (Vector3.y (Pin.position pin') == 2 + (-5 - 2))%Q
    /\ (Vector3.z (Pin.position pin') == 0 + (0 - 0))%Q.
Proof.
  apply (drag_keeps_the_grab_offset onePinQ "p0" (Pin.mk (Vector3.mk 1 2 0)%Q false)
           (Vector3.mk (3 # 2) 2 0)%Q (Vector3.mk 4 (-5) 0)%Q).
  - reflexivity.
  - discriminate.
  - reflexivity.
  - cbn. lra.
  - cbn. lra.
Defined.
